(** * SLICHashTable: region aggregation, bucket keys and collision voting

    A shallow embedding of [SLICHashTable.hpp] (the [HashKey] record, the
    class [SLICHashTable] with [calculate_hash_key] and [Hash]) and of
    [main] in [Demo.cpp] (the pixel counting, the database loop, the query
    aggregation, the voting loop and the selection of the best match),
    followed by the properties proved about them. *)

From Stdlib Require Import ZArith Lia List Bool QArith Qround.
From Stdlib Require Import Floats.SpecFloat.
From stdpp Require Import base option list gmap fin_maps sorting.

Local Open Scope Z_scope.

(** ** Machine integers

    [int] is 32 bits; [long] and [unsigned long] are 64 bits (the LP64 model
    of the Unix branch of the [#ifdef _WIN32] in [Demo.cpp]).  Values are
    carried as [Z]; every operation of the source that can leave the range
    is written with its wrap-around.  For the signed types C++ leaves the
    overflow undefined; the model takes the two's complement result, and
    the properties below say where no overflow happens. *)
Module MachineInt.

Definition INT_MIN : Z := - 2 ^ 31.
Definition INT_MAX : Z := 2 ^ 31 - 1.
Definition LONG_MAX : Z := 2 ^ 63 - 1.
Definition ULONG_MAX : Z := 2 ^ 64 - 1.

Definition wrap_signed (bits x : Z) : Z :=
  (x + 2 ^ (bits - 1)) mod 2 ^ bits - 2 ^ (bits - 1).

Definition wrap_unsigned (bits x : Z) : Z := x mod 2 ^ bits.

Definition int_add (a b : Z) : Z := wrap_signed 32 (a + b).
Definition int_mul (a b : Z) : Z := wrap_signed 32 (a * b).
Definition long_add (a b : Z) : Z := wrap_signed 64 (a + b).
Definition ulong_add (a b : Z) : Z := wrap_unsigned 64 (a + b).

Definition is_int (x : Z) : Prop := INT_MIN <= x <= INT_MAX.
Definition is_long (x : Z) : Prop := - 2 ^ 63 <= x <= LONG_MAX.

End MachineInt.
Export MachineInt.

(** ** Single-precision floats

    [float] is IEEE-754 binary32: 24 bits of precision, infinities at
    exponent 128.  The operations are the Standard Library's executable
    specification [SpecFloat] at that format, rounding to nearest even. *)
Module Float32.

Definition prec : Z := 24.
Definition emax : Z := 128.

(** The conversion [(float)z] of an integer. *)
Definition of_Z (z : Z) : spec_float := binary_normalize prec emax z 0 false.

Definition div (x y : spec_float) : spec_float := SFdiv prec emax x y.

(** The integer part of a float, rounded towards zero. *)
Definition trunc (f : spec_float) : option Z :=
  match f with
  | S754_zero _ => Some 0
  | S754_finite s m e =>
      let a := Z.shiftl (Zpos m) e in Some (if s then - a else a)
  | S754_infinity _ | S754_nan => None
  end.

(** The conversion [(int)f].  C++ defines it only when the truncated value
    fits in [int]; elsewhere the model takes what the x86-64 instruction
    [cvttss2si] produces, the "integer indefinite" value [INT_MIN]. *)
Definition to_int (f : spec_float) : Z :=
  match trunc f with
  | Some z => if (INT_MIN <=? z) && (z <=? INT_MAX) then z else INT_MIN
  | None => INT_MIN
  end.

End Float32.

(** ** The [HashKey] record

    [original_image] is a pointer to a [cv::Mat]; the model keeps the
    address, [None] for the null pointer that [calloc] leaves there. *)
Definition mat_ptr : Type := option N.
Definition nullptr : mat_ptr := None.

Record HashKey : Type := mkHashKey {
  l_tot : Z;
  a_tot : Z;
  b_tot : Z;
  x_range : Z * Z;
  y_range : Z * Z;
  original_image : mat_ptr;
  pixel_count : Z
}.

(** One element of a [calloc]ed array of [HashKey]. *)
Definition zero_HashKey : HashKey :=
  mkHashKey 0 0 0 (0, 0) (0, 0) nullptr 0.

(** ** The constants of [SLICHashTable] *)
Definition n_dims : Z := 5.
Definition lab_buckets : Z := 16.
Definition lab_bucket_size : Z := 256 ÷ lab_buckets.
Definition max_img_w : Z := 3840.
Definition max_img_h : Z := 2160.
Definition x_buckets : Z := 10.
Definition y_buckets : Z := 10.
Definition x_bucket_size : Z := max_img_w ÷ x_buckets.
Definition y_bucket_size : Z := max_img_h ÷ y_buckets.
Definition dims : list Z :=
  [lab_buckets; lab_buckets; lab_buckets; x_buckets; y_buckets].

(** [dims[i]] for the constant indices the source uses. *)
Definition dims_at (i : nat) : Z := nth i dims 0.

(** The value [calculate_hash_key] returns for a record without pixels. *)
Definition sentinel : Z := -1.

(** [std::max(0, std::min(bucket, dim - 1))] *)
Definition clamp_bucket (bucket dim : Z) : Z := Z.max 0 (Z.min bucket (dim - 1)).

(** ** [SLICHashTable::calculate_hash_key] *)
Definition calculate_hash_key (key : HashKey) : Z :=
  if pixel_count key =? 0 then sentinel else
  (* average colour values *)
  let l_avg := Float32.div (Float32.of_Z (l_tot key)) (Float32.of_Z (pixel_count key)) in
  let a_avg := Float32.div (Float32.of_Z (a_tot key)) (Float32.of_Z (pixel_count key)) in
  let b_avg := Float32.div (Float32.of_Z (b_tot key)) (Float32.of_Z (pixel_count key)) in
  let x_center :=
    Float32.div (Float32.of_Z (int_add (fst (x_range key)) (snd (x_range key))))
                (Float32.of_Z 2) in
  let y_center :=
    Float32.div (Float32.of_Z (int_add (fst (y_range key)) (snd (y_range key))))
                (Float32.of_Z 2) in
  (* buckets *)
  let l_bucket := Float32.to_int (Float32.div l_avg (Float32.of_Z lab_bucket_size)) in
  let a_bucket := Float32.to_int (Float32.div a_avg (Float32.of_Z lab_bucket_size)) in
  let b_bucket := Float32.to_int (Float32.div b_avg (Float32.of_Z lab_bucket_size)) in
  let x_bucket := Float32.to_int (Float32.div x_center (Float32.of_Z x_bucket_size)) in
  let y_bucket := Float32.to_int (Float32.div y_center (Float32.of_Z y_bucket_size)) in
  (* clamping *)
  let l_bucket := clamp_bucket l_bucket (dims_at 0) in
  let a_bucket := clamp_bucket a_bucket (dims_at 1) in
  let b_bucket := clamp_bucket b_bucket (dims_at 2) in
  let x_bucket := clamp_bucket x_bucket (dims_at 3) in
  let y_bucket := clamp_bucket y_bucket (dims_at 4) in
  (* hash key *)
  let hash_key := l_bucket in
  let hash_key := int_add (int_mul hash_key (dims_at 1)) a_bucket in
  let hash_key := int_add (int_mul hash_key (dims_at 2)) b_bucket in
  let hash_key := int_add (int_mul hash_key (dims_at 3)) x_bucket in
  let hash_key := int_add (int_mul hash_key (dims_at 4)) y_bucket in
  hash_key.

(** The number of bucket keys: the product of the bucket counts. *)
Definition total_bucket_count : Z := fold_right Z.mul 1 dims.

(** ** The key as the specification words it

    Each axis value is divided by the axis's bucket width and clamped into
    [[0, count - 1]]; the five indices are combined by multiply-and-add from
    zero, every axis entering with its own bucket count as the radix, in
    the order colour 1, colour 2, colour 3, spatial x, spatial y.  The
    colour axis values are the channel averages, the spatial ones the
    midpoints of the bounding box; the spatial widths come from the
    reference resolution 3840 x 2160.

    The values and the quotients here are exact fractions: nothing of the
    source's single-precision arithmetic enters.  The index of an axis is
    the integer part of the quotient, rounded down; below zero the clamp
    gives 0 whichever way it is rounded. *)
Module KeySpec.

Record axis : Type := mkAxis {
  axis_value : Q;
  axis_width : Z;
  axis_count : Z
}.

(** The average of a channel: its sum over the number of pixels. *)
Definition average (total count : Z) : Q :=
  Qdiv (inject_Z total) (inject_Z count).

(** The midpoint of the bounding box on one dimension. *)
Definition midpoint (range : Z * Z) : Q :=
  Qdiv (inject_Z (fst range + snd range)) (inject_Z 2).

(** The integer part of [value / width]. *)
Definition quotient (ax : axis) : Z :=
  Qfloor (Qdiv (axis_value ax) (inject_Z (axis_width ax))).

Definition bucket_index (ax : axis) : Z :=
  let q := quotient ax in
  if q <? 0 then 0 else if axis_count ax - 1 <? q then axis_count ax - 1 else q.

Definition axes (key : HashKey) : list axis :=
  [ mkAxis (average (l_tot key) (pixel_count key)) (256 / 16) 16;
    mkAxis (average (a_tot key) (pixel_count key)) (256 / 16) 16;
    mkAxis (average (b_tot key) (pixel_count key)) (256 / 16) 16;
    mkAxis (midpoint (x_range key)) (3840 / 10) 10;
    mkAxis (midpoint (y_range key)) (2160 / 10) 10 ].

Definition mixed_radix (axs : list axis) : Z :=
  fold_left (fun acc ax => acc * axis_count ax + bucket_index ax) axs 0.

Definition bucket_key (key : HashKey) : Z := mixed_radix (axes key).

(** The records on which the single-precision arithmetic of the source
    loses nothing that matters: the pixel count and the three colour sums
    are below [2^24], so that their conversion to [float] is exact, and the
    bounding box lies inside the reference resolution. *)
Definition exact_on (key : HashKey) : Prop :=
  0 < pixel_count key < 2 ^ 24 /\
  0 <= l_tot key < 2 ^ 24 /\
  0 <= a_tot key < 2 ^ 24 /\
  0 <= b_tot key < 2 ^ 24 /\
  0 <= fst (x_range key) < 3840 /\ 0 <= snd (x_range key) < 3840 /\
  0 <= fst (y_range key) < 2160 /\ 0 <= snd (y_range key) < 2160.

End KeySpec.

(** ** Matrices, pixels and arrays

    A [cv::Mat] is read through [at<T>(row, col)] only, at the positions of
    the label matrix; the model keeps the address of the object, its
    dimensions and the element read at each position.  An image smaller
    than its label matrix (a read outside the image, undefined in the
    source) is outside the model. *)
Record Mat (A : Type) : Type := mkMat {
  mat_addr : N;
  rows : nat;
  cols : nat;
  mat_at : nat -> nat -> A
}.
Arguments mkMat {A} _ _ _ _.
Arguments mat_addr {A} _.
Arguments rows {A} _.
Arguments cols {A} _.
Arguments mat_at {A} _ _ _.

(** [&m] *)
Definition address_of {A} (m : Mat A) : mat_ptr := Some (mat_addr m).

(** [cv::Vec3b]: three [uchar] channels. *)
Definition Vec3b : Type := Byte.byte * Byte.byte * Byte.byte.

(** [lab_pixel[i]], converted to [long] as the additions do. *)
Definition channel (lab_pixel : Vec3b) (i : nat) : Z :=
  let '(c0, c1, c2) := lab_pixel in
  Z.of_N (Byte.to_N (match i with O => c0 | 1%nat => c1 | _ => c2 end)).

(** The cells in the order of the two nested [for] loops: rows outermost,
    columns innermost. *)
Definition scan {A} (m : Mat A) : list (nat * nat) :=
  flat_map (fun row => map (fun col => (row, col)) (seq 0 (cols m))) (seq 0 (rows m)).

(** A heap array of known length indexed by an [int]; reading or writing
    outside it is undefined in C++ and is [None] here. *)
Definition array_get {A} (a : list A) (i : Z) : option A :=
  if i <? 0 then None else a !! Z.to_nat i.

Definition array_set {A} (a : list A) (i : Z) (x : A) : list A :=
  <[Z.to_nat i := x]> a.

(** [calloc(count, sizeof(HashKey))] *)
Definition calloc_HashKey (count : Z) : list HashKey :=
  replicate (Z.to_nat count) zero_HashKey.

(** ** Per-pixel accumulation

    The statements that [Hash] (lines 85-104 of the header) and the query
    loop of [main] share: colour sums, bounding box, owner and count of the
    record [curr] of the pixel's region. *)
Definition accumulate (image : mat_ptr) (lab_pixel : Vec3b) (row col : Z)
    (curr : HashKey) : HashKey :=
  let l := long_add (l_tot curr) (channel lab_pixel 0) in
  let a := long_add (a_tot curr) (channel lab_pixel 1) in
  let b := long_add (b_tot curr) (channel lab_pixel 2) in
  if pixel_count curr =? 0 then
    mkHashKey l a b (col, col) (row, row) image (ulong_add (pixel_count curr) 1)
  else
    let x_first := if fst (x_range curr) >? col then col else fst (x_range curr) in
    let x_second := if snd (x_range curr) <? col then col else snd (x_range curr) in
    let y_first := if fst (y_range curr) >? row then row else fst (y_range curr) in
    let y_second := if snd (y_range curr) <? row then row else snd (y_range curr) in
    mkHashKey l a b (x_first, x_second) (y_first, y_second) (original_image curr)
      (ulong_add (pixel_count curr) 1).

(** ** The hash table

    [std::unordered_map<int, std::vector<HashKey>>]; [push_back] is
    [hashTable[key].push_back(curr)], which creates the bucket when the key
    is new. *)
Definition push_back (key : Z) (curr : HashKey) (table : gmap Z (list HashKey))
    : gmap Z (list HashKey) :=
  <[key := default [] (table !! key) ++ [curr]]> table.

(** ** [SLICHashTable::Hash]

    The state of the loops: the local array [superpixels] and the member
    [hashTable]. *)
Record HashState : Type := mkHashState {
  superpixels : list HashKey;
  hashTable : gmap Z (list HashKey)
}.

(** How a pass ends: it returns, or it indexes [superpixels] or
    [pixel_count] outside the array.  The source has no check on [sp]; past
    such an access nothing is defined, and the model stops there with the
    table as the cells before left it. *)
Inductive status : Type := Returned | OutOfBounds.

(** The body of the inner loop at the cell [(row, col)].  The parameter
    [pixel_count] of the source, the array of expected counts, is
    [pixel_count_arr] here: the name is taken by the field of [HashKey]. *)
Definition Hash_cell (input_image : Mat Vec3b) (labels : Mat Z) (pixel_count_arr : list Z)
    (cell : nat * nat) (st : HashState) : option HashState :=
  let '(row, col) := cell in
  let lab_pixel := mat_at input_image row col in
  let sp := mat_at labels row col in
  match array_get (superpixels st) sp with
  | None => None
  | Some curr =>
      let curr := accumulate (address_of input_image) lab_pixel
                    (Z.of_nat row) (Z.of_nat col) curr in
      let superpixels' := array_set (superpixels st) sp curr in
      match array_get pixel_count_arr sp with
      | None => None
      | Some expected =>
          (* hash the superpixel if all its pixels have been found *)
          if pixel_count curr =? expected then
            let key := calculate_hash_key curr in
            if negb (key =? -1) then
              Some (mkHashState superpixels' (push_back key curr (hashTable st)))
            else Some (mkHashState superpixels' (hashTable st))
          else Some (mkHashState superpixels' (hashTable st))
      end
  end.

Fixpoint Hash_loop (input_image : Mat Vec3b) (labels : Mat Z) (pixel_count_arr : list Z)
    (cells : list (nat * nat)) (st : HashState) : status * HashState :=
  match cells with
  | [] => (Returned, st)
  | cell :: cells' =>
      match Hash_cell input_image labels pixel_count_arr cell st with
      | Some st' => Hash_loop input_image labels pixel_count_arr cells' st'
      | None => (OutOfBounds, st)
      end
  end.

(** The state in which the loops start. *)
Definition Hash_init (superpixel_count : Z) (table : gmap Z (list HashKey)) : HashState :=
  mkHashState (calloc_HashKey superpixel_count) table.

(** [Hash] called when the member [hashTable] is [table]: the way the pass
    ends, and the table it leaves ([superpixels] is freed). *)
Definition Hash (table : gmap Z (list HashKey)) (input_image : Mat Vec3b)
    (labels : Mat Z) (superpixel_count : Z) (pixel_count_arr : list Z)
    : status * gmap Z (list HashKey) :=
  let '(s, st) := Hash_loop input_image labels pixel_count_arr (scan labels)
                    (Hash_init superpixel_count table) in
  (s, hashTable st).

(** The record [curr] after the pixel at [cell] has been added to it. *)
Definition accumulate_at (input_image : Mat Vec3b) (cell : nat * nat) (curr : HashKey)
    : HashKey :=
  accumulate (address_of input_image) (mat_at input_image (fst cell) (snd cell))
    (Z.of_nat (fst cell)) (Z.of_nat (snd cell)) curr.

(** ** The insertions of a pass

    The record that the body pushes at a cell, with its region and key, if
    it pushes one; and the list of them over a run of cells.  [Hash_loop]'s
    table is the initial table with these appended in order
    ([Hash_loop_insertions] below). *)
Definition Hash_cell_insertion (input_image : Mat Vec3b) (labels : Mat Z)
    (pixel_count_arr : list Z) (cell : nat * nat) (sps : list HashKey)
    : option (Z * Z * HashKey) :=
  let '(row, col) := cell in
  let sp := mat_at labels row col in
  match array_get sps sp, array_get pixel_count_arr sp with
  | Some curr, Some expected =>
      let curr := accumulate (address_of input_image) (mat_at input_image row col)
                    (Z.of_nat row) (Z.of_nat col) curr in
      if (pixel_count curr =? expected) && negb (calculate_hash_key curr =? -1)
      then Some (sp, calculate_hash_key curr, curr) else None
  | _, _ => None
  end.

Fixpoint Hash_insertions (input_image : Mat Vec3b) (labels : Mat Z)
    (pixel_count_arr : list Z) (cells : list (nat * nat)) (st : HashState)
    : list (Z * Z * HashKey) :=
  match cells with
  | [] => []
  | cell :: cells' =>
      match Hash_cell input_image labels pixel_count_arr cell st with
      | Some st' =>
          match Hash_cell_insertion input_image labels pixel_count_arr cell (superpixels st) with
          | Some ins => [ins]
          | None => []
          end ++ Hash_insertions input_image labels pixel_count_arr cells' st'
      | None => []
      end
  end.

(** ** The query side of [main]

    Lines 265-293 of [Demo.cpp]: the records of the query image's regions,
    accumulated as in [Hash] but never inserted. *)
Definition query_cell (query_image : Mat Vec3b) (query_labels : Mat Z)
    (cell : nat * nat) (query_superpixels : list HashKey) : option (list HashKey) :=
  let '(row, col) := cell in
  let lab_pixel := mat_at query_image row col in
  let sp := mat_at query_labels row col in
  match array_get query_superpixels sp with
  | None => None
  | Some curr =>
      Some (array_set query_superpixels sp
              (accumulate (address_of query_image) lab_pixel
                 (Z.of_nat row) (Z.of_nat col) curr))
  end.

Fixpoint query_loop (query_image : Mat Vec3b) (query_labels : Mat Z)
    (cells : list (nat * nat)) (query_superpixels : list HashKey)
    : status * list HashKey :=
  match cells with
  | [] => (Returned, query_superpixels)
  | cell :: cells' =>
      match query_cell query_image query_labels cell query_superpixels with
      | Some sps' => query_loop query_image query_labels cells' sps'
      | None => (OutOfBounds, query_superpixels)
      end
  end.

Definition build_query (query_image : Mat Vec3b) (query_labels : Mat Z)
    (query_superpixel_count : Z) : status * list HashKey :=
  query_loop query_image query_labels (scan query_labels)
    (calloc_HashKey query_superpixel_count).

(** [match_counts[p]++] on the [std::map<const cv::Mat*, int>]: a missing
    entry is created at 0 first. *)
Definition increment (p : mat_ptr) (match_counts : gmap mat_ptr Z) : gmap mat_ptr Z :=
  <[p := int_add (default 0 (match_counts !! p)) 1]> match_counts.

(** The inner [for (const HashKey& match : matches)]. *)
Definition vote_matches (matches : list HashKey) (match_counts : gmap mat_ptr Z)
    : gmap mat_ptr Z :=
  fold_left (fun counts match_ => increment (original_image match_) counts)
    matches match_counts.

(** One turn of the loop over the query records (lines 298-309). *)
Definition vote_record (table : gmap Z (list HashKey)) (match_counts : gmap mat_ptr Z)
    (query : HashKey) : gmap mat_ptr Z :=
  let query_key := calculate_hash_key query in
  if query_key =? -1 then match_counts
  else
    match table !! query_key with
    | Some matches => vote_matches matches match_counts
    | None => match_counts
    end.

(** Lines 296-310: the tallies after all the query records. *)
Definition vote (table : gmap Z (list HashKey)) (query_superpixels : list HashKey)
    : gmap mat_ptr Z :=
  fold_left (vote_record table) query_superpixels ∅.

(** The votes of an image: its entry, 0 when it has none. *)
Definition tally (match_counts : gmap mat_ptr Z) (p : mat_ptr) : Z :=
  default 0 (match_counts !! p).

(** A [std::map] is traversed in increasing key order; for pointers that
    is the order of the addresses, the null pointer first. *)
Definition ptr_le (p q : mat_ptr) : Prop :=
  match p, q with
  | None, _ => True
  | Some _, None => False
  | Some a, Some b => (a <= b)%N
  end.

#[global] Instance ptr_le_dec p q : Decision (ptr_le p q).
Proof. destruct p, q; simpl; apply _. Defined.

Definition entry_le (x y : mat_ptr * Z) : Prop := ptr_le (fst x) (fst y).

#[global] Instance entry_le_dec x y : Decision (entry_le x y).
Proof. unfold entry_le. apply _. Defined.

Definition entries (match_counts : gmap mat_ptr Z) : list (mat_ptr * Z) :=
  merge_sort entry_le (map_to_list match_counts).

(** The body of the loop of lines 315-320 on the pair
    [(best_match_image_ptr, max_matches)]. *)
Definition select (acc pair : mat_ptr * Z) : mat_ptr * Z :=
  let '(best_match_image_ptr, max_matches) := acc in
  if snd pair >? max_matches then (fst pair, snd pair)
  else (best_match_image_ptr, max_matches).

(** Lines 313-320: the pair [(best_match_image_ptr, max_matches)] after the
    loop over [match_counts]. *)
Definition best_match (match_counts : gmap mat_ptr Z) : mat_ptr * Z :=
  fold_left select (entries match_counts) (nullptr, 0).

(** Lines 326-331: what is shown for the query. *)
Inductive shown : Type :=
  | BestMatch (image : N)
  | NoMatchesFound.

Definition retrieve (table : gmap Z (list HashKey)) (query_superpixels : list HashKey)
    : shown :=
  match fst (best_match (vote table query_superpixels)) with
  | Some image => BestMatch image
  | None => NoMatchesFound
  end.

(** ** Notions used to state the properties *)

(** The region identifier of a cell. *)
Definition label_at (labels : Mat Z) (cell : nat * nat) : Z :=
  mat_at labels (fst cell) (snd cell).

(** The cells of [cells] that carry the identifier [sp]. *)
Definition cells_of (labels : Mat Z) (sp : Z) (cells : list (nat * nat))
    : list (nat * nat) :=
  filter (fun cell => label_at labels cell = sp) cells.

(** Their number. *)
Definition count_cells (labels : Mat Z) (sp : Z) (cells : list (nat * nat)) : Z :=
  Z.of_nat (length (cells_of labels sp cells)).

(** The sum of channel [i] of the image over them, as an integer without
    bound. *)
Definition channel_sum (input_image : Mat Vec3b) (labels : Mat Z) (i : nat) (sp : Z)
    (cells : list (nat * nat)) : Z :=
  foldr Z.add 0
    (map (fun cell => channel (mat_at input_image (fst cell) (snd cell)) i)
         (cells_of labels sp cells)).

(** Every cell of [cells] holds an identifier in [[0, superpixel_count)]. *)
Definition labels_in_range (labels : Mat Z) (superpixel_count : Z)
    (cells : list (nat * nat)) : Prop :=
  Forall (fun cell => 0 <= label_at labels cell < superpixel_count) cells.

(** The dimensions of a matrix are [int]s. *)
Definition dims_are_int {A} (m : Mat A) : Prop :=
  Z.of_nat (rows m) <= INT_MAX /\ Z.of_nat (cols m) <= INT_MAX.

(** The expected-count array has one entry per region. *)
Definition one_per_region (pixel_count_arr : list Z) (superpixel_count : Z) : Prop :=
  0 <= superpixel_count /\ Z.of_nat (length pixel_count_arr) = superpixel_count.

(** The expected counts are the true numbers of cells per identifier. *)
Definition counts_are_true (labels : Mat Z) (pixel_count_arr : list Z) : Prop :=
  forall (i : nat) (expected : Z),
    pixel_count_arr !! i = Some expected ->
    expected = count_cells labels (Z.of_nat i) (scan labels).

(** All the records of a table, bucket after bucket. *)
Definition table_records (table : gmap Z (list HashKey)) : list HashKey :=
  flat_map snd (map_to_list table).

Definition sum_pixel_count (records : list HashKey) : Z :=
  foldr Z.add 0 (map pixel_count records).

(** What every table built by [Hash] satisfies: a bucket holds records with
    pixels, filed under their own key, owned by an image. *)
Definition table_inv (table : gmap Z (list HashKey)) : Prop :=
  forall (key : Z) (bucket : list HashKey),
    table !! key = Some bucket ->
    Forall (fun record =>
              0 < pixel_count record /\
              calculate_hash_key record = key /\
              original_image record <> nullptr) bucket.

(** The indexed records that collide with a query record for [image]: their
    key is the query's, not the sentinel, and [image] owns them. *)
Definition colliding (table : gmap Z (list HashKey)) (image : mat_ptr) (query : HashKey)
    : list HashKey :=
  filter (fun record => calculate_hash_key query = calculate_hash_key record /\
                        calculate_hash_key query <> sentinel /\
                        original_image record = image)
         (table_records table).

(** The pairs of a query record and an indexed record that collide. *)
Definition colliding_pairs (table : gmap Z (list HashKey)) (queries : list HashKey)
    (image : mat_ptr) : list (HashKey * HashKey) :=
  flat_map (fun query => map (fun record => (query, record)) (colliding table image query))
           queries.

(** The records of one bucket owned by [image]. *)
Definition owned_in_bucket (table : gmap Z (list HashKey)) (key : Z) (image : mat_ptr)
    : list HashKey :=
  filter (fun record => original_image record = image) (default [] (table !! key)).

(** The votes that one query record casts for an image: none when its key is
    the sentinel, else one for each record of its bucket that the image
    owns. *)
Definition votes_of_query (table : gmap Z (list HashKey)) (image : mat_ptr)
    (query : HashKey) : Z :=
  if calculate_hash_key query =? sentinel then 0
  else Z.of_nat (length (owned_in_bucket table (calculate_hash_key query) image)).

(** The bounding box of [record] contains the cell. *)
Definition in_box (record : HashKey) (cell : nat * nat) : Prop :=
  fst (x_range record) <= Z.of_nat (snd cell) <= snd (x_range record) /\
  fst (y_range record) <= Z.of_nat (fst cell) <= snd (y_range record).

(** ** The aggregation invariant

    What the record of region [sp] holds once the cells [done] have been
    visited: their number, the zero record while there is none, the owner
    and a bounding box around them (and inside any frame around them) once
    there is one, and their exact channel sums as long as
    [255 * length done] fits in [long]. *)
Record record_inv (input_image : Mat Vec3b) (labels : Mat Z) (done : list (nat * nat))
    (sp : Z) (record : HashKey) : Prop := {
  inv_count : pixel_count record = count_cells labels sp done;
  inv_zero : count_cells labels sp done = 0 -> record = zero_HashKey;
  inv_owner : 0 < count_cells labels sp done ->
              original_image record = address_of input_image;
  inv_box : forall cell, cell ∈ cells_of labels sp done -> in_box record cell;
  inv_hull : forall W H,
             (forall cell, cell ∈ cells_of labels sp done ->
                           Z.of_nat (snd cell) < W /\ Z.of_nat (fst cell) < H) ->
             0 < count_cells labels sp done ->
             0 <= fst (x_range record) /\ snd (x_range record) < W /\
             0 <= fst (y_range record) /\ snd (y_range record) < H;
  inv_sums : 255 * Z.of_nat (length done) <= LONG_MAX ->
             l_tot record = channel_sum input_image labels 0 sp done /\
             a_tot record = channel_sum input_image labels 1 sp done /\
             b_tot record = channel_sum input_image labels 2 sp done
}.

Definition agg_inv (input_image : Mat Vec3b) (labels : Mat Z) (done : list (nat * nat))
    (sps : list HashKey) : Prop :=
  forall (sp : Z) (record : HashKey),
    array_get sps sp = Some record -> record_inv input_image labels done sp record.

(** The insertion of a pass into the table. *)
Definition replay (insertions : list (Z * Z * HashKey)) (table : gmap Z (list HashKey))
    : gmap Z (list HashKey) :=
  fold_left (fun t (ins : Z * Z * HashKey) => push_back (snd (fst ins)) (snd ins) t)
    insertions table.

(** The insertions made for the region [sp]. *)
Definition insertions_of (sp : Z) (insertions : list (Z * Z * HashKey))
    : list (Z * Z * HashKey) :=
  filter (fun ins : Z * Z * HashKey => fst (fst ins) = sp) insertions.

(** The cells of [done] whose region is complete within [done]: it has as
    many cells there as in the whole of [all]. *)
Definition completed (labels : Mat Z) (all done : list (nat * nat)) : list (nat * nat) :=
  filter (fun cell => count_cells labels (label_at labels cell) done
                      = count_cells labels (label_at labels cell) all) done.

(** The integer part of [(n / 2.0f) / width] is the integer quotient
    [n / (2 * width)]: the check made for every coordinate sum of the
    reference resolution. *)
Definition midpoint_quotient_exact (width n : Z) : bool :=
  match Float32.trunc
          (Float32.div (Float32.div (Float32.of_Z n) (Float32.of_Z 2)) (Float32.of_Z width))
  with
  | Some q => q =? n / (2 * width)
  | None => false
  end.

(** ** Concrete inputs

    The 4 x 4 image of the specification's first scenario: two regions of
    eight pixels, the upper one of colour (10, 10, 10) and the lower one of
    colour (200, 200, 200); and a 1 x 2 grid whose second cell holds an
    identifier that is no region. *)
Module Scenario.

Definition uchar (n : N) : Byte.byte := default Byte.x00 (Byte.of_N n).

Definition gray (n : N) : Vec3b := (uchar n, uchar n, uchar n).

Definition image_A : Mat Vec3b :=
  mkMat 100%N 4 4 (fun row _ => if (row <? 2)%nat then gray 10 else gray 200).

Definition labels_A : Mat Z :=
  mkMat 200%N 4 4 (fun row _ => if (row <? 2)%nat then 0 else 1).

Definition counts_A : list Z := [8; 8].

(** The table after [image_A] is hashed into an empty one, and the records
    of the same image taken as the query. *)
Definition table_A : gmap Z (list HashKey) :=
  snd (Hash ∅ image_A labels_A 2 counts_A).

Definition queries_A : list HashKey := snd (build_query image_A labels_A 2).

(** The record of the upper region. *)
Definition upper_A : HashKey := mkHashKey 80 80 80 (0, 3) (0, 1) (Some 100%N) 8.

(** The table after the same image is hashed five times. *)
Definition table_A5 : gmap Z (list HashKey) :=
  Nat.iter 5 (fun t => snd (Hash t image_A labels_A 2 counts_A)) ∅.

Definition image_bad : Mat Vec3b := mkMat 300%N 1 2 (fun _ _ => gray 10).

Definition labels_bad : Mat Z :=
  mkMat 400%N 1 2 (fun _ col => if (col <? 1)%nat then 0 else 5).

Definition counts_bad : list Z := [1].

(** The record that the pass over [labels_bad] inserts at its first cell. *)
Definition first_bad : HashKey := mkHashKey 10 10 10 (0, 0) (0, 0) (Some 300%N) 1.

(** A region of 2000 x 1500 pixels whose first channel is 16 everywhere but
    for one pixel of 15, the other channels 0: the average of the first
    channel is just below 16, the width of a colour bucket. *)
Definition boundary_region : HashKey :=
  mkHashKey 47999999 0 0 (0, 1999) (0, 1499) (Some 100%N) 3000000.

(** A region of [2^20 + 1] pixels of the same kind: its colour sum is the
    least above [2^24] on which the source's bucket is not the exact one. *)
Definition least_boundary_region : HashKey :=
  mkHashKey 16777231 0 0 (0, 1023) (0, 1024) (Some 100%N) 1048577.

End Scenario.

(** ** The rest of [main]

    The counting loop (lines 194-201 for a database image, 257-262 for the
    query): [pixel_count[labels.at<int>(row, col)] += 1] on a [calloc]ed
    array of [unsigned long]. *)
Definition calloc_ulong (count : Z) : list Z :=
  replicate (Z.to_nat count) 0.

Definition count_cell (labels : Mat Z) (cell : nat * nat) (counts : list Z)
    : option (list Z) :=
  let '(row, col) := cell in
  let sp := mat_at labels row col in
  match array_get counts sp with
  | None => None
  | Some c => Some (array_set counts sp (ulong_add c 1))
  end.

Fixpoint count_loop (labels : Mat Z) (cells : list (nat * nat)) (counts : list Z)
    : status * list Z :=
  match cells with
  | [] => (Returned, counts)
  | cell :: cells' =>
      match count_cell labels cell counts with
      | Some counts' => count_loop labels cells' counts'
      | None => (OutOfBounds, counts)
      end
  end.

Definition count_pixels (labels : Mat Z) (superpixel_count : Z) : status * list Z :=
  count_loop labels (scan labels) (calloc_ulong superpixel_count).

(** What the segmentation, which is outside this development, hands to
    [main] for one image: the image, its label matrix and the number of
    superpixels. *)
Record Segmented : Type := mkSegmented {
  seg_image : Mat Vec3b;
  seg_labels : Mat Z;
  seg_count : Z
}.

(** One turn of the loop over the database images (lines 193-204): count
    the pixels, then hash the superpixels into the table. *)
Definition index_image (table : gmap Z (list HashKey)) (seg : Segmented)
    : status * gmap Z (list HashKey) :=
  match count_pixels (seg_labels seg) (seg_count seg) with
  | (Returned, pixel_count_arr) =>
      Hash table (seg_image seg) (seg_labels seg) (seg_count seg) pixel_count_arr
  | (OutOfBounds, _) => (OutOfBounds, table)
  end.

(** The loop over the database images (lines 169-236), from the table
    [table]; it stops where a turn leaves an array. *)
Fixpoint build_index (database : list Segmented) (table : gmap Z (list HashKey))
    : status * gmap Z (list HashKey) :=
  match database with
  | [] => (Returned, table)
  | seg :: database' =>
      match index_image table seg with
      | (Returned, table') => build_index database' table'
      | (OutOfBounds, table') => (OutOfBounds, table')
      end
  end.

(** One turn of the loop over the queries (lines 244-331): count the
    pixels, build the records, vote and select.  [None] where a loop leaves
    an array. *)
Definition run_query (table : gmap Z (list HashKey)) (query : Segmented) : option shown :=
  match count_pixels (seg_labels query) (seg_count query) with
  | (Returned, _) =>
      match build_query (seg_image query) (seg_labels query) (seg_count query) with
      | (Returned, query_superpixels) => Some (retrieve table query_superpixels)
      | (OutOfBounds, _) => None
      end
  | (OutOfBounds, _) => None
  end.

(** ** Further notions used to state properties *)

(** The records of a pass inserted under one key, in the order of the
    pass. *)
Definition inserted_under (key : Z) (insertions : list (Z * Z * HashKey)) : list HashKey :=
  map snd (filter (fun ins : Z * Z * HashKey => snd (fst ins) = key) insertions).

(** The five clamped buckets of a record, as lines 44-62 of the header
    compute them. *)
Definition clamped_buckets (key : HashKey) : Z * Z * Z * Z * Z :=
  let l_avg := Float32.div (Float32.of_Z (l_tot key)) (Float32.of_Z (pixel_count key)) in
  let a_avg := Float32.div (Float32.of_Z (a_tot key)) (Float32.of_Z (pixel_count key)) in
  let b_avg := Float32.div (Float32.of_Z (b_tot key)) (Float32.of_Z (pixel_count key)) in
  let x_center :=
    Float32.div (Float32.of_Z (int_add (fst (x_range key)) (snd (x_range key))))
                (Float32.of_Z 2) in
  let y_center :=
    Float32.div (Float32.of_Z (int_add (fst (y_range key)) (snd (y_range key))))
                (Float32.of_Z 2) in
  (clamp_bucket (Float32.to_int (Float32.div l_avg (Float32.of_Z lab_bucket_size))) (dims_at 0),
   clamp_bucket (Float32.to_int (Float32.div a_avg (Float32.of_Z lab_bucket_size))) (dims_at 1),
   clamp_bucket (Float32.to_int (Float32.div b_avg (Float32.of_Z lab_bucket_size))) (dims_at 2),
   clamp_bucket (Float32.to_int (Float32.div x_center (Float32.of_Z x_bucket_size))) (dims_at 3),
   clamp_bucket (Float32.to_int (Float32.div y_center (Float32.of_Z y_bucket_size))) (dims_at 4)).

(** The five digits of a key in the mixed radix 16, 16, 16, 10, 10. *)
Definition key_digits (hash_key : Z) : Z * Z * Z * Z * Z :=
  (hash_key / 25600,
   (hash_key / 1600) mod 16,
   (hash_key / 100) mod 16,
   (hash_key / 10) mod 10,
   hash_key mod 10).

(** Two records with the same statistics: all the fields but the owner. *)
Definition same_stats (r1 r2 : HashKey) : Prop :=
  l_tot r1 = l_tot r2 /\ a_tot r1 = a_tot r2 /\ b_tot r1 = b_tot r2 /\
  x_range r1 = x_range r2 /\ y_range r1 = y_range r2 /\
  pixel_count r1 = pixel_count r2.

(** The sides of the bounding box of [record] are reached by cells of
    [cells]. *)
Definition box_attained (record : HashKey) (cells : list (nat * nat)) : Prop :=
  (exists cell, cell ∈ cells /\ Z.of_nat (snd cell) = fst (x_range record)) /\
  (exists cell, cell ∈ cells /\ Z.of_nat (snd cell) = snd (x_range record)) /\
  (exists cell, cell ∈ cells /\ Z.of_nat (fst cell) = fst (y_range record)) /\
  (exists cell, cell ∈ cells /\ Z.of_nat (fst cell) = snd (y_range record)).

(** Every entry of the array of counts is the number of cells of [done] with
    its index. *)
Definition count_inv (labels : Mat Z) (done : list (nat * nat)) (counts : list Z) : Prop :=
  forall sp c, array_get counts sp = Some c -> c = count_cells labels sp done.

(** The entry of [image] after [n] increments from nothing: none for
    [n = 0], else [n] as an [int]. *)
Definition counted (match_counts : gmap mat_ptr Z) (image : mat_ptr) (n : Z) : Prop :=
  match_counts !! image = if decide (n = 0) then None else Some (wrap_signed 32 n).

(** Wherever a region has cells among [done], the sides of its record's box
    are reached by them. *)
Definition box_inv (labels : Mat Z) (done : list (nat * nat)) (sps : list HashKey) : Prop :=
  forall (sp : Z) (record : HashKey),
    array_get sps sp = Some record ->
    0 < count_cells labels sp done ->
    box_attained record (cells_of labels sp done).

(** The insertions of one turn of the database loop: those of the pass with
    the counted pixels, none when the counting leaves its array. *)
Definition index_insertions (seg : Segmented) : list (Z * Z * HashKey) :=
  match count_pixels (seg_labels seg) (seg_count seg) with
  | (Returned, pixel_count_arr) =>
      Hash_insertions (seg_image seg) (seg_labels seg) pixel_count_arr
        (scan (seg_labels seg)) (Hash_init (seg_count seg) ∅)
  | (OutOfBounds, _) => []
  end.

(** The turn for [seg] returns. *)
Definition indexable (seg : Segmented) : Prop :=
  fst (index_image ∅ seg) = Returned.

(** Two matrices hold the same elements at the positions of [grid]. *)
Definition same_on_grid {A B} (grid : Mat B) (m1 m2 : Mat A) : Prop :=
  forall row col, (row < rows grid)%nat -> (col < cols grid)%nat ->
    mat_at m1 row col = mat_at m2 row col.

(** The query shows the pixels and the segmentation of [seg]: the label
    matrices have the same dimensions and elements, the images the same
    pixels there, and the numbers of superpixels agree. *)
Definition same_picture (query seg : Segmented) : Prop :=
  rows (seg_labels query) = rows (seg_labels seg) /\
  cols (seg_labels query) = cols (seg_labels seg) /\
  seg_count query = seg_count seg /\
  same_on_grid (seg_labels seg) (seg_labels query) (seg_labels seg) /\
  same_on_grid (seg_labels seg) (seg_image query) (seg_image seg).

(** The records of an array that have pixels. *)
Definition occupied (queries : list HashKey) : list HashKey :=
  filter (fun q => pixel_count q <> 0) queries.

(** ** A small database

    The picture of [Scenario.image_A] in a second object at a lower
    address, a query that shows the same picture, and expected counts that
    are not the true ones. *)
Module Database.

Import Scenario.

Definition seg_A : Segmented := mkSegmented image_A labels_A 2.

Definition image_B : Mat Vec3b :=
  mkMat 50%N 4 4 (fun row _ => if (row <? 2)%nat then gray 10 else gray 200).

Definition labels_B : Mat Z :=
  mkMat 60%N 4 4 (fun row _ => if (row <? 2)%nat then 0 else 1).

Definition seg_B : Segmented := mkSegmented image_B labels_B 2.

Definition query_image : Mat Vec3b :=
  mkMat 900%N 4 4 (fun row _ => if (row <? 2)%nat then gray 10 else gray 200).

Definition query_labels : Mat Z :=
  mkMat 901%N 4 4 (fun row _ => if (row <? 2)%nat then 0 else 1).

Definition query_A : Segmented := mkSegmented query_image query_labels 2.

Definition table_of (database : list Segmented) : gmap Z (list HashKey) :=
  snd (build_index database ∅).

Definition queries_of (query : Segmented) : list HashKey :=
  snd (build_query (seg_image query) (seg_labels query) (seg_count query)).

(** Three cells expected of the upper region, which has eight, and nine of
    the lower one, which has eight. *)
Definition counts_short : list Z := [3; 9].

End Database.

(** ** The vector [database_images]

    [std::vector<Mat> database_images(input_count)] (line 159): the images
    of the database are the elements of one array, and [Hash] is handed
    [database_images[i]] (line 204).  The address that the records of the
    [i]-th picture carry is therefore fixed by its position, [base + i *
    stride] for the start [base] of the array and the size [stride] of an
    element, whatever picture is read into it. *)
Definition slot_address (base stride : N) (i : nat) : N :=
  (base + stride * N.of_nat i)%N.

(** The picture of [seg] in the object at [addr]. *)
Definition at_address (addr : N) (seg : Segmented) : Segmented :=
  mkSegmented
    (mkMat addr (rows (seg_image seg)) (cols (seg_image seg)) (mat_at (seg_image seg)))
    (seg_labels seg) (seg_count seg).

(** The database after the pictures [pictures] are read, in this order,
    into the elements of the vector. *)
Definition load_database (base stride : N) (pictures : list Segmented) : list Segmented :=
  imap (fun i seg => at_address (slot_address base stride i) seg) pictures.

(** The database loop of [main] on these pictures, from the empty table
    of a new [SLICHashTable]. *)
Definition main_index (base stride : N) (pictures : list Segmented)
    : status * gmap Z (list HashKey) :=
  build_index (load_database base stride pictures) ∅.

(** The votes that a query record casts for a picture: none when its key
    is the sentinel, else one for each record that indexing the picture
    files under that key. *)
Definition picture_votes (seg : Segmented) (query : HashKey) : Z :=
  if calculate_hash_key query =? sentinel then 0
  else Z.of_nat (length (inserted_under (calculate_hash_key query) (index_insertions seg))).

(** Two insertions for the same region under the same key, of records with
    the same statistics. *)
Definition same_insertion (i1 i2 : Z * Z * HashKey) : Prop :=
  fst i1 = fst i2 /\ same_stats (snd i1) (snd i2).

(** A picture other than that of [Database.seg_A] whose regions fall into
    the same buckets, and the vector of [main] at address 1000 with
    elements of 96 bytes. *)
Module Vector.

Import Scenario Database.

Definition image_C : Mat Vec3b :=
  mkMat 70%N 4 4 (fun row _ => if (row <? 2)%nat then gray 11 else gray 201).

Definition seg_C : Segmented := mkSegmented image_C labels_A 2.

Definition base : N := 1000.
Definition stride : N := 96.

Definition table_AC : gmap Z (list HashKey) := snd (main_index base stride [seg_A; seg_C]).
Definition table_CA : gmap Z (list HashKey) := snd (main_index base stride [seg_C; seg_A]).

End Vector.

(** * Properties of the float arithmetic *)

Section Magnitude.

Import Float32.

(** The number of binary digits of a positive number. *)
Lemma digits2_pos_bounds (p : positive) :
  2 ^ (Zpos (digits2_pos p) - 1) <= Zpos p < 2 ^ Zpos (digits2_pos p).
Proof.
  induction p as [p IH|p IH|]; simpl digits2_pos.
  - rewrite Pos2Z.inj_succ.
    replace (Z.succ (Zpos (digits2_pos p)) - 1) with (Z.succ (Zpos (digits2_pos p) - 1)) by lia.
    rewrite !Z.pow_succ_r by lia. lia.
  - rewrite Pos2Z.inj_succ.
    replace (Z.succ (Zpos (digits2_pos p)) - 1) with (Z.succ (Zpos (digits2_pos p) - 1)) by lia.
    rewrite !Z.pow_succ_r by lia. lia.
  - simpl. lia.
Qed.

Lemma Zdigits2_bounds (m : Z) :
  0 < m -> 2 ^ (Zdigits2 m - 1) <= m < 2 ^ Zdigits2 m.
Proof. destruct m as [|p|p]; try lia. intros _. apply digits2_pos_bounds. Qed.

Lemma Zdigits2_pos (m : Z) : 0 < m -> 0 < Zdigits2 m.
Proof. destruct m; simpl; lia. Qed.

Lemma Zdigits2_unique (m k : Z) :
  0 < m -> 2 ^ (k - 1) <= m < 2 ^ k -> Zdigits2 m = k.
Proof.
  intros Hm [H1 H2]. pose proof (Zdigits2_bounds m Hm) as [H3 H4].
  pose proof (Zdigits2_pos m Hm) as Hd.
  assert (0 < k).
  { destruct (Z_lt_le_dec 0 k); [assumption|].
    assert (2 ^ k <= 1); [|lia].
    destruct (Z.eq_dec k 0) as [->|]; [simpl; lia|].
    rewrite Z.pow_neg_r by lia. lia. }
  destruct (Z_lt_le_dec (Zdigits2 m) k) as [Hlt|Hge].
  - assert (2 ^ Zdigits2 m <= 2 ^ (k - 1)) by (apply Z.pow_le_mono_r; lia). lia.
  - destruct (Z_lt_le_dec k (Zdigits2 m)) as [Hlt|Hle]; [|lia].
    assert (2 ^ k <= 2 ^ (Zdigits2 m - 1)) by (apply Z.pow_le_mono_r; lia). lia.
Qed.

Lemma fexp_normal (e : Z) : -125 <= e -> fexp prec emax e = e - 24.
Proof. unfold fexp, emin, prec, emax. lia. Qed.

Lemma shr_record_of_loc_m (m : Z) (l : location) : shr_m (shr_record_of_loc m l) = m.
Proof. destruct l as [|[]]; reflexivity. Qed.

Lemma round_nearest_even_cases (m : Z) (l : location) :
  round_nearest_even m l = m \/ round_nearest_even m l = m + 1.
Proof.
  unfold round_nearest_even. destruct l as [|[]]; auto.
  destruct (Z.even m); auto.
Qed.

Lemma iter_xO (d m : positive) : Zpos (Pos.iter xO m d) = Zpos m * 2 ^ Zpos d.
Proof.
  induction d as [|d IH] using Pos.peano_ind.
  - simpl. lia.
  - rewrite Pos.iter_succ, Pos2Z.inj_xO, IH, Pos2Z.inj_succ, Z.pow_succ_r by lia. lia.
Qed.

Lemma Zdigits2_le (z k : Z) : z <> 0 -> - 2 ^ k < z < 2 ^ k -> Zdigits2 z <= k.
Proof.
  intros Hz Hk.
  assert (G : forall p : positive, Zpos p < 2 ^ k -> Zpos (digits2_pos p) <= k).
  { intros p Hp. pose proof (digits2_pos_bounds p) as [B1 _].
    destruct (Z_lt_le_dec k (Zpos (digits2_pos p))) as [Hlt|]; [|lia].
    assert (0 <= k).
    { destruct (Z_lt_le_dec k 0); [|lia]. rewrite Z.pow_neg_r in Hp by lia. lia. }
    assert (2 ^ k <= 2 ^ (Zpos (digits2_pos p) - 1)) by (apply Z.pow_le_mono_r; lia).
    lia. }
  destruct z as [|p|p]; [contradiction| |]; simpl; apply G; lia.
Qed.

(** ** Where the arithmetic is exact *)

(** A mantissa of 24 digits with nothing lost is kept as it is. *)
Lemma binary_round_aux_exact (s : bool) (m : positive) (e : Z) :
  Zpos (digits2_pos m) = 24 -> -149 <= e <= 104 ->
  binary_round_aux prec emax s (Zpos m) e loc_Exact = S754_finite s m e.
Proof.
  intros Dm He. unfold binary_round_aux, shr_fexp. cbn [Zdigits2]. rewrite Dm.
  rewrite fexp_normal by lia.
  replace (24 + e - 24 - e) with 0 by lia. cbn [shr shr_record_of_loc shr_m
    loc_of_shr_record round_nearest_even Zdigits2].
  rewrite Dm, fexp_normal by lia.
  replace (24 + e - 24 - e) with 0 by lia. cbn [shr shr_record_of_loc shr_m].
  assert (Hle : (e <=? emax - prec) = true) by (apply Z.leb_le; unfold emax, prec; lia).
  rewrite Hle. reflexivity.
Qed.

(** The last step of a rounding: a mantissa between [2^23] and [2^24]
    inclusive is stored with its value. *)
Lemma finish_round (s : bool) (m1 e : Z) :
  2 ^ 23 <= m1 <= 2 ^ 24 -> -149 <= e <= 100 ->
  exists m e',
    (let '(mrs, e'') := shr_fexp prec emax m1 e loc_Exact in
     match shr_m mrs with
     | Z0 => S754_zero s
     | Zpos m => if e'' <=? emax - prec then S754_finite s m e'' else S754_infinity s
     | Zneg _ => S754_nan
     end) = S754_finite s m e' /\
    Zpos (digits2_pos m) = 24 /\ e <= e' <= e + 1 /\ Zpos m * 2 ^ (e' - e) = m1.
Proof.
  intros Hm He. destruct (Z.eq_dec m1 (2 ^ 24)) as [->|Ntop].
  - exists (8388608%positive), (e + 1).
    unfold shr_fexp. change (Zdigits2 (2 ^ 24)) with 25.
    rewrite fexp_normal by lia. replace (25 + e - 24 - e) with 1 by lia.
    cbn. assert (Hle : (e + 1 <=? emax - prec) = true)
      by (apply Z.leb_le; unfold emax, prec; lia).
    rewrite Hle. split; [reflexivity|]. split; [reflexivity|]. split; [lia|].
    replace (e + 1 - e) with 1 by lia. reflexivity.
  - destruct m1 as [|m|m]; try lia.
    assert (Dm : Zpos (digits2_pos m) = 24).
    { change (Zpos (digits2_pos m)) with (Zdigits2 (Zpos m)).
      apply Zdigits2_unique; [lia|]. change (24 - 1) with 23. lia. }
    exists m, e. split; [|split; [exact Dm|split; [lia|rewrite Z.sub_diag; simpl; lia]]].
    unfold shr_fexp. cbn [Zdigits2]. rewrite Dm, fexp_normal by lia.
    replace (24 + e - 24 - e) with 0 by lia. cbn [shr shr_record_of_loc shr_m].
    assert (Hle : (e <=? emax - prec) = true) by (apply Z.leb_le; unfold emax, prec; lia).
    rewrite Hle. reflexivity.
Qed.

(** Rounding a mantissa of 24 or 25 digits: the result, in units of the
    argument's last place, lies between the mantissa without its last bit
    and the mantissa plus one. *)
Lemma round_bracket (s : bool) (q e : Z) (l : location) :
  2 ^ 23 <= q < 2 ^ 25 -> -149 <= e <= 90 ->
  exists m e',
    binary_round_aux prec emax s q e l = S754_finite s m e' /\
    Zpos (digits2_pos m) = 24 /\ e <= e' <= e + 2 /\
    2 * (q / 2) <= Zpos m * 2 ^ (e' - e) <= q + 1.
Proof.
  intros Hq He. unfold binary_round_aux.
  destruct (Z_lt_le_dec q (2 ^ 24)) as [Hlt|Hge].
  - (* 24 digits: no shift *)
    assert (Dq : Zdigits2 q = 24).
    { apply Zdigits2_unique; [lia|]. change (24 - 1) with 23. lia. }
    unfold shr_fexp at 1. rewrite Dq, fexp_normal by lia.
    replace (24 + e - 24 - e) with 0 by lia. cbn [shr].
    set (m1 := round_nearest_even (shr_m (shr_record_of_loc q l))
                 (loc_of_shr_record (shr_record_of_loc q l))).
    assert (Hm1 : m1 = q \/ m1 = q + 1).
    { unfold m1. rewrite shr_record_of_loc_m. apply round_nearest_even_cases. }
    destruct (finish_round s m1 e ltac:(lia) ltac:(lia)) as (m & e' & E & Dm & He' & Hv).
    exists m, e'. split; [exact E|]. split; [exact Dm|]. split; [lia|].
    rewrite Hv. pose proof (Z.mul_div_le q 2 ltac:(lia)). lia.
  - (* 25 digits: one bit is shifted out *)
    assert (Dq : Zdigits2 q = 25).
    { apply Zdigits2_unique; [lia|]. change (25 - 1) with 24. lia. }
    unfold shr_fexp at 1. rewrite Dq, fexp_normal by lia.
    replace (25 + e - 24 - e) with 1 by lia. cbn [shr SpecFloat.iter_pos].
    set (m1 := round_nearest_even (shr_m (shr_1 (shr_record_of_loc q l)))
                 (loc_of_shr_record (shr_1 (shr_record_of_loc q l)))).
    assert (Hm1 : 2 * (q / 2) <= 2 * m1 <= q + 1 /\ q / 2 <= m1 <= q / 2 + 1).
    { unfold m1. destruct q as [|p|p]; try lia.
      destruct p as [p|p|]; [| |lia].
      - assert (E : Zpos p~1 / 2 = Zpos p)
          by (symmetry; apply (Z.div_unique _ _ _ 1); lia).
        rewrite E.
        destruct l as [|[]]; cbn [shr_record_of_loc shr_1 shr_m shr_r shr_s orb
                                    loc_of_shr_record round_nearest_even];
          try destruct (Z.even (Zpos p)); lia.
      - assert (E : Zpos p~0 / 2 = Zpos p)
          by (symmetry; apply (Z.div_unique _ _ _ 0); lia).
        rewrite E.
        destruct l as [|[]]; cbn [shr_record_of_loc shr_1 shr_m shr_r shr_s orb
                                    loc_of_shr_record round_nearest_even]; lia. }
    assert (Hq2 : 2 ^ 23 <= q / 2 < 2 ^ 24).
    { split; [apply Z.div_le_lower_bound; lia|apply Z.div_lt_upper_bound; lia]. }
    destruct (finish_round s m1 (e + 1) ltac:(lia) ltac:(lia))
      as (m & e' & E & Dm & He' & Hv).
    exists m, e'. split; [exact E|]. split; [exact Dm|]. split; [lia|].
    replace (e' - e) with (e' - (e + 1) + 1) by lia.
    rewrite Z.pow_add_r by lia. change (2 ^ 1) with 2. lia.
Qed.


(** The conversion of a positive integer below [2^24] loses nothing. *)
Lemma of_Z_exact (z : Z) :
  0 < z < 2 ^ 24 ->
  exists m e,
    of_Z z = S754_finite false m e /\ Zpos (digits2_pos m) = 24 /\
    -23 <= e <= 0 /\ Zpos m = z * 2 ^ (- e).
Proof.
  intros Hz. destruct z as [|p|p]; try lia.
  unfold of_Z, binary_normalize, binary_round.
  pose proof (digits2_pos_bounds p) as [B1 B2].
  assert (Dp : Zpos (digits2_pos p) <= 24).
  { change (Zpos (digits2_pos p)) with (Zdigits2 (Zpos p)). apply Zdigits2_le; lia. }
  rewrite Z.add_0_r, fexp_normal by lia.
  unfold shl_align. rewrite Z.sub_0_r.
  destruct (Zpos (digits2_pos p) - 24) as [|q|q] eqn:Eq; try lia.
  - exists p, 0. rewrite binary_round_aux_exact by lia.
    split; [reflexivity|]. split; [lia|]. split; [lia|]. simpl. lia.
  - assert (Dq : Zpos (digits2_pos (Pos.iter xO p q)) = 24).
    { change (Zpos (digits2_pos (Pos.iter xO p q)))
        with (Zdigits2 (Zpos (Pos.iter xO p q))).
      apply Zdigits2_unique; [lia|]. rewrite iter_xO. change (24 - 1) with 23.
      assert (P23 : 2 ^ 23 = 2 ^ (Zpos (digits2_pos p) - 1) * 2 ^ Zpos q)
        by (rewrite <- Z.pow_add_r by lia; f_equal; lia).
      assert (P24 : 2 ^ 24 = 2 ^ Zpos (digits2_pos p) * 2 ^ Zpos q)
        by (rewrite <- Z.pow_add_r by lia; f_equal; lia).
      rewrite P23, P24.
      assert (0 < 2 ^ Zpos q) by (apply Z.pow_pos_nonneg; lia).
      split; nia. }
    exists (Pos.iter xO p q), (Zneg q). rewrite binary_round_aux_exact by lia.
    split; [reflexivity|]. split; [exact Dq|]. split; [lia|].
    rewrite iter_xO. reflexivity.
Qed.

(** The quotient of two numbers with 24 digits, in units of its last
    place. *)
Lemma div_bracket (sx sy : bool) (mx my : positive) (ex ey : Z) :
  Zpos (digits2_pos mx) = 24 -> Zpos (digits2_pos my) = 24 ->
  -100 <= ex - ey <= 100 ->
  exists m e,
    div (S754_finite sx mx ex) (S754_finite sy my ey) = S754_finite (xorb sx sy) m e /\
    Zpos (digits2_pos m) = 24 /\
    ex - ey - 24 <= e <= ex - ey - 22 /\
    2 * (Zpos mx * 2 ^ 24 / Zpos my / 2)
    <= Zpos m * 2 ^ (e - (ex - ey - 24))
    <= Zpos mx * 2 ^ 24 / Zpos my + 1.
Proof.
  intros Dx Dy HM.
  unfold div, SFdiv, SFdiv_core_binary.
  cbn [Zdigits2]. rewrite Dx, Dy.
  rewrite fexp_normal by lia.
  replace (Z.min (24 + ex - (24 + ey) - 24) (ex - ey)) with (ex - ey - 24) by lia.
  replace (ex - ey - (ex - ey - 24)) with 24 by lia.
  rewrite Z.shiftl_mul_pow2 by lia.
  pose proof (digits2_pos_bounds mx) as [X1 X2]. pose proof (digits2_pos_bounds my) as [Y1 Y2].
  rewrite Dx in X1, X2. rewrite Dy in Y1, Y2. change (24 - 1) with 23 in *.
  assert (Eq : Zpos mx * 2 ^ 24 / Zpos my
               = fst (Z.div_eucl (Zpos mx * 2 ^ 24) (Zpos my))) by reflexivity.
  rewrite Eq.
  pose proof (Z_div_mod (Zpos mx * 2 ^ 24) (Zpos my) ltac:(lia)) as Hdm.
  destruct (Z.div_eucl (Zpos mx * 2 ^ 24) (Zpos my)) as [q r].
  destruct Hdm as [Hq Hr]. cbn [fst].
  assert (Bq : 2 ^ 23 <= q < 2 ^ 25).
  { split.
    - assert (2 ^ 23 - 1 < q); [|lia].
      apply Z.mul_lt_mono_pos_l with (p := Zpos my); [lia|].
      nia.
    - apply Z.mul_lt_mono_pos_l with (p := Zpos my); [lia|]. nia. }
  destruct (round_bracket (xorb sx sy) q (ex - ey - 24) (new_location (Zpos my) r)
              Bq ltac:(lia)) as (m & e & E & Dm & He & Hv).
  exists m, e. split; [exact E|]. split; [exact Dm|]. split; [lia|exact Hv].
Qed.

(** Doubling a mantissa of 24 digits: the rounding shifts the zero bit out
    again. *)
Lemma binary_round_aux_double (s : bool) (m : positive) (e : Z) :
  Zpos (digits2_pos m) = 24 -> -149 <= e <= 100 ->
  binary_round_aux prec emax s (Zpos m~0) e loc_Exact = S754_finite s m (e + 1).
Proof.
  intros Dm He. unfold binary_round_aux.
  assert (D2 : Zdigits2 (Zpos m~0) = 25).
  { cbn [Zdigits2 digits2_pos]. rewrite Pos2Z.inj_succ, Dm. reflexivity. }
  unfold shr_fexp at 1. rewrite D2, fexp_normal by lia.
  replace (25 + e - 24 - e) with 1 by lia.
  cbn [shr SpecFloat.iter_pos shr_record_of_loc shr_1 shr_m orb loc_of_shr_record
       round_nearest_even].
  unfold shr_fexp. cbn [Zdigits2]. rewrite Dm, fexp_normal by lia.
  replace (24 + (e + 1) - 24 - (e + 1)) with 0 by lia. cbn [shr shr_record_of_loc shr_m].
  assert (Hle : (e + 1 <=? emax - prec) = true)
    by (apply Z.leb_le; unfold emax, prec; lia).
  rewrite Hle. reflexivity.
Qed.

(** Dividing by 16 only lowers the exponent. *)
Lemma div_16_exact (s : bool) (m : positive) (e : Z) :
  Zpos (digits2_pos m) = 24 -> -100 <= e <= 100 ->
  div (S754_finite s m e) (of_Z 16) = S754_finite s m (e - 4).
Proof.
  intros Dm He.
  assert (E16 : of_Z 16 = S754_finite false 8388608 (-19)) by (vm_compute; reflexivity).
  rewrite E16. unfold div, SFdiv, SFdiv_core_binary.
  cbn [Zdigits2]. rewrite Dm. change (Zpos (digits2_pos 8388608)) with 24.
  rewrite fexp_normal by lia.
  replace (Z.min (24 + e - (24 + -19) - 24) (e - -19)) with (e - 5) by lia.
  replace (e - -19 - (e - 5)) with 24 by lia.
  rewrite Z.shiftl_mul_pow2 by lia.
  pose proof (Z_div_mod (Zpos m * 2 ^ 24) (Zpos 8388608) ltac:(lia)) as Hdm.
  destruct (Z.div_eucl (Zpos m * 2 ^ 24) (Zpos 8388608)) as [q r].
  destruct Hdm as [Hq Hr].
  assert (Er : r = 0) by lia. assert (Eq : q = Zpos m~0) by lia. subst q r.
  change (new_location (Zpos 8388608) 0) with loc_Exact.
  rewrite xorb_false_r, binary_round_aux_double by lia.
  f_equal. lia.
Qed.

(** The integer part of a positive number. *)
Lemma trunc_shift (m : positive) (e e0 : Z) :
  e0 <= e -> e0 <= 4 ->
  trunc (S754_finite false m (e - 4))
  = Some (Zpos m * 2 ^ (e - e0) / 2 ^ (4 - e0)).
Proof.
  intros H1 H2. cbn [trunc]. f_equal.
  assert (0 < 2 ^ (4 - e0)) by (apply Z.pow_pos_nonneg; lia).
  destruct (Z_lt_le_dec (e - 4) 0) as [Hneg|Hpos].
  - rewrite Z.shiftl_div_pow2 by lia.
    assert (0 < 2 ^ (e - e0)) by (apply Z.pow_pos_nonneg; lia).
    assert (E : 2 ^ (4 - e0) = 2 ^ (- (e - 4)) * 2 ^ (e - e0))
      by (rewrite <- Z.pow_add_r by lia; f_equal; lia).
    rewrite E, Z.div_mul_cancel_r by lia. reflexivity.
  - rewrite Z.shiftl_mul_pow2 by lia.
    assert (E : 2 ^ (e - e0) = 2 ^ (e - 4) * 2 ^ (4 - e0))
      by (rewrite <- Z.pow_add_r by lia; f_equal; lia).
    rewrite E, Z.mul_assoc, Z.div_mul by lia. reflexivity.
Qed.

(** A colour bucket on sums below [2^24]: the conversions, the two
    divisions and the truncation of the source give the integer quotient
    of the sum by 16 times the count. *)
Lemma color_bucket_exact (total count : Z) :
  0 <= total < 2 ^ 24 -> 0 < count < 2 ^ 24 ->
  to_int (div (div (of_Z total) (of_Z count)) (of_Z 16)) = total / (16 * count).
Proof.
  intros Ht Hc.
  destruct (of_Z_exact count Hc) as (mc & ec & Ec & Dc & Bc & Vc).
  assert (H16 : of_Z 16 = S754_finite false 8388608 (-19)) by (vm_compute; reflexivity).
  destruct (Z.eq_dec total 0) as [->|Nz].
  - rewrite Ec, H16. cbn. reflexivity.
  - destruct (of_Z_exact total ltac:(lia)) as (mt & et & Et & Dt & Bt & Vt).
    rewrite Et, Ec.
    destruct (div_bracket false false mt mc et ec Dt Dc ltac:(lia))
      as (m & e & E & Dm & He & Hv).
    rewrite E. cbn [xorb]. rewrite div_16_exact by (assumption || lia).
    remember (et - ec - 24) as e0 eqn:Ee0.
    unfold to_int. rewrite (trunc_shift m e e0) by lia.
    remember (Zpos m * 2 ^ (e - e0)) as R eqn:ER.
    remember (Zpos mt * 2 ^ 24 / Zpos mc) as q eqn:Eq.
    set (k := total / (16 * count)).
    assert (Hk : 16 * count * k <= total < 16 * count * (k + 1)).
    { unfold k. pose proof (Z.mul_div_le total (16 * count) ltac:(lia)).
      pose proof (Z.mul_succ_div_gt total (16 * count) ltac:(lia)). lia. }
    assert (Hk0 : 0 <= k) by (apply Z.div_pos; lia).
    assert (Hk1 : k <= total).
    { unfold k. apply Z.div_le_upper_bound; [lia|]. nia. }
    (* numerator [total * S] over denominator [D]; one bucket is [W] units *)
    remember (2 ^ (24 - et)) as S eqn:ES.
    remember (2 ^ (3 - e0)) as W2 eqn:EW2.
    assert (HS : 2 ^ 24 <= S) by (subst S; apply Z.pow_le_mono_r; lia).
    assert (HW2 : 0 < W2) by (subst W2; apply Z.pow_pos_nonneg; lia).
    assert (EW : 2 ^ (4 - e0) = 2 * W2).
    { subst W2. replace (4 - e0) with (Z.succ (3 - e0)) by lia.
      rewrite Z.pow_succ_r by lia. reflexivity. }
    assert (EA : Zpos mt * 2 ^ 24 = total * S).
    { rewrite Vt. subst S. rewrite <- Z.mul_assoc, <- Z.pow_add_r by lia.
      do 2 f_equal. lia. }
    pose proof (digits2_pos_bounds mc) as [_ HD]. rewrite Dc in HD.
    assert (ED : 2 * W2 * Zpos mc = 16 * count * S).
    { rewrite <- EW, Vc. subst S.
      replace (2 ^ (4 - e0) * (count * 2 ^ (- ec)))
        with (count * (2 ^ (4 - e0) * 2 ^ (- ec))) by lia.
      rewrite <- Z.pow_add_r by lia.
      replace (16 * count * 2 ^ (24 - et)) with (count * (2 ^ 4 * 2 ^ (24 - et))) by lia.
      rewrite <- Z.pow_add_r by lia. do 2 f_equal. lia. }
    rewrite EA in Eq. rewrite EW.
    assert (Hq1 : q * Zpos mc <= total * S).
    { subst q. rewrite Z.mul_comm. apply Z.mul_div_le. lia. }
    assert (Hq2 : k * (2 * W2) <= q).
    { subst q. apply Z.div_le_lower_bound; [lia|]. nia. }
    assert (Hq3 : k * W2 <= q / 2).
    { apply Z.div_le_lower_bound; lia. }
    assert (Hq4 : q + 1 < (k + 1) * (2 * W2)).
    { apply Z.mul_lt_mono_pos_r with (p := Zpos mc); [lia|]. nia. }
    assert (ERk : R / (2 * W2) = k).
    { symmetry. apply (Z.div_unique R (2 * W2) k (R - k * (2 * W2))); lia. }
    rewrite ERk.
    assert (Hint : (INT_MIN <=? k) && (k <=? INT_MAX) = true).
    { apply andb_true_iff. split; apply Z.leb_le; unfold INT_MIN, INT_MAX; lia. }
    rewrite Hint. reflexivity.
Qed.

End Magnitude.

(** * Properties of the key *)

Section KeyFacts.

Lemma wrap_signed_small bits x :
  0 < bits -> - 2 ^ (bits - 1) <= x < 2 ^ (bits - 1) -> wrap_signed bits x = x.
Proof.
  intros Hb Hx. unfold wrap_signed.
  assert (E : 2 ^ bits = 2 * 2 ^ (bits - 1)).
  { replace bits with (Z.succ (bits - 1)) at 1 by lia.
    rewrite Z.pow_succ_r by lia. reflexivity. }
  rewrite Z.mod_small by lia. lia.
Qed.

Lemma int_add_small a b : is_int (a + b) -> int_add a b = a + b.
Proof.
  unfold is_int, INT_MIN, INT_MAX, int_add. intros H.
  apply wrap_signed_small; [lia|]. change (32 - 1) with 31. lia.
Qed.

Lemma int_mul_small a b : is_int (a * b) -> int_mul a b = a * b.
Proof.
  unfold is_int, INT_MIN, INT_MAX, int_mul. intros H.
  apply wrap_signed_small; [lia|]. change (32 - 1) with 31. lia.
Qed.

Lemma clamp_bucket_range bucket dim :
  0 < dim -> 0 <= clamp_bucket bucket dim <= dim - 1.
Proof. unfold clamp_bucket. lia. Qed.

(** The multiply-and-add chain of the source never leaves [int]. *)
Lemma hash_chain_exact l a b x y :
  0 <= l <= 15 -> 0 <= a <= 15 -> 0 <= b <= 15 -> 0 <= x <= 9 -> 0 <= y <= 9 ->
  int_add (int_mul (int_add (int_mul (int_add (int_mul (int_add (int_mul
    l 16) a) 16) b) 10) x) 10) y
  = (((l * 16 + a) * 16 + b) * 10 + x) * 10 + y.
Proof.
  intros Hl Ha Hb Hx Hy.
  assert (I : forall v, 0 <= v <= 1000000 -> is_int v).
  { intros v Hv. unfold is_int, INT_MIN, INT_MAX. lia. }
  rewrite (int_mul_small l 16) by (apply I; lia).
  rewrite (int_add_small (l * 16) a) by (apply I; lia).
  rewrite (int_mul_small (l * 16 + a) 16) by (apply I; lia).
  rewrite (int_add_small ((l * 16 + a) * 16) b) by (apply I; lia).
  rewrite (int_mul_small ((l * 16 + a) * 16 + b) 10) by (apply I; lia).
  rewrite (int_add_small (((l * 16 + a) * 16 + b) * 10) x) by (apply I; lia).
  rewrite (int_mul_small (((l * 16 + a) * 16 + b) * 10 + x) 10) by (apply I; lia).
  rewrite (int_add_small ((((l * 16 + a) * 16 + b) * 10 + x) * 10) y) by (apply I; lia).
  reflexivity.
Qed.

(** The integer part of the exact quotient of a fraction by a width. *)
Lemma Qfloor_div_Z (n d w : Z) :
  0 < d -> 0 < w ->
  Qfloor (Qdiv (Qdiv (inject_Z n) (inject_Z d)) (inject_Z w)) = n / (w * d).
Proof.
  intros Hd Hw. destruct d as [|d|d]; try lia. destruct w as [|w|w]; try lia.
  unfold Qdiv, Qinv, Qmult, inject_Z, Qfloor. cbn [Qnum Qden].
  f_equal; lia.
Qed.

(** The clamp of the specification is the clamp of the source. *)
Lemma bucket_index_clamp (v : Q) (w c : Z) :
  0 < c ->
  KeySpec.bucket_index (KeySpec.mkAxis v w c)
  = clamp_bucket (KeySpec.quotient (KeySpec.mkAxis v w c)) c.
Proof.
  intros Hc. unfold KeySpec.bucket_index, clamp_bucket. cbn [KeySpec.axis_count].
  generalize (KeySpec.quotient (KeySpec.mkAxis v w c)). intros q.
  destruct (Z.ltb_spec q 0); destruct (Z.ltb_spec (c - 1) q); lia.
Qed.

(** The bucket index of a colour axis, as the specification words it. *)
Lemma average_bucket_index (total count : Z) :
  0 < count ->
  KeySpec.bucket_index (KeySpec.mkAxis (KeySpec.average total count) (256 / 16) 16)
  = clamp_bucket (total / (16 * count)) 16.
Proof.
  intros Hc. rewrite bucket_index_clamp by lia. f_equal.
  unfold KeySpec.quotient, KeySpec.average. cbn [KeySpec.axis_value KeySpec.axis_width].
  apply Qfloor_div_Z; [exact Hc|reflexivity].
Qed.

(** The bucket index of a spatial axis, as the specification words it. *)
Lemma midpoint_bucket_index (range : Z * Z) (w c : Z) :
  0 < w -> 0 < c ->
  KeySpec.bucket_index (KeySpec.mkAxis (KeySpec.midpoint range) w c)
  = clamp_bucket ((fst range + snd range) / (2 * w)) c.
Proof.
  intros Hw Hc. rewrite bucket_index_clamp by lia. f_equal.
  unfold KeySpec.quotient, KeySpec.midpoint. cbn [KeySpec.axis_value KeySpec.axis_width].
  rewrite Qfloor_div_Z by lia. f_equal. lia.
Qed.

(** On the reference resolution the float arithmetic of the spatial axes
    is exact: the bucket is the integer quotient of the coordinate sum. *)
Lemma midpoint_quotient_x n :
  0 <= n <= 2 * (max_img_w - 1) -> midpoint_quotient_exact x_bucket_size n = true.
Proof.
  intros Hn.
  assert (G : forallb (midpoint_quotient_exact x_bucket_size)
                (map Z.of_nat (seq 0 (Z.to_nat (2 * max_img_w - 1)))) = true)
    by (vm_compute; reflexivity).
  rewrite forallb_forall in G. apply G.
  apply in_map_iff. exists (Z.to_nat n). split; [lia|].
  apply in_seq. unfold max_img_w in *. lia.
Qed.

Lemma midpoint_quotient_y n :
  0 <= n <= 2 * (max_img_h - 1) -> midpoint_quotient_exact y_bucket_size n = true.
Proof.
  intros Hn.
  assert (G : forallb (midpoint_quotient_exact y_bucket_size)
                (map Z.of_nat (seq 0 (Z.to_nat (2 * max_img_h - 1)))) = true)
    by (vm_compute; reflexivity).
  rewrite forallb_forall in G. apply G.
  apply in_map_iff. exists (Z.to_nat n). split; [lia|].
  apply in_seq. unfold max_img_h in *. lia.
Qed.

(** The spatial buckets of the source on the reference resolution. *)
Lemma spatial_bucket_x (n : Z) :
  0 <= n <= 2 * (max_img_w - 1) ->
  Float32.to_int
    (Float32.div (Float32.div (Float32.of_Z n) (Float32.of_Z 2)) (Float32.of_Z x_bucket_size))
  = n / (2 * x_bucket_size).
Proof.
  intros Hn. pose proof (midpoint_quotient_x n Hn) as E.
  unfold midpoint_quotient_exact in E. unfold Float32.to_int.
  destruct (Float32.trunc _) as [q|]; [|discriminate].
  apply Z.eqb_eq in E. subst q.
  change x_bucket_size with 384 in *. unfold max_img_w in Hn.
  assert (0 <= n / (2 * 384) <= 9).
  { split; [apply Z.div_pos; lia|]. apply Z.lt_succ_r, Z.div_lt_upper_bound; lia. }
  destruct (Z.leb_spec INT_MIN (n / (2 * 384))); [|unfold INT_MIN in *; lia].
  destruct (Z.leb_spec (n / (2 * 384)) INT_MAX); [|unfold INT_MAX in *; lia].
  reflexivity.
Qed.

Lemma spatial_bucket_y (n : Z) :
  0 <= n <= 2 * (max_img_h - 1) ->
  Float32.to_int
    (Float32.div (Float32.div (Float32.of_Z n) (Float32.of_Z 2)) (Float32.of_Z y_bucket_size))
  = n / (2 * y_bucket_size).
Proof.
  intros Hn. pose proof (midpoint_quotient_y n Hn) as E.
  unfold midpoint_quotient_exact in E. unfold Float32.to_int.
  destruct (Float32.trunc _) as [q|]; [|discriminate].
  apply Z.eqb_eq in E. subst q.
  change y_bucket_size with 216 in *. unfold max_img_h in Hn.
  assert (0 <= n / (2 * 216) <= 9).
  { split; [apply Z.div_pos; lia|]. apply Z.lt_succ_r, Z.div_lt_upper_bound; lia. }
  destruct (Z.leb_spec INT_MIN (n / (2 * 216))); [|unfold INT_MIN in *; lia].
  destruct (Z.leb_spec (n / (2 * 216)) INT_MAX); [|unfold INT_MAX in *; lia].
  reflexivity.
Qed.

End KeyFacts.

Section KeyTheorems.

(** The source's key, for a record with pixels, written over the clamped
    buckets without the wrap-around of [int]. *)
Lemma calculate_hash_key_nonzero key :
  pixel_count key <> 0 ->
  exists l a b x y,
    (0 <= l <= 15 /\ 0 <= a <= 15 /\ 0 <= b <= 15 /\ 0 <= x <= 9 /\ 0 <= y <= 9) /\
    calculate_hash_key key = (((l * 16 + a) * 16 + b) * 10 + x) * 10 + y.
Proof.
  intros Hpc. unfold calculate_hash_key.
  destruct (Z.eqb_spec (pixel_count key) 0) as [E|_]; [contradiction|].
  cbv zeta. change (dims_at 0) with 16. change (dims_at 1) with 16.
  change (dims_at 2) with 16. change (dims_at 3) with 10. change (dims_at 4) with 10.
  match goal with
  | |- context [int_add (int_mul (int_add (int_mul (int_add (int_mul (int_add
         (int_mul (clamp_bucket ?l _) _) (clamp_bucket ?a _)) _) (clamp_bucket ?b _)) _)
         (clamp_bucket ?x _)) _) (clamp_bucket ?y _)] =>
      pose proof (clamp_bucket_range l 16 ltac:(lia));
      pose proof (clamp_bucket_range a 16 ltac:(lia));
      pose proof (clamp_bucket_range b 16 ltac:(lia));
      pose proof (clamp_bucket_range x 10 ltac:(lia));
      pose proof (clamp_bucket_range y 10 ltac:(lia));
      exists (clamp_bucket l 16), (clamp_bucket a 16), (clamp_bucket b 16),
             (clamp_bucket x 10), (clamp_bucket y 10)
  end.
  split; [lia|]. apply hash_chain_exact; lia.
Qed.

(** C2. For every record the key of [calculate_hash_key] is the sentinel
    when [pixel_count] is 0 and otherwise lies in [[0, total_bucket_count)],
    where [total_bucket_count = 16*16*16*10*10 = 409600]; no condition on
    the colour sums or the bounding box is needed. *)
Theorem calculate_hash_key_range (key : HashKey) :
  total_bucket_count = 16 * 16 * 16 * 10 * 10 /\
  total_bucket_count = 409600 /\
  ((pixel_count key = 0 /\ calculate_hash_key key = sentinel) \/
   (pixel_count key <> 0 /\ 0 <= calculate_hash_key key < total_bucket_count)).
Proof.
  split; [reflexivity|]. split; [reflexivity|].
  destruct (Z.eq_dec (pixel_count key) 0) as [E|N].
  - left. split; [exact E|]. unfold calculate_hash_key. rewrite E. reflexivity.
  - right. split; [exact N|].
    destruct (calculate_hash_key_nonzero key N) as (l & a & b & x & y & Hr & ->).
    change total_bucket_count with 409600. lia.
Qed.

(** On the records of [KeySpec.exact_on] the source's key is the key as
    the specification words it, with exact quotients. *)
Lemma calculate_hash_key_exact (key : HashKey) :
  KeySpec.exact_on key ->
  calculate_hash_key key = KeySpec.bucket_key key.
Proof.
  intros (Hp & Hl & Ha & Hb & Hx1 & Hx2 & Hy1 & Hy2).
  unfold KeySpec.bucket_key, KeySpec.mixed_radix, KeySpec.axes.
  cbn [fold_left KeySpec.axis_count].
  rewrite !average_bucket_index by lia.
  rewrite !midpoint_bucket_index by reflexivity.
  change (3840 / 10) with 384. change (2160 / 10) with 216.
  unfold calculate_hash_key.
  destruct (Z.eqb_spec (pixel_count key) 0) as [E|_]; [lia|].
  cbv zeta. change (dims_at 0) with 16. change (dims_at 1) with 16.
  change (dims_at 2) with 16. change (dims_at 3) with 10. change (dims_at 4) with 10.
  change lab_bucket_size with 16.
  rewrite !color_bucket_exact by assumption.
  rewrite (int_add_small (fst (x_range key)) (snd (x_range key)))
    by (unfold is_int, INT_MIN, INT_MAX; lia).
  rewrite (int_add_small (fst (y_range key)) (snd (y_range key)))
    by (unfold is_int, INT_MIN, INT_MAX; lia).
  rewrite spatial_bucket_x by (unfold max_img_w; lia).
  rewrite spatial_bucket_y by (unfold max_img_h; lia).
  change x_bucket_size with 384. change y_bucket_size with 216.
  rewrite hash_chain_exact by (apply (clamp_bucket_range _ 16); lia) ||
                              (apply (clamp_bucket_range _ 10); lia).
  lia.
Qed.

(** C1, as amended.  For every record with [pixel_count > 0] whose pixel
    count and three colour sums are below [2^24] and whose bounding box
    lies inside the reference resolution, the key of [calculate_hash_key]
    is the mixed-radix combination, in the order colour 1, colour 2,
    colour 3, spatial x, spatial y, of the five bucket indices; each index
    is the axis value divided by the axis's bucket width, as an exact
    fraction rounded down, and clamped into [[0, count - 1]]; the spatial
    values are the midpoints of the bounding box and their widths are those
    of the reference resolution 3840 x 2160, a tenth of each side, whatever
    the dimensions of the image.  Beyond these bounds the single-precision
    division of the source can give the bucket next to the exact one. *)
Theorem calculate_hash_key_mixed_radix (key : HashKey) :
  KeySpec.exact_on key ->
  calculate_hash_key key = KeySpec.bucket_key key.
Proof. exact (calculate_hash_key_exact key). Qed.

End KeyTheorems.

(** * Properties of the aggregation pass *)

Section ArrayFacts.

Context {A : Type}.
Implicit Types (a : list A) (i j : Z).

Lemma array_get_Some a i x :
  array_get a i = Some x -> 0 <= i /\ (Z.to_nat i < length a)%nat.
Proof.
  unfold array_get. destruct (Z.ltb_spec i 0); [discriminate|].
  intros H'. split; [lia|]. eapply lookup_lt_Some; eassumption.
Qed.

Lemma array_get_in_range a i :
  0 <= i < Z.of_nat (length a) -> exists x, array_get a i = Some x.
Proof.
  intros Hi. unfold array_get. destruct (Z.ltb_spec i 0); [lia|].
  destruct (lookup_lt_is_Some_2 a (Z.to_nat i)) as [x Hx]; [lia|]. eauto.
Qed.

Lemma array_get_out_of_range a i :
  ~ (0 <= i < Z.of_nat (length a)) -> array_get a i = None.
Proof.
  intros Hi. unfold array_get. destruct (Z.ltb_spec i 0); [reflexivity|].
  apply lookup_ge_None. lia.
Qed.

Lemma array_get_set_eq a i x y :
  array_get a i = Some x -> array_get (array_set a i y) i = Some y.
Proof.
  intros H. destruct (array_get_Some _ _ _ H) as [H0 Hlt].
  unfold array_get, array_set. destruct (Z.ltb_spec i 0); [lia|].
  apply list_lookup_insert_eq. exact Hlt.
Qed.

Lemma array_get_set_ne a i j y :
  0 <= i -> i <> j -> array_get (array_set a i y) j = array_get a j.
Proof.
  intros H0 Hne. unfold array_get, array_set.
  destruct (Z.ltb_spec j 0); [reflexivity|].
  apply list_lookup_insert_ne. lia.
Qed.

Lemma array_set_length a i y : length (array_set a i y) = length a.
Proof. apply length_insert. Qed.

End ArrayFacts.

Lemma array_get_calloc count sp record :
  array_get (calloc_HashKey count) sp = Some record -> record = zero_HashKey.
Proof.
  unfold array_get, calloc_HashKey. destruct (sp <? 0); [discriminate|].
  intros H. apply lookup_replicate_1 in H. tauto.
Qed.

Lemma calloc_HashKey_length count :
  0 <= count -> Z.of_nat (length (calloc_HashKey count)) = count.
Proof. intros H. unfold calloc_HashKey. rewrite length_replicate. lia. Qed.

Section CellFacts.

Variable labels : Mat Z.
Implicit Types (cell : nat * nat) (done cells : list (nat * nat)) (sp : Z).

Lemma cells_of_snoc sp done cell :
  cells_of labels sp (done ++ [cell])
  = cells_of labels sp done ++ (if decide (label_at labels cell = sp) then [cell] else []).
Proof.
  unfold cells_of. rewrite filter_app. f_equal.
Qed.

Lemma count_cells_snoc sp done cell :
  count_cells labels sp (done ++ [cell])
  = count_cells labels sp done + (if decide (label_at labels cell = sp) then 1 else 0).
Proof.
  unfold count_cells. rewrite cells_of_snoc, length_app.
  destruct (decide (label_at labels cell = sp)); simpl; lia.
Qed.

Lemma count_cells_nonneg sp cells : 0 <= count_cells labels sp cells.
Proof. unfold count_cells. lia. Qed.

Lemma count_cells_le_length sp cells :
  count_cells labels sp cells <= Z.of_nat (length cells).
Proof.
  unfold count_cells, cells_of.
  pose proof (length_filter (fun cell => label_at labels cell = sp) cells). lia.
Qed.

Lemma count_cells_app sp done cells :
  count_cells labels sp (done ++ cells)
  = count_cells labels sp done + count_cells labels sp cells.
Proof. unfold count_cells, cells_of. rewrite filter_app, length_app. lia. Qed.

Lemma count_cells_pos sp cells cell :
  cell ∈ cells -> label_at labels cell = sp -> 0 < count_cells labels sp cells.
Proof.
  intros Hin Hl. unfold count_cells.
  assert (Hc : cell ∈ cells_of labels sp cells).
  { unfold cells_of. apply list_elem_of_filter. split; assumption. }
  destruct (cells_of labels sp cells); [inversion Hc|]. simpl. lia.
Qed.

Lemma count_cells_zero sp cells :
  count_cells labels sp cells = 0 -> forall cell, cell ∈ cells -> label_at labels cell <> sp.
Proof.
  intros H0 cell Hin Hl. pose proof (count_cells_pos sp cells cell Hin Hl). lia.
Qed.

End CellFacts.

Section AccumulateFacts.

Lemma ulong_add_small a b :
  0 <= a + b <= ULONG_MAX -> ulong_add a b = a + b.
Proof.
  unfold ulong_add, wrap_unsigned, ULONG_MAX. intros H.
  apply Z.mod_small. lia.
Qed.

Lemma long_add_small a b : is_long (a + b) -> long_add a b = a + b.
Proof.
  unfold is_long, LONG_MAX, long_add. intros H.
  apply wrap_signed_small; [lia|]. change (64 - 1) with 63. lia.
Qed.

Lemma ulong_add_range a b : 0 <= ulong_add a b <= ULONG_MAX.
Proof.
  unfold ulong_add, wrap_unsigned, ULONG_MAX.
  pose proof (Z.mod_pos_bound (a + b) (2 ^ 64) ltac:(lia)). lia.
Qed.

Lemma channel_range (lab_pixel : Vec3b) (i : nat) : 0 <= channel lab_pixel i <= 255.
Proof.
  destruct lab_pixel as [[c0 c1] c2]. unfold channel.
  match goal with |- context [Byte.to_N ?b] => pose proof (Byte.to_N_bounded b) end.
  lia.
Qed.

Variables (image : mat_ptr) (lab_pixel : Vec3b) (row col : Z) (curr : HashKey).

Lemma accumulate_l_tot :
  l_tot (accumulate image lab_pixel row col curr)
  = long_add (l_tot curr) (channel lab_pixel 0).
Proof. unfold accumulate. destruct (pixel_count curr =? 0); reflexivity. Qed.

Lemma accumulate_a_tot :
  a_tot (accumulate image lab_pixel row col curr)
  = long_add (a_tot curr) (channel lab_pixel 1).
Proof. unfold accumulate. destruct (pixel_count curr =? 0); reflexivity. Qed.

Lemma accumulate_b_tot :
  b_tot (accumulate image lab_pixel row col curr)
  = long_add (b_tot curr) (channel lab_pixel 2).
Proof. unfold accumulate. destruct (pixel_count curr =? 0); reflexivity. Qed.

Lemma accumulate_pixel_count :
  pixel_count (accumulate image lab_pixel row col curr)
  = ulong_add (pixel_count curr) 1.
Proof. unfold accumulate. destruct (pixel_count curr =? 0); reflexivity. Qed.

(** The first pixel of a region sets the box to the pixel and the owner to
    the image. *)
Lemma accumulate_first :
  pixel_count curr = 0 ->
  x_range (accumulate image lab_pixel row col curr) = (col, col) /\
  y_range (accumulate image lab_pixel row col curr) = (row, row) /\
  original_image (accumulate image lab_pixel row col curr) = image.
Proof. intros E. unfold accumulate. rewrite E. simpl. auto. Qed.

(** A later pixel widens the box just enough and keeps the owner. *)
Lemma accumulate_next :
  pixel_count curr <> 0 ->
  x_range (accumulate image lab_pixel row col curr)
  = (Z.min (fst (x_range curr)) col, Z.max (snd (x_range curr)) col) /\
  y_range (accumulate image lab_pixel row col curr)
  = (Z.min (fst (y_range curr)) row, Z.max (snd (y_range curr)) row) /\
  original_image (accumulate image lab_pixel row col curr) = original_image curr.
Proof.
  intros N. unfold accumulate.
  destruct (Z.eqb_spec (pixel_count curr) 0) as [E|_]; [contradiction|].
  cbn [x_range y_range original_image].
  repeat split; f_equal;
    repeat match goal with
    | |- context [?a >? ?b] => destruct (Z.gtb_spec a b)
    | |- context [?a <? ?b] => destruct (Z.ltb_spec a b)
    end; lia.
Qed.

(** A record that has a pixel has an owner, whatever it was before. *)
Lemma accumulate_owner :
  image <> nullptr ->
  (pixel_count curr <> 0 -> original_image curr <> nullptr) ->
  original_image (accumulate image lab_pixel row col curr) <> nullptr.
Proof.
  intros Hi Hc. destruct (Z.eq_dec (pixel_count curr) 0) as [E|N].
  - destruct (accumulate_first E) as (_ & _ & ->). exact Hi.
  - destruct (accumulate_next N) as (_ & _ & ->). auto.
Qed.

End AccumulateFacts.

Section ChannelSums.

Variables (input_image : Mat Vec3b) (labels : Mat Z).

Lemma channel_sum_snoc i sp done cell :
  channel_sum input_image labels i sp (done ++ [cell])
  = channel_sum input_image labels i sp done
    + (if decide (label_at labels cell = sp)
       then channel (mat_at input_image (fst cell) (snd cell)) i else 0).
Proof.
  unfold channel_sum. rewrite cells_of_snoc, map_app, foldr_app.
  generalize (map (fun c => channel (mat_at input_image (fst c) (snd c)) i)
                  (cells_of labels sp done)).
  intros l. destruct (decide (label_at labels cell = sp)); simpl.
  - induction l as [|x l IH]; simpl; lia.
  - lia.
Qed.

Lemma channel_sum_range i sp cells :
  0 <= channel_sum input_image labels i sp cells <= 255 * count_cells labels sp cells.
Proof.
  unfold channel_sum, count_cells.
  induction (cells_of labels sp cells) as [|c l IH]; simpl foldr; simpl map.
  - simpl. lia.
  - pose proof (channel_range (mat_at input_image (fst c) (snd c)) i).
    simpl foldr. simpl length. lia.
Qed.

End ChannelSums.

Section Invariant.

Variables (input_image : Mat Vec3b) (labels : Mat Z) (pixel_count_arr : list Z).
Implicit Types (cell : nat * nat) (done cells : list (nat * nat)) (sp : Z)
               (st : HashState) (sps : list HashKey).

Lemma agg_inv_calloc count : agg_inv input_image labels [] (calloc_HashKey count).
Proof.
  intros sp record H. apply array_get_calloc in H. subst record.
  split.
  - reflexivity.
  - reflexivity.
  - unfold count_cells. simpl. lia.
  - intros cell Hc. inversion Hc.
  - unfold count_cells. simpl. lia.
  - intros _. repeat split.
Qed.

(** Visiting a cell of another region leaves the record's invariant. *)
Lemma record_inv_other done cell sp record :
  record_inv input_image labels done sp record ->
  label_at labels cell <> sp ->
  record_inv input_image labels (done ++ [cell]) sp record.
Proof.
  intros [Hc Hz Ho Hb Hh Hs] Hne.
  assert (Ecells : cells_of labels sp (done ++ [cell]) = cells_of labels sp done).
  { rewrite cells_of_snoc. destruct (decide (label_at labels cell = sp)); [contradiction|].
    apply app_nil_r. }
  assert (Ecount : count_cells labels sp (done ++ [cell]) = count_cells labels sp done).
  { unfold count_cells. rewrite Ecells. reflexivity. }
  split.
  - rewrite Ecount. exact Hc.
  - rewrite Ecount. exact Hz.
  - rewrite Ecount. exact Ho.
  - rewrite Ecells. exact Hb.
  - rewrite Ecells, Ecount. exact Hh.
  - intros Hlen. rewrite length_app in Hlen. simpl in Hlen.
    destruct Hs as (Hl & Ha & Hb'); [lia|].
    rewrite !channel_sum_snoc.
    destruct (decide (label_at labels cell = sp)); [contradiction|].
    rewrite !Z.add_0_r. auto.
Qed.

(** Visiting a cell of the region itself: the accumulated record satisfies
    the invariant of the longer run, as long as the count cannot wrap. *)
Lemma record_inv_accumulate done cell sp record :
  record_inv input_image labels done sp record ->
  label_at labels cell = sp ->
  Z.of_nat (length done) < ULONG_MAX ->
  record_inv input_image labels (done ++ [cell]) sp (accumulate_at input_image cell record).
Proof.
  intros [Hc Hz Ho Hb Hh Hs] Hl Hlen.
  pose proof (count_cells_nonneg labels sp done) as Hc0.
  pose proof (count_cells_le_length labels sp done) as Hc1.
  assert (Ecells : cells_of labels sp (done ++ [cell]) = cells_of labels sp done ++ [cell]).
  { rewrite cells_of_snoc. destruct (decide (label_at labels cell = sp)); [reflexivity|contradiction]. }
  assert (Ecount : count_cells labels sp (done ++ [cell]) = count_cells labels sp done + 1).
  { rewrite count_cells_snoc. destruct (decide (label_at labels cell = sp)); [reflexivity|contradiction]. }
  unfold accumulate_at.
  split.
  - rewrite accumulate_pixel_count, Hc, Ecount. apply ulong_add_small. lia.
  - rewrite Ecount. lia.
  - intros _. destruct (Z.eq_dec (count_cells labels sp done) 0) as [E0|N0].
    + eapply accumulate_first. rewrite Hc. exact E0.
    + match goal with |- original_image (accumulate ?i ?p ?r ?c ?k) = _ =>
        destruct (accumulate_next i p r c k) as (_ & _ & ->) end.
      * rewrite Hc. exact N0.
      * apply Ho. lia.
  - intros c. rewrite Ecells. intros Hin. apply elem_of_app in Hin as [Hin|Hin].
    + assert (N0 : pixel_count record <> 0).
      { rewrite Hc. unfold count_cells.
        destruct (cells_of labels sp done); [inversion Hin|]. simpl. lia. }
      specialize (Hb c Hin). unfold in_box in *.
      match goal with |- context [accumulate ?i ?p ?r ?cl ?k] =>
        destruct (accumulate_next i p r cl k N0) as (-> & -> & _) end.
      simpl. lia.
    + apply list_elem_of_singleton in Hin. subst c. unfold in_box.
      destruct (Z.eq_dec (pixel_count record) 0) as [E0|N0].
      * match goal with |- context [accumulate ?i ?p ?r ?cl ?k] =>
          destruct (accumulate_first i p r cl k E0) as (-> & -> & _) end.
        simpl. lia.
      * match goal with |- context [accumulate ?i ?p ?r ?cl ?k] =>
          destruct (accumulate_next i p r cl k N0) as (-> & -> & _) end.
        simpl. lia.
  - intros W H. rewrite Ecells. intros Hframe _.
    assert (Hcell : Z.of_nat (snd cell) < W /\ Z.of_nat (fst cell) < H)
      by (apply Hframe, elem_of_app; right; left).
    destruct (Z.eq_dec (pixel_count record) 0) as [E0|N0].
    + match goal with |- context [accumulate ?i ?p ?r ?cl ?k] =>
        destruct (accumulate_first i p r cl k E0) as (-> & -> & _) end.
      simpl. lia.
    + match goal with |- context [accumulate ?i ?p ?r ?cl ?k] =>
        destruct (accumulate_next i p r cl k N0) as (-> & -> & _) end.
      destruct (Hh W H) as (H1 & H2 & H3 & H4).
      * intros c Hin. apply Hframe, elem_of_app. left. exact Hin.
      * lia.
      * simpl. lia.
  - intros Hlen'. rewrite length_app in Hlen'. simpl in Hlen'.
    destruct Hs as (El & Ea & Eb); [lia|].
    rewrite accumulate_l_tot, accumulate_a_tot, accumulate_b_tot.
    rewrite !channel_sum_snoc.
    destruct (decide (label_at labels cell = sp)); [|contradiction].
    rewrite El, Ea, Eb.
    pose proof (channel_sum_range input_image labels 0 sp done).
    pose proof (channel_sum_range input_image labels 1 sp done).
    pose proof (channel_sum_range input_image labels 2 sp done).
    pose proof (channel_range (mat_at input_image (fst cell) (snd cell)) 0).
    pose proof (channel_range (mat_at input_image (fst cell) (snd cell)) 1).
    pose proof (channel_range (mat_at input_image (fst cell) (snd cell)) 2).
    repeat split; apply long_add_small; unfold is_long, LONG_MAX in *; lia.
Qed.

(** What the body does to the array, when it does not leave it. *)
Lemma Hash_cell_superpixels cell st st' :
  Hash_cell input_image labels pixel_count_arr cell st = Some st' ->
  exists curr expected,
    array_get (superpixels st) (label_at labels cell) = Some curr /\
    array_get pixel_count_arr (label_at labels cell) = Some expected /\
    superpixels st'
    = array_set (superpixels st) (label_at labels cell) (accumulate_at input_image cell curr).
Proof.
  unfold Hash_cell, label_at, accumulate_at. destruct cell as [row col]. simpl.
  destruct (array_get (superpixels st) (mat_at labels row col)) as [curr|]; [|discriminate].
  destruct (array_get pixel_count_arr (mat_at labels row col)) as [expected|]; [|discriminate].
  intros H. exists curr, expected. split; [reflexivity|]. split; [reflexivity|].
  repeat match type of H with
  | context [if ?b then _ else _] => destruct b
  end; inversion H; reflexivity.
Qed.

Lemma Hash_cell_length cell st st' :
  Hash_cell input_image labels pixel_count_arr cell st = Some st' ->
  length (superpixels st') = length (superpixels st).
Proof.
  intros H. apply Hash_cell_superpixels in H as (curr & e & _ & _ & ->).
  apply array_set_length.
Qed.

(** The body succeeds where both arrays have the entry. *)
Lemma Hash_cell_in_range cell st :
  0 <= label_at labels cell < Z.of_nat (length (superpixels st)) ->
  0 <= label_at labels cell < Z.of_nat (length pixel_count_arr) ->
  exists st', Hash_cell input_image labels pixel_count_arr cell st = Some st'.
Proof.
  intros H1 H2.
  destruct (array_get_in_range (superpixels st) _ H1) as [curr Hc].
  destruct (array_get_in_range pixel_count_arr _ H2) as [e He].
  unfold Hash_cell, label_at in *. destruct cell as [row col]. simpl in *.
  rewrite Hc, He.
  repeat match goal with
  | |- context [if ?b then _ else _] => destruct b
  end; eauto.
Qed.

(** It leaves the array where the identifier is outside it. *)
Lemma Hash_cell_out_of_range cell st :
  ~ (0 <= label_at labels cell < Z.of_nat (length (superpixels st))) ->
  Hash_cell input_image labels pixel_count_arr cell st = None.
Proof.
  intros H. unfold Hash_cell, label_at in *. destruct cell as [row col]. simpl in *.
  rewrite (array_get_out_of_range _ _ H). reflexivity.
Qed.

(** One step keeps the invariant. *)
Lemma Hash_cell_inv done cell st st' :
  agg_inv input_image labels done (superpixels st) ->
  Z.of_nat (length done) < ULONG_MAX ->
  Hash_cell input_image labels pixel_count_arr cell st = Some st' ->
  agg_inv input_image labels (done ++ [cell]) (superpixels st').
Proof.
  intros Hinv Hlen Hstep.
  apply Hash_cell_superpixels in Hstep as (curr & e & Hc & He & ->).
  destruct (array_get_Some _ _ _ Hc) as [H0 _].
  intros sp record Hget.
  destruct (Z.eq_dec (label_at labels cell) sp) as [E|N].
  - subst sp. rewrite (array_get_set_eq _ _ _ _ Hc) in Hget. inversion Hget; subst record.
    apply record_inv_accumulate; auto.
  - rewrite array_get_set_ne in Hget by assumption.
    apply record_inv_other; auto.
Qed.

Lemma Hash_loop_app cells1 cells2 st :
  Hash_loop input_image labels pixel_count_arr (cells1 ++ cells2) st
  = match Hash_loop input_image labels pixel_count_arr cells1 st with
    | (Returned, st1) => Hash_loop input_image labels pixel_count_arr cells2 st1
    | (OutOfBounds, st1) => (OutOfBounds, st1)
    end.
Proof.
  revert st. induction cells1 as [|c cells1 IH]; intros st; simpl; [reflexivity|].
  destruct (Hash_cell input_image labels pixel_count_arr c st); [apply IH|reflexivity].
Qed.

(** A run that returns keeps the invariant and the length of the array. *)
Lemma Hash_loop_inv cells : forall done st st',
  agg_inv input_image labels done (superpixels st) ->
  Z.of_nat (length (done ++ cells)) <= ULONG_MAX ->
  Hash_loop input_image labels pixel_count_arr cells st = (Returned, st') ->
  agg_inv input_image labels (done ++ cells) (superpixels st') /\
  length (superpixels st') = length (superpixels st).
Proof.
  induction cells as [|c cells IH]; intros done st st' Hinv Hlen Hrun; simpl in Hrun.
  - inversion Hrun; subst st'. rewrite app_nil_r. auto.
  - destruct (Hash_cell input_image labels pixel_count_arr c st) as [st1|] eqn:Hstep;
      [|discriminate].
    rewrite length_app in Hlen. simpl in Hlen.
    assert (Hinv1 := Hash_cell_inv done c st st1 Hinv ltac:(lia) Hstep).
    replace (done ++ c :: cells) with ((done ++ [c]) ++ cells)
      by (rewrite <- app_assoc; reflexivity).
    destruct (IH (done ++ [c]) st1 st' Hinv1) as [H1 H2]; auto.
    + rewrite !length_app. simpl. lia.
    + split; [exact H1|]. rewrite H2. eapply Hash_cell_length; eassumption.
Qed.

(** With every identifier inside the arrays the run returns. *)
Lemma Hash_loop_returns cells : forall st,
  Forall (fun cell => 0 <= label_at labels cell < Z.of_nat (length (superpixels st))) cells ->
  Forall (fun cell => 0 <= label_at labels cell < Z.of_nat (length pixel_count_arr)) cells ->
  exists st', Hash_loop input_image labels pixel_count_arr cells st = (Returned, st').
Proof.
  induction cells as [|c cells IH]; intros st H1 H2; simpl.
  - eauto.
  - apply Forall_cons in H1 as [H1 H1']. apply Forall_cons in H2 as [H2 H2'].
    destruct (Hash_cell_in_range c st H1 H2) as [st1 Hstep]. rewrite Hstep.
    apply IH; [|exact H2'].
    rewrite (Hash_cell_length _ _ _ Hstep). exact H1'.
Qed.

End Invariant.

Section Insertions.

Variables (input_image : Mat Vec3b) (labels : Mat Z) (pixel_count_arr : list Z).
Implicit Types (cell : nat * nat) (done cells : list (nat * nat)) (sp : Z)
               (st : HashState) (sps : list HashKey).

(** What an insertion at a cell is made of. *)
Lemma Hash_cell_insertion_Some cell sps sp key record :
  Hash_cell_insertion input_image labels pixel_count_arr cell sps = Some (sp, key, record) ->
  sp = label_at labels cell /\
  key = calculate_hash_key record /\
  key <> sentinel /\
  exists curr,
    array_get sps sp = Some curr /\
    record = accumulate_at input_image cell curr /\
    array_get pixel_count_arr sp = Some (pixel_count record).
Proof.
  unfold Hash_cell_insertion, label_at, accumulate_at. destruct cell as [row col]. simpl.
  destruct (array_get sps (mat_at labels row col)) as [curr|] eqn:Hc; [|discriminate].
  destruct (array_get pixel_count_arr (mat_at labels row col)) as [e|] eqn:He; [|discriminate].
  match goal with |- context [accumulate ?i ?p ?r ?c ?k] => set (rec := accumulate i p r c k) end.
  destruct (Z.eqb_spec (pixel_count rec) e) as [E|N]; simpl; [|discriminate].
  destruct (Z.eqb_spec (calculate_hash_key rec) (-1)) as [E1|N1]; simpl; [discriminate|].
  intros H. inversion H; subst sp key record.
  repeat split; auto. exists curr. rewrite E. auto.
Qed.

(** The body changes the table by the insertion of the cell, if any. *)
Lemma Hash_cell_table cell st st' :
  Hash_cell input_image labels pixel_count_arr cell st = Some st' ->
  hashTable st'
  = match Hash_cell_insertion input_image labels pixel_count_arr cell (superpixels st) with
    | Some ins => push_back (snd (fst ins)) (snd ins) (hashTable st)
    | None => hashTable st
    end.
Proof.
  unfold Hash_cell, Hash_cell_insertion. destruct cell as [row col].
  destruct (array_get (superpixels st) (mat_at labels row col)) as [curr|]; [|discriminate].
  destruct (array_get pixel_count_arr (mat_at labels row col)) as [e|]; [|discriminate].
  match goal with |- context [accumulate ?i ?p ?r ?c ?k] => set (rec := accumulate i p r c k) end.
  destruct (pixel_count rec =? e); simpl.
  - destruct (calculate_hash_key rec =? -1); simpl; intros H; inversion H; reflexivity.
  - intros H; inversion H; reflexivity.
Qed.

Lemma replay_app ins1 ins2 (table : gmap Z (list HashKey)) :
  replay (ins1 ++ ins2) table = replay ins2 (replay ins1 table).
Proof. unfold replay. apply fold_left_app. Qed.

(** The table a run leaves, however it ends, is the table it found with the
    run's insertions appended in order. *)
Lemma Hash_loop_insertions cells : forall st,
  hashTable (snd (Hash_loop input_image labels pixel_count_arr cells st))
  = replay (Hash_insertions input_image labels pixel_count_arr cells st) (hashTable st).
Proof.
  induction cells as [|c cells IH]; intros st; simpl; [reflexivity|].
  destruct (Hash_cell input_image labels pixel_count_arr c st) as [st1|] eqn:Hstep;
    [|reflexivity].
  rewrite IH, replay_app. f_equal.
  rewrite (Hash_cell_table _ _ _ Hstep).
  destruct (Hash_cell_insertion input_image labels pixel_count_arr c (superpixels st));
    reflexivity.
Qed.

Lemma Hash_insertions_app cells1 cells2 st :
  Hash_insertions input_image labels pixel_count_arr (cells1 ++ cells2) st
  = Hash_insertions input_image labels pixel_count_arr cells1 st
    ++ match Hash_loop input_image labels pixel_count_arr cells1 st with
       | (Returned, st1) => Hash_insertions input_image labels pixel_count_arr cells2 st1
       | (OutOfBounds, _) => []
       end.
Proof.
  revert st. induction cells1 as [|c cells1 IH]; intros st; simpl; [reflexivity|].
  destruct (Hash_cell input_image labels pixel_count_arr c st) as [st1|]; [|reflexivity].
  rewrite IH, app_assoc. reflexivity.
Qed.

(** Every insertion of a run is for the identifier of one of its cells, is
    filed under its own key, has pixels and an owner. *)
Lemma Hash_insertions_sound cells : forall st,
  (forall record, record ∈ superpixels st ->
     pixel_count record <> 0 -> original_image record <> nullptr) ->
  Forall (fun ins : Z * Z * HashKey =>
            (exists cell, cell ∈ cells /\ label_at labels cell = fst (fst ins)) /\
            snd (fst ins) = calculate_hash_key (snd ins) /\
            0 < pixel_count (snd ins) /\
            original_image (snd ins) <> nullptr)
         (Hash_insertions input_image labels pixel_count_arr cells st).
Proof.
  induction cells as [|c cells IH]; intros st Hown; simpl; [constructor|].
  destruct (Hash_cell input_image labels pixel_count_arr c st) as [st1|] eqn:Hstep;
    [|constructor].
  assert (Hown1 : forall record, record ∈ superpixels st1 ->
            pixel_count record <> 0 -> original_image record <> nullptr).
  { destruct (Hash_cell_superpixels _ _ _ _ _ _ Hstep) as (curr & e & Hc & _ & ->).
    intros record Hin. unfold array_set in Hin.
    apply list_elem_of_lookup in Hin as [i Hi].
    destruct (decide (i = Z.to_nat (label_at labels c))) as [->|Hne].
    - rewrite list_lookup_insert_eq in Hi
        by (apply array_get_Some in Hc; tauto).
      inversion Hi; subst record. intros _. unfold accumulate_at.
      apply accumulate_owner; [discriminate|].
      apply Hown. unfold array_get in Hc.
      destruct (label_at labels c <? 0); [discriminate|].
      eapply list_elem_of_lookup_2; eassumption.
    - rewrite list_lookup_insert_ne in Hi by auto.
      apply Hown. eapply list_elem_of_lookup_2; eassumption. }
  apply Forall_app. split.
  - destruct (Hash_cell_insertion input_image labels pixel_count_arr c (superpixels st))
      as [[[sp key] record]|] eqn:Hins; [|constructor].
    constructor; [|constructor]. simpl.
    destruct (Hash_cell_insertion_Some _ _ _ _ _ Hins) as (-> & -> & Hk & curr & Hc & -> & He).
    split; [exists c; split; [left|reflexivity]|].
    split; [reflexivity|].
    split.
    + unfold accumulate_at in *. rewrite accumulate_pixel_count in *.
      pose proof (ulong_add_range (pixel_count curr) 1) as Hr.
      assert (ulong_add (pixel_count curr) 1 <> 0); [|lia].
      intros E0. apply Hk. unfold calculate_hash_key.
      rewrite accumulate_pixel_count, E0. reflexivity.
    + unfold accumulate_at. apply accumulate_owner; [discriminate|].
      apply Hown. unfold array_get in Hc.
      destruct (label_at labels c <? 0); [discriminate|].
      eapply list_elem_of_lookup_2; eassumption.
  - eapply Forall_impl; [apply IH; exact Hown1|].
    intros ins ((cell & Hin & Hl) & H2). split; [|exact H2].
    exists cell. split; [right; exact Hin|exact Hl].
Qed.

End Insertions.

Section ScanFacts.

Context {A : Type}.

Lemma scan_length (m : Mat A) : length (scan m) = (rows m * cols m)%nat.
Proof.
  assert (G : forall (l : list nat) (c : nat),
             length (flat_map (fun row => map (fun col => (row, col)) (seq 0 c)) l)
             = (length l * c)%nat).
  { intros l c. induction l as [|r l IH]; simpl; [reflexivity|].
    rewrite length_app, length_map, length_seq, IH. reflexivity. }
  unfold scan. rewrite G, length_seq. reflexivity.
Qed.

(** A grid with [int] dimensions has fewer cells than [unsigned long]
    can count. *)
Lemma scan_fits_ulong (m : Mat A) :
  dims_are_int m -> Z.of_nat (length (scan m)) <= ULONG_MAX.
Proof.
  unfold dims_are_int, INT_MAX, ULONG_MAX. intros [Hr Hc].
  rewrite scan_length, Nat2Z.inj_mul. nia.
Qed.

Lemma prefix_fits_ulong (m : Mat A) (done rest : list (nat * nat)) :
  dims_are_int m -> scan m = done ++ rest -> Z.of_nat (length done) <= ULONG_MAX.
Proof.
  intros Hd Hs. pose proof (scan_fits_ulong m Hd) as H.
  rewrite Hs, length_app in H. lia.
Qed.

End ScanFacts.

Section PassFacts.

Variables (input_image : Mat Vec3b) (labels : Mat Z) (pixel_count_arr : list Z)
          (superpixel_count : Z) (table : gmap Z (list HashKey)).

(** A run from the start over cells with identifiers in range returns, and
    the array then satisfies the invariant for these cells. *)
Lemma Hash_loop_from_init (done : list (nat * nat)) :
  Z.of_nat (length done) <= ULONG_MAX ->
  labels_in_range labels superpixel_count done ->
  one_per_region pixel_count_arr superpixel_count ->
  exists st,
    Hash_loop input_image labels pixel_count_arr done (Hash_init superpixel_count table)
    = (Returned, st) /\
    agg_inv input_image labels done (superpixels st) /\
    Z.of_nat (length (superpixels st)) = superpixel_count.
Proof.
  intros Hlen Hr [Hn Hp].
  destruct (Hash_loop_returns input_image labels pixel_count_arr done
              (Hash_init superpixel_count table)) as [st Hst].
  - simpl. rewrite calloc_HashKey_length by exact Hn. exact Hr.
  - rewrite Hp. exact Hr.
  - exists st. split; [exact Hst|].
    destruct (Hash_loop_inv input_image labels pixel_count_arr done []
                (Hash_init superpixel_count table) st) as [H1 H2]; auto.
    + apply agg_inv_calloc.
    + split; [exact H1|]. rewrite H2. simpl. apply calloc_HashKey_length. exact Hn.
Qed.

End PassFacts.

Section AggregationTheorems.

Variables (input_image : Mat Vec3b) (labels : Mat Z) (pixel_count_arr : list Z)
          (superpixel_count : Z) (table : gmap Z (list HashKey)).

(** C9. For a grid of at most 3840 x 2160 cells (the image and the label
    grid have the same shape) and 8-bit channels, at every point of the pass
    each colour accumulator is the exact sum of the channel over the cells
    of the region visited so far, without wrap-around, and lies in
    [[0, 255*3840*2160]], which is below the largest [long] (even of a
    32-bit [long]). *)
Theorem color_sums_never_overflow (done rest : list (nat * nat)) :
  Z.of_nat (cols labels) <= max_img_w ->
  Z.of_nat (rows labels) <= max_img_h ->
  one_per_region pixel_count_arr superpixel_count ->
  scan labels = done ++ rest ->
  labels_in_range labels superpixel_count done ->
  255 * max_img_w * max_img_h <= 2 ^ 31 - 1 /\
  255 * max_img_w * max_img_h <= LONG_MAX /\
  exists st,
    Hash_loop input_image labels pixel_count_arr done (Hash_init superpixel_count table)
    = (Returned, st) /\
    forall (sp : Z) (record : HashKey),
      array_get (superpixels st) sp = Some record ->
      (l_tot record = channel_sum input_image labels 0 sp done /\
       a_tot record = channel_sum input_image labels 1 sp done /\
       b_tot record = channel_sum input_image labels 2 sp done) /\
      0 <= l_tot record <= 255 * max_img_w * max_img_h /\
      0 <= a_tot record <= 255 * max_img_w * max_img_h /\
      0 <= b_tot record <= 255 * max_img_w * max_img_h.
Proof.
  intros Hw Hh Hp Hs Hr.
  split; [unfold max_img_w, max_img_h; lia|].
  split; [unfold max_img_w, max_img_h, LONG_MAX; lia|].
  assert (Hlen : Z.of_nat (length done) <= max_img_w * max_img_h).
  { pose proof (scan_length labels) as Hl. rewrite Hs, length_app in Hl.
    unfold max_img_w, max_img_h in *. nia. }
  destruct (Hash_loop_from_init input_image labels pixel_count_arr superpixel_count table done)
    as (st & Hst & Hinv & _); auto.
  { unfold max_img_w, max_img_h, ULONG_MAX in *. lia. }
  exists st. split; [exact Hst|].
  intros sp record Hget.
  destruct (inv_sums _ _ _ _ _ (Hinv sp record Hget)) as (El & Ea & Eb).
  { unfold max_img_w, max_img_h, LONG_MAX in *. lia. }
  split; [auto|].
  pose proof (channel_sum_range input_image labels 0 sp done).
  pose proof (channel_sum_range input_image labels 1 sp done).
  pose proof (channel_sum_range input_image labels 2 sp done).
  pose proof (count_cells_le_length labels sp done).
  rewrite El, Ea, Eb. unfold max_img_w, max_img_h in *. lia.
Qed.

End AggregationTheorems.

Section AtMostOnce.

Variables (input_image : Mat Vec3b) (labels : Mat Z) (pixel_count_arr : list Z).
Implicit Types (cell : nat * nat) (done cells : list (nat * nat)) (sp : Z)
               (st : HashState).

(** An insertion at a cell reached with the invariant carries the running
    count of its region, and that is the expected count. *)
Lemma insertion_running_count done cell st sp key record :
  agg_inv input_image labels done (superpixels st) ->
  Z.of_nat (length done) < ULONG_MAX ->
  Hash_cell_insertion input_image labels pixel_count_arr cell (superpixels st)
  = Some (sp, key, record) ->
  sp = label_at labels cell /\
  pixel_count record = count_cells labels sp (done ++ [cell]) /\
  array_get pixel_count_arr sp = Some (count_cells labels sp (done ++ [cell])).
Proof.
  intros Hinv Hlen Hins.
  destruct (Hash_cell_insertion_Some _ _ _ _ _ _ _ _ Hins)
    as (-> & _ & _ & curr & Hc & -> & He).
  assert (Hr := record_inv_accumulate input_image labels done cell _ curr
                  (Hinv _ _ Hc) eq_refl Hlen).
  rewrite <- (inv_count _ _ _ _ _ Hr). auto.
Qed.

(** Where the expected count differs from the running count there is no
    insertion. *)
Lemma no_insertion_unless_equal done cell st expected :
  agg_inv input_image labels done (superpixels st) ->
  Z.of_nat (length done) < ULONG_MAX ->
  array_get pixel_count_arr (label_at labels cell) = Some expected ->
  expected <> count_cells labels (label_at labels cell) (done ++ [cell]) ->
  Hash_cell_insertion input_image labels pixel_count_arr cell (superpixels st) = None.
Proof.
  intros Hinv Hlen He Hne.
  destruct (Hash_cell_insertion input_image labels pixel_count_arr cell (superpixels st))
    as [[[sp key] record]|] eqn:Hins; [|reflexivity].
  destruct (insertion_running_count done cell st sp key record Hinv Hlen Hins)
    as (-> & _ & He').
  congruence.
Qed.

(** Once the running count has reached the expected count, the rest of the
    run inserts nothing for the region. *)
Lemma no_more_insertions cells : forall done st sp expected,
  agg_inv input_image labels done (superpixels st) ->
  Z.of_nat (length (done ++ cells)) <= ULONG_MAX ->
  array_get pixel_count_arr sp = Some expected ->
  expected <= count_cells labels sp done ->
  insertions_of sp (Hash_insertions input_image labels pixel_count_arr cells st) = [].
Proof.
  induction cells as [|c cells IH]; intros done st sp e Hinv Hlen He Hle; simpl;
    [reflexivity|].
  destruct (Hash_cell input_image labels pixel_count_arr c st) as [st1|] eqn:Hstep;
    [|reflexivity].
  rewrite length_app in Hlen. simpl in Hlen.
  assert (Hinv1 := Hash_cell_inv _ _ _ done c st st1 Hinv ltac:(lia) Hstep).
  unfold insertions_of. rewrite filter_app.
  fold (insertions_of sp (Hash_insertions input_image labels pixel_count_arr cells st1)).
  rewrite (IH (done ++ [c]) st1 sp e); auto.
  - rewrite app_nil_r.
    destruct (Hash_cell_insertion input_image labels pixel_count_arr c (superpixels st))
      as [[[sp' key] record]|] eqn:Hins; [|reflexivity].
    destruct (insertion_running_count done c st sp' key record Hinv ltac:(lia) Hins)
      as (-> & _ & He').
    rewrite filter_cons_False; [reflexivity|]. simpl. intros E. rewrite E in He'.
    rewrite He in He'. inversion He'. subst e.
    rewrite count_cells_snoc in Hle.
    destruct (decide (label_at labels c = sp)); [lia|contradiction].
  - rewrite <- app_assoc, length_app. simpl. lia.
  - pose proof (count_cells_snoc labels sp done c).
    destruct (decide (label_at labels c = sp)); lia.
Qed.

Lemma at_most_one_insertion cells : forall done st sp,
  agg_inv input_image labels done (superpixels st) ->
  Z.of_nat (length (done ++ cells)) <= ULONG_MAX ->
  (length (insertions_of sp
             (Hash_insertions input_image labels pixel_count_arr cells st)) <= 1)%nat.
Proof.
  induction cells as [|c cells IH]; intros done st sp Hinv Hlen; simpl; [lia|].
  destruct (Hash_cell input_image labels pixel_count_arr c st) as [st1|] eqn:Hstep;
    [|simpl; lia].
  assert (Hlen' : Z.of_nat (length ((done ++ [c]) ++ cells)) <= ULONG_MAX).
  { rewrite <- app_assoc. exact Hlen. }
  rewrite length_app in Hlen. simpl in Hlen.
  assert (Hinv1 := Hash_cell_inv _ _ _ done c st st1 Hinv ltac:(lia) Hstep).
  unfold insertions_of. rewrite filter_app, length_app.
  fold (insertions_of sp (Hash_insertions input_image labels pixel_count_arr cells st1)).
  destruct (Hash_cell_insertion input_image labels pixel_count_arr c (superpixels st))
    as [[[sp' key] record]|] eqn:Hins.
  - destruct (insertion_running_count done c st sp' key record Hinv ltac:(lia) Hins)
      as (-> & _ & He').
    destruct (Z.eq_dec (label_at labels c) sp) as [E|N].
    + rewrite filter_cons_True by exact E. rewrite filter_nil.
      rewrite (no_more_insertions cells (done ++ [c]) st1 sp
                 (count_cells labels sp (done ++ [c]))); auto.
      * rewrite <- E. exact He'.
      * lia.
    + rewrite filter_cons_False by exact N. rewrite filter_nil. simpl.
      apply (IH (done ++ [c])); auto.
  - rewrite filter_nil. simpl. apply (IH (done ++ [c])); auto.
Qed.

(** C10. In one pass, whatever the expected counts are, the table changes by
    the insertions of the pass, and at most one record is appended to it
    for each region identifier; an insertion at a
    cell happens only if the running count of the cell's region, this cell
    included, equals the expected count, and the record then carries that
    count; in particular no insertion happens once the running count
    exceeds the expected count. *)
Theorem inserted_at_most_once (superpixel_count : Z) (table : gmap Z (list HashKey)) :
  dims_are_int labels ->
  snd (Hash table input_image labels superpixel_count pixel_count_arr)
  = replay (Hash_insertions input_image labels pixel_count_arr (scan labels)
              (Hash_init superpixel_count table)) table /\
  (forall sp,
     (length (insertions_of sp
                (Hash_insertions input_image labels pixel_count_arr (scan labels)
                   (Hash_init superpixel_count table))) <= 1)%nat) /\
  (forall done cell rest st,
     scan labels = done ++ cell :: rest ->
     Hash_loop input_image labels pixel_count_arr done (Hash_init superpixel_count table)
     = (Returned, st) ->
     (forall sp key record,
        Hash_cell_insertion input_image labels pixel_count_arr cell (superpixels st)
        = Some (sp, key, record) ->
        sp = label_at labels cell /\
        pixel_count record = count_cells labels sp (done ++ [cell]) /\
        array_get pixel_count_arr sp = Some (count_cells labels sp (done ++ [cell]))) /\
     (forall expected,
        array_get pixel_count_arr (label_at labels cell) = Some expected ->
        expected < count_cells labels (label_at labels cell) (done ++ [cell]) ->
        Hash_cell_insertion input_image labels pixel_count_arr cell (superpixels st)
        = None)).
Proof.
  intros Hd. pose proof (scan_fits_ulong labels Hd) as Hlen. split; [|split].
  - pose proof (Hash_loop_insertions input_image labels pixel_count_arr (scan labels)
                  (Hash_init superpixel_count table)) as Hrep.
    unfold Hash.
    destruct (Hash_loop input_image labels pixel_count_arr (scan labels)
                (Hash_init superpixel_count table)) as [s st].
    exact Hrep.
  - intros sp. apply (at_most_one_insertion (scan labels) []); [|exact Hlen].
    apply agg_inv_calloc.
  - intros done cell rest st Hs Hrun.
    rewrite Hs, length_app in Hlen. simpl in Hlen.
    destruct (Hash_loop_inv input_image labels pixel_count_arr done []
                (Hash_init superpixel_count table) st) as [Hinv _]; auto.
    { apply agg_inv_calloc. }
    { simpl. lia. }
    simpl in Hinv. split.
    + intros sp key record Hins.
      apply (insertion_running_count done cell st sp key record); auto. lia.
    + intros e He Hlt.
      apply (no_insertion_unless_equal done cell st e); auto; lia.
Qed.

End AtMostOnce.

Section BoundingBox.

Variables (input_image : Mat Vec3b) (labels : Mat Z) (pixel_count_arr : list Z)
          (superpixel_count : Z) (table : gmap Z (list HashKey)).

(** C7. At every point of a pass over a grid of valid identifiers (after any
    initial run [done] of the cells in scan order, the whole grid included)
    the record of each region contains in its bounding box every cell
    visited so far that is labelled with the region: the column lies in
    [[x_min, x_max]] and the row in [[y_min, y_max]].  The same holds of
    every record at the moment it is inserted into the table, and with true
    expected counts the inserted record contains every cell of its region in
    the grid. *)
Theorem bounding_box_contains :
  dims_are_int labels ->
  one_per_region pixel_count_arr superpixel_count ->
  (forall done rest,
     scan labels = done ++ rest ->
     labels_in_range labels superpixel_count done ->
     exists st,
       Hash_loop input_image labels pixel_count_arr done (Hash_init superpixel_count table)
       = (Returned, st) /\
       forall (sp : Z) (record : HashKey),
         array_get (superpixels st) sp = Some record ->
         forall cell, cell ∈ done -> label_at labels cell = sp ->
           fst (x_range record) <= Z.of_nat (snd cell) <= snd (x_range record) /\
           fst (y_range record) <= Z.of_nat (fst cell) <= snd (y_range record)) /\
  (forall done cell rest st sp key record,
     scan labels = done ++ cell :: rest ->
     Hash_loop input_image labels pixel_count_arr done (Hash_init superpixel_count table)
     = (Returned, st) ->
     Hash_cell_insertion input_image labels pixel_count_arr cell (superpixels st)
     = Some (sp, key, record) ->
     (forall c, c ∈ done ++ [cell] -> label_at labels c = sp -> in_box record c) /\
     (counts_are_true labels pixel_count_arr ->
      forall c, c ∈ scan labels -> label_at labels c = sp -> in_box record c)).
Proof.
  intros Hd Hp. split.
  - intros done rest Hs Hr.
    destruct (Hash_loop_from_init input_image labels pixel_count_arr superpixel_count table
                done) as (st & Hst & Hinv & _); auto.
    { eapply prefix_fits_ulong; eassumption. }
    exists st. split; [exact Hst|].
    intros sp record Hget cell Hin Hl.
    apply (inv_box _ _ _ _ _ (Hinv sp record Hget)).
    unfold cells_of. apply list_elem_of_filter. split; assumption.
  - intros done cell rest st sp key record Hs Hrun Hins.
    pose proof (scan_fits_ulong labels Hd) as Hlen.
    rewrite Hs, length_app in Hlen. simpl in Hlen.
    destruct (Hash_loop_inv input_image labels pixel_count_arr done []
                (Hash_init superpixel_count table) st) as [Hinv _]; auto.
    { apply agg_inv_calloc. }
    { simpl. lia. }
    simpl in Hinv.
    destruct (insertion_running_count input_image labels pixel_count_arr done cell st
                sp key record Hinv ltac:(lia) Hins) as (Hsp & Hcount & Hexp).
    destruct (Hash_cell_insertion_Some _ _ _ _ _ _ _ _ Hins)
      as (_ & _ & _ & curr & Hc & -> & _).
    assert (Hrec := record_inv_accumulate input_image labels done cell sp curr
                      (Hinv _ _ Hc) (eq_sym Hsp) ltac:(lia)).
    assert (Hbox : forall c, c ∈ done ++ [cell] -> label_at labels c = sp ->
                             in_box (accumulate_at input_image cell curr) c).
    { intros c Hin Hl. apply (inv_box _ _ _ _ _ Hrec).
      unfold cells_of. apply list_elem_of_filter. split; assumption. }
    split; [exact Hbox|].
    intros Htrue c Hin Hl.
    rewrite Hs in Hin.
    replace (done ++ cell :: rest) with ((done ++ [cell]) ++ rest) in Hin
      by (rewrite <- app_assoc; reflexivity).
    apply elem_of_app in Hin as [Hin|Hin]; [apply Hbox; assumption|].
    exfalso.
    assert (Hall : count_cells labels sp (scan labels)
                   = count_cells labels sp (done ++ [cell]) + count_cells labels sp rest).
    { rewrite Hs.
      replace (done ++ cell :: rest) with ((done ++ [cell]) ++ rest)
        by (rewrite <- app_assoc; reflexivity).
      apply count_cells_app. }
    assert (Hexp' : count_cells labels sp (done ++ [cell])
                    = count_cells labels sp (scan labels)).
    { destruct (array_get_Some _ _ _ Hexp) as [H0 _].
      unfold array_get in Hexp. destruct (Z.ltb_spec sp 0); [lia|].
      rewrite (Htrue _ _ Hexp) at 1. rewrite Z2Nat.id by lia. reflexivity. }
    apply (count_cells_zero labels sp rest ltac:(lia) c Hin Hl).
Qed.

End BoundingBox.

Section KeysOfInsertions.

Variables (input_image : Mat Vec3b) (labels : Mat Z) (pixel_count_arr : list Z).

Lemma scan_elem {A} (m : Mat A) (cell : nat * nat) :
  cell ∈ scan m -> (fst cell < rows m)%nat /\ (snd cell < cols m)%nat.
Proof.
  unfold scan. rewrite list_elem_of_In, in_flat_map.
  intros (row & Hrow & Hcell). apply in_map_iff in Hcell as (col & <- & Hcol).
  apply in_seq in Hrow. apply in_seq in Hcol. simpl. lia.
Qed.

(** Every insertion of a run is made at one of its cells, in the state the
    cells before it leave. *)
Lemma Hash_insertions_elem cells : forall st ins,
  ins ∈ Hash_insertions input_image labels pixel_count_arr cells st ->
  exists done cell rest st',
    cells = done ++ cell :: rest /\
    Hash_loop input_image labels pixel_count_arr done st = (Returned, st') /\
    Hash_cell_insertion input_image labels pixel_count_arr cell (superpixels st') = Some ins.
Proof.
  induction cells as [|c cells IH]; intros st ins Hin; simpl in Hin; [inversion Hin|].
  destruct (Hash_cell input_image labels pixel_count_arr c st) as [st1|] eqn:Hstep;
    [|inversion Hin].
  apply elem_of_app in Hin as [Hin|Hin].
  - destruct (Hash_cell_insertion input_image labels pixel_count_arr c (superpixels st))
      as [ins'|] eqn:Hins; [|inversion Hin].
    apply list_elem_of_singleton in Hin. subst ins'.
    exists [], c, cells, st. auto.
  - destruct (IH st1 ins Hin) as (done & cell & rest & st' & -> & Hrun & Hins).
    exists (c :: done), cell, rest, st'. split; [reflexivity|]. split; [|exact Hins].
    simpl. rewrite Hstep. exact Hrun.
Qed.

(** On a grid within the reference resolution, every record of at most
    65793 pixels that the pass inserts is filed under the key as the
    specification words it: its colour sums are at most [255 * 65793], which
    is below [2^24]. *)
Lemma inserted_keys_mixed_radix (superpixel_count : Z) (table : gmap Z (list HashKey)) :
  Z.of_nat (cols labels) <= max_img_w ->
  Z.of_nat (rows labels) <= max_img_h ->
  Forall (fun ins : Z * Z * HashKey =>
            pixel_count (snd ins) <= 65793 ->
            KeySpec.exact_on (snd ins) /\ snd (fst ins) = KeySpec.bucket_key (snd ins))
         (Hash_insertions input_image labels pixel_count_arr (scan labels)
            (Hash_init superpixel_count table)).
Proof.
  intros Hw Hh. apply Forall_forall. intros [[sp key] record] Hin.
  destruct (Hash_insertions_elem _ _ _ Hin) as (done & cell & rest & st & Hs & Hrun & Hins).
  assert (Hlen : Z.of_nat (length (done ++ [cell])) <= max_img_w * max_img_h).
  { pose proof (scan_length labels) as Hl. rewrite Hs in Hl.
    rewrite !length_app in *. simpl in *. unfold max_img_w, max_img_h in *. nia. }
  assert (Hlen' : Z.of_nat (length done) < max_img_w * max_img_h).
  { rewrite length_app in Hlen. simpl in Hlen. lia. }
  destruct (Hash_loop_inv input_image labels pixel_count_arr done []
              (Hash_init superpixel_count table) st) as [Hinv _]; auto.
  { apply agg_inv_calloc. }
  { simpl. unfold max_img_w, max_img_h, ULONG_MAX in *. lia. }
  simpl in Hinv.
  destruct (Hash_cell_insertion_Some _ _ _ _ _ _ _ _ Hins)
    as (Hsp & Hkey & Hns & curr & Hc & Hrecord & _).
  assert (Hrec : record_inv input_image labels (done ++ [cell]) sp record).
  { rewrite Hrecord. apply record_inv_accumulate; auto.
    unfold max_img_w, max_img_h, ULONG_MAX in *. lia. }
  assert (Hcell : cell ∈ cells_of labels sp (done ++ [cell])).
  { unfold cells_of. apply list_elem_of_filter. split; [auto|].
    apply elem_of_app. right. left. }
  pose proof (count_cells_le_length labels sp (done ++ [cell])) as Hcl.
  assert (Hpos : 0 < count_cells labels sp (done ++ [cell])).
  { unfold count_cells. destruct (cells_of labels sp (done ++ [cell]));
      [inversion Hcell|simpl; lia]. }
  destruct (inv_sums _ _ _ _ _ Hrec) as (El & Ea & Eb).
  { unfold max_img_w, max_img_h, LONG_MAX in *. lia. }
  pose proof (channel_sum_range input_image labels 0 sp (done ++ [cell])).
  pose proof (channel_sum_range input_image labels 1 sp (done ++ [cell])).
  pose proof (channel_sum_range input_image labels 2 sp (done ++ [cell])).
  destruct (inv_hull _ _ _ _ _ Hrec max_img_w max_img_h) as (X1 & X2 & Y1 & Y2).
  { intros c Hc'. unfold cells_of in Hc'. apply list_elem_of_filter in Hc' as [_ Hc'].
    assert (Hscan : c ∈ scan labels).
    { rewrite Hs. replace (done ++ cell :: rest) with ((done ++ [cell]) ++ rest)
        by (rewrite <- app_assoc; reflexivity).
      apply elem_of_app. left. exact Hc'. }
    apply scan_elem in Hscan. lia. }
  { exact Hpos. }
  destruct (inv_box _ _ _ _ _ Hrec cell Hcell) as [Bx By].
  simpl. intros Hsmall.
  assert (Hdef : KeySpec.exact_on record).
  { pose proof (inv_count _ _ _ _ _ Hrec) as Ecount.
    unfold KeySpec.exact_on. rewrite El, Ea, Eb.
    unfold max_img_w, max_img_h in *. lia. }
  split; [exact Hdef|]. rewrite Hkey.
  apply calculate_hash_key_exact. exact Hdef.
Qed.

End KeysOfInsertions.

(** * Properties of the table *)

Section TableFacts.

Implicit Types (table : gmap Z (list HashKey)) (key : Z) (record : HashKey).

Lemma table_inv_empty : table_inv ∅.
Proof. intros key bucket H. rewrite lookup_empty in H. discriminate. Qed.

Lemma push_back_lookup key record table key' :
  push_back key record table !! key'
  = if decide (key = key') then Some (default [] (table !! key) ++ [record])
    else table !! key'.
Proof. unfold push_back. apply lookup_insert. Qed.

(** Appending a record with pixels and an owner under its own key keeps the
    invariant of the table. *)
Lemma push_back_inv key record table :
  table_inv table ->
  0 < pixel_count record ->
  calculate_hash_key record = key ->
  original_image record <> nullptr ->
  table_inv (push_back key record table).
Proof.
  intros Hinv Hp Hk Ho key' bucket. rewrite push_back_lookup.
  destruct (decide (key = key')) as [<-|N].
  - intros H. inversion H. apply Forall_app. split.
    + destruct (table !! key) as [l|] eqn:El; simpl; [|constructor].
      apply (Hinv key l El).
    + constructor; [auto|constructor].
  - apply Hinv.
Qed.

Lemma replay_inv insertions : forall table,
  table_inv table ->
  Forall (fun ins : Z * Z * HashKey =>
            snd (fst ins) = calculate_hash_key (snd ins) /\
            0 < pixel_count (snd ins) /\
            original_image (snd ins) <> nullptr) insertions ->
  table_inv (replay insertions table).
Proof.
  induction insertions as [|ins l IH]; intros table Hinv Hl; simpl; [exact Hinv|].
  apply Forall_cons in Hl as [(Hk & Hp & Ho) Hl].
  apply IH; [|exact Hl]. apply push_back_inv; auto.
Qed.

Lemma sum_pixel_count_app (l1 l2 : list HashKey) :
  sum_pixel_count (l1 ++ l2) = sum_pixel_count l1 + sum_pixel_count l2.
Proof.
  unfold sum_pixel_count. induction l1 as [|r l1 IH]; simpl; [reflexivity|]. lia.
Qed.

Lemma sum_pixel_count_perm (l1 l2 : list HashKey) :
  l1 ≡ₚ l2 -> sum_pixel_count l1 = sum_pixel_count l2.
Proof.
  unfold sum_pixel_count. induction 1; simpl; lia.
Qed.

(** The records of a table after [push_back] are those before it and the
    new one. *)
Lemma push_back_records key record table :
  table_records (push_back key record table) ≡ₚ record :: table_records table.
Proof.
  unfold table_records, push_back.
  destruct (table !! key) as [l|] eqn:El; simpl.
  - rewrite <- (insert_delete_eq table key (l ++ [record])).
    rewrite (Permutation_flat_map snd
               (map_to_list_insert (delete key table) key (l ++ [record])
                  (lookup_delete_eq table key))).
    rewrite <- (Permutation_flat_map snd (map_to_list_delete table key l El)).
    simpl. rewrite <- app_assoc. simpl.
    symmetry. apply Permutation_middle.
  - rewrite (Permutation_flat_map snd (map_to_list_insert table key [record] El)).
    simpl. reflexivity.
Qed.

Lemma replay_records insertions : forall table,
  sum_pixel_count (table_records (replay insertions table))
  = sum_pixel_count (table_records table) + sum_pixel_count (map snd insertions).
Proof.
  induction insertions as [|ins l IH]; intros table; simpl.
  - unfold sum_pixel_count at 3. simpl. lia.
  - rewrite IH, (sum_pixel_count_perm _ _ (push_back_records _ _ _)).
    unfold sum_pixel_count. simpl. lia.
Qed.

End TableFacts.

(** In a fresh array no record has pixels. *)
Lemma Hash_init_owner (superpixel_count : Z) (table : gmap Z (list HashKey)) :
  forall record, record ∈ superpixels (Hash_init superpixel_count table) ->
    pixel_count record <> 0 -> original_image record <> nullptr.
Proof.
  simpl. intros record Hin. unfold calloc_HashKey in Hin.
  apply elem_of_replicate in Hin as [-> _]. simpl. intros N. contradiction.
Qed.

(** [Hash] keeps the invariant of the table, whatever its arguments and
    however the pass ends. *)
Lemma Hash_table_inv (table : gmap Z (list HashKey)) (input_image : Mat Vec3b)
    (labels : Mat Z) (superpixel_count : Z) (pixel_count_arr : list Z) :
  table_inv table ->
  table_inv (snd (Hash table input_image labels superpixel_count pixel_count_arr)).
Proof.
  intros Hinv. unfold Hash.
  pose proof (Hash_loop_insertions input_image labels pixel_count_arr (scan labels)
                (Hash_init superpixel_count table)) as Hrep.
  destruct (Hash_loop input_image labels pixel_count_arr (scan labels)
              (Hash_init superpixel_count table)) as [s st].
  simpl in *. rewrite Hrep. apply replay_inv; [exact Hinv|].
  eapply Forall_impl.
  - apply Hash_insertions_sound. apply Hash_init_owner.
  - simpl. intros ins (_ & H). exact H.
Qed.

(** * The pixel counts of a pass *)

Section FilterCounting.

Context {A : Type} (P Q R : A -> Prop)
        `{!forall x, Decision (P x), !forall x, Decision (Q x), !forall x, Decision (R x)}.

Lemma length_filter_iff (l : list A) :
  (forall x, x ∈ l -> (P x <-> Q x)) ->
  length (filter P l) = length (filter Q l).
Proof.
  induction l as [|x l IH]; intros Hl; [reflexivity|].
  rewrite !filter_cons.
  assert (Hx := Hl x ltac:(left)).
  assert (IH' := IH (fun y Hy => Hl y ltac:(right; exact Hy))).
  destruct (decide (P x)), (decide (Q x)); simpl; try tauto; lia.
Qed.

Lemma length_filter_or (l : list A) :
  (forall x, x ∈ l -> (P x <-> Q x \/ R x)) ->
  (forall x, x ∈ l -> Q x -> R x -> False) ->
  length (filter P l) = (length (filter Q l) + length (filter R l))%nat.
Proof.
  induction l as [|x l IH]; intros Hl1 Hl2; [reflexivity|].
  rewrite !filter_cons.
  assert (Hx := Hl1 x ltac:(left)). assert (Hx' := Hl2 x ltac:(left)).
  assert (IH' := IH (fun y Hy => Hl1 y ltac:(right; exact Hy))
                    (fun y Hy => Hl2 y ltac:(right; exact Hy))).
  destruct (decide (P x)), (decide (Q x)), (decide (R x)); simpl; try tauto; lia.
Qed.

End FilterCounting.

Section PixelCounts.

Variables (input_image : Mat Vec3b) (labels : Mat Z) (pixel_count_arr : list Z).
Implicit Types (cell : nat * nat) (done cells rest all : list (nat * nat)) (sp : Z)
               (st : HashState).

Lemma completed_all all : completed labels all all = all.
Proof.
  unfold completed.
  assert (G : forall l : list (nat * nat),
            filter (fun cell => count_cells labels (label_at labels cell) all
                                = count_cells labels (label_at labels cell) all) l = l).
  { induction l as [|c l IH]; [reflexivity|].
    rewrite filter_cons_True by reflexivity. rewrite IH. reflexivity. }
  apply G.
Qed.

(** Visiting one more cell completes its region or changes nothing. *)
Lemma completed_snoc all done cell rest :
  all = done ++ cell :: rest ->
  Z.of_nat (length (completed labels all (done ++ [cell])))
  = Z.of_nat (length (completed labels all done))
    + (if decide (count_cells labels (label_at labels cell) (done ++ [cell])
                  = count_cells labels (label_at labels cell) all)
       then count_cells labels (label_at labels cell) (done ++ [cell]) else 0).
Proof.
  intros Hall. set (sp := label_at labels cell).
  assert (Htot : count_cells labels sp all
                 = count_cells labels sp (done ++ [cell]) + count_cells labels sp rest).
  { rewrite Hall. replace (done ++ cell :: rest) with ((done ++ [cell]) ++ rest)
      by (rewrite <- app_assoc; reflexivity).
    apply count_cells_app. }
  assert (Hsnoc : count_cells labels sp (done ++ [cell]) = count_cells labels sp done + 1).
  { rewrite count_cells_snoc. fold sp. destruct (decide (sp = sp)); [reflexivity|contradiction]. }
  assert (Hother : forall x, label_at labels x <> sp ->
            count_cells labels (label_at labels x) (done ++ [cell])
            = count_cells labels (label_at labels x) done).
  { intros x Hx. rewrite count_cells_snoc. fold sp.
    destruct (decide (sp = label_at labels x)); [congruence|lia]. }
  pose proof (count_cells_nonneg labels sp rest) as Hrest.
  unfold completed at 1. rewrite filter_app, length_app, filter_cons, filter_nil.
  fold sp.
  destruct (decide (count_cells labels sp (done ++ [cell]) = count_cells labels sp all))
    as [Fire|NoFire].
  - rewrite (length_filter_or _
               (fun c => count_cells labels (label_at labels c) done
                         = count_cells labels (label_at labels c) all)
               (fun c => label_at labels c = sp)).
    + fold (completed labels all done). fold (cells_of labels sp done).
      simpl length. rewrite Hsnoc. unfold count_cells. lia.
    + intros x _. destruct (Z.eq_dec (label_at labels x) sp) as [E|N].
      * rewrite E. tauto.
      * rewrite (Hother x N). tauto.
    + intros x _ Hq E. rewrite E in Hq. lia.
  - rewrite (length_filter_iff _
               (fun c => count_cells labels (label_at labels c) done
                         = count_cells labels (label_at labels c) all)).
    + fold (completed labels all done). simpl length. lia.
    + intros x _. destruct (Z.eq_dec (label_at labels x) sp) as [E|N].
      * rewrite E. split; intros H; lia.
      * rewrite (Hother x N). tauto.
Qed.

(** Under the invariant, the insertion at a cell is decided by the running
    count alone. *)
Lemma Hash_cell_insertion_decided done cell st curr expected :
  agg_inv input_image labels done (superpixels st) ->
  Z.of_nat (length done) < ULONG_MAX ->
  array_get (superpixels st) (label_at labels cell) = Some curr ->
  array_get pixel_count_arr (label_at labels cell) = Some expected ->
  pixel_count (accumulate_at input_image cell curr)
  = count_cells labels (label_at labels cell) (done ++ [cell]) /\
  Hash_cell_insertion input_image labels pixel_count_arr cell (superpixels st)
  = if decide (count_cells labels (label_at labels cell) (done ++ [cell]) = expected)
    then Some (label_at labels cell,
               calculate_hash_key (accumulate_at input_image cell curr),
               accumulate_at input_image cell curr)
    else None.
Proof.
  intros Hinv Hlen Hc He.
  assert (Hr := record_inv_accumulate input_image labels done cell _ curr
                  (Hinv _ _ Hc) eq_refl Hlen).
  pose proof (inv_count _ _ _ _ _ Hr) as Hcount. split; [exact Hcount|].
  unfold Hash_cell_insertion, label_at, accumulate_at in *.
  destruct cell as [row col]. simpl in *. rewrite Hc, He, Hcount.
  match goal with |- context [calculate_hash_key ?r] => set (rec := r) in * end.
  destruct (decide (count_cells labels (mat_at labels row col) (done ++ [(row, col)]) = expected))
    as [E|N].
  - rewrite E, Z.eqb_refl. simpl.
    assert (Hnz : pixel_count rec <> 0).
    { rewrite Hcount, count_cells_snoc. unfold label_at. simpl.
      pose proof (count_cells_nonneg labels (mat_at labels row col) done).
      destruct (decide (mat_at labels row col = mat_at labels row col)); [lia|contradiction]. }
    destruct (calculate_hash_key_nonzero rec Hnz) as (l & a & b & x & y & Hrange & Hk).
    destruct (Z.eqb_spec (calculate_hash_key rec) (-1)); [lia|]. reflexivity.
  - destruct (Z.eqb_spec (count_cells labels (mat_at labels row col) (done ++ [(row, col)]))
                expected); [contradiction|]. reflexivity.
Qed.

(** With true expected counts, the pixel counts of the records inserted by
    a run add up to the number of cells whose region the run completes. *)
Lemma insertions_sum all cells : forall done st st',
  all = done ++ cells ->
  agg_inv input_image labels done (superpixels st) ->
  Z.of_nat (length all) <= ULONG_MAX ->
  (forall sp expected, array_get pixel_count_arr sp = Some expected ->
                       expected = count_cells labels sp all) ->
  Hash_loop input_image labels pixel_count_arr cells st = (Returned, st') ->
  sum_pixel_count (map snd (Hash_insertions input_image labels pixel_count_arr cells st))
  = Z.of_nat (length (completed labels all (done ++ cells)))
    - Z.of_nat (length (completed labels all done)).
Proof.
  induction cells as [|c cells IH]; intros done st st' Hall Hinv Hlen Htrue Hrun;
    simpl in *.
  - rewrite app_nil_r. unfold sum_pixel_count. simpl. lia.
  - destruct (Hash_cell input_image labels pixel_count_arr c st) as [st1|] eqn:Hstep;
      [|discriminate].
    assert (Hlen1 : Z.of_nat (length done) < ULONG_MAX).
    { rewrite Hall, length_app in Hlen. simpl in Hlen. lia. }
    assert (Hinv1 := Hash_cell_inv _ _ _ done c st st1 Hinv Hlen1 Hstep).
    destruct (Hash_cell_superpixels _ _ _ _ _ _ Hstep) as (curr & e & Hc & He & _).
    destruct (Hash_cell_insertion_decided done c st curr e Hinv Hlen1 Hc He) as [Hpc Hins].
    rewrite Hins, map_app, sum_pixel_count_app.
    assert (Hall1 : all = (done ++ [c]) ++ cells)
      by (rewrite <- app_assoc; exact Hall).
    rewrite (IH (done ++ [c]) st1 st' Hall1 Hinv1 Hlen Htrue Hrun).
    rewrite <- app_assoc. simpl app.
    rewrite (completed_snoc all done c cells Hall).
    rewrite <- (Htrue _ _ He).
    destruct (decide (count_cells labels (label_at labels c) (done ++ [c]) = e)).
    + unfold sum_pixel_count at 1. simpl. rewrite Hpc. lia.
    + unfold sum_pixel_count at 1. simpl. lia.
Qed.

End PixelCounts.

Section PassTheorems.

Variables (input_image : Mat Vec3b) (labels : Mat Z) (pixel_count_arr : list Z)
          (superpixel_count : Z) (table : gmap Z (list HashKey)).

Lemma array_get_counts_are_true :
  counts_are_true labels pixel_count_arr ->
  forall sp expected,
    array_get pixel_count_arr sp = Some expected ->
    expected = count_cells labels sp (scan labels).
Proof.
  intros Htrue sp e He. destruct (array_get_Some _ _ _ He) as [H0 _].
  unfold array_get in He. destruct (Z.ltb_spec sp 0); [lia|].
  rewrite (Htrue _ _ He). rewrite Z2Nat.id by lia. reflexivity.
Qed.

(** The table that [Hash] leaves is the table of the loop. *)
Lemma Hash_eq_loop s st :
  Hash_loop input_image labels pixel_count_arr (scan labels)
    (Hash_init superpixel_count table) = (s, st) ->
  Hash table input_image labels superpixel_count pixel_count_arr = (s, hashTable st).
Proof. intros H. unfold Hash. rewrite H. reflexivity. Qed.

(** C6. For a grid whose cells all hold identifiers in
    [[0, region_count)] and whose expected counts are the true numbers of
    cells per identifier, the pass returns and the pixel counts of the
    records it inserts into the table add up to [rows * cols]. *)
Theorem inserted_pixel_counts_sum :
  dims_are_int labels ->
  one_per_region pixel_count_arr superpixel_count ->
  labels_in_range labels superpixel_count (scan labels) ->
  counts_are_true labels pixel_count_arr ->
  exists table',
    Hash table input_image labels superpixel_count pixel_count_arr = (Returned, table') /\
    table' = replay (Hash_insertions input_image labels pixel_count_arr (scan labels)
                       (Hash_init superpixel_count table)) table /\
    sum_pixel_count
      (map snd (Hash_insertions input_image labels pixel_count_arr (scan labels)
                  (Hash_init superpixel_count table)))
    = Z.of_nat (rows labels) * Z.of_nat (cols labels) /\
    sum_pixel_count (table_records table')
    = sum_pixel_count (table_records table)
      + Z.of_nat (rows labels) * Z.of_nat (cols labels).
Proof.
  intros Hd Hp Hr Htrue.
  pose proof (scan_fits_ulong labels Hd) as Hlen.
  destruct (Hash_loop_from_init input_image labels pixel_count_arr superpixel_count table
              (scan labels) Hlen Hr Hp) as (st & Hst & _ & _).
  pose proof (Hash_loop_insertions input_image labels pixel_count_arr (scan labels)
                (Hash_init superpixel_count table)) as Hrep.
  rewrite Hst in Hrep. simpl in Hrep.
  assert (Hsum : sum_pixel_count
            (map snd (Hash_insertions input_image labels pixel_count_arr (scan labels)
                        (Hash_init superpixel_count table)))
          = Z.of_nat (rows labels) * Z.of_nat (cols labels)).
  { rewrite (insertions_sum input_image labels pixel_count_arr (scan labels) (scan labels)
               [] (Hash_init superpixel_count table) st eq_refl
               (agg_inv_calloc input_image labels superpixel_count) Hlen
               (array_get_counts_are_true Htrue) Hst).
    simpl app. rewrite completed_all, scan_length.
    unfold completed. rewrite filter_nil. simpl. lia. }
  exists (hashTable st). split; [apply Hash_eq_loop; exact Hst|].
  split; [exact Hrep|]. split; [exact Hsum|].
  rewrite Hrep, replay_records, Hsum. reflexivity.
Qed.

(** C8. [calculate_hash_key] returns the sentinel exactly for the records
    with [pixel_count = 0]; after a pass over a grid of valid identifiers
    the record of an identifier that occurs in no cell still has
    [pixel_count = 0] and no insertion was made for it; and every record
    reachable from the table has [pixel_count > 0]. *)
Theorem empty_regions_never_indexed :
  dims_are_int labels ->
  one_per_region pixel_count_arr superpixel_count ->
  labels_in_range labels superpixel_count (scan labels) ->
  table_inv table ->
  (forall key : HashKey, calculate_hash_key key = sentinel <-> pixel_count key = 0) /\
  exists st,
    Hash_loop input_image labels pixel_count_arr (scan labels)
      (Hash_init superpixel_count table) = (Returned, st) /\
    Hash table input_image labels superpixel_count pixel_count_arr
    = (Returned, hashTable st) /\
    (forall sp,
       (forall cell, cell ∈ scan labels -> label_at labels cell <> sp) ->
       (forall record, array_get (superpixels st) sp = Some record ->
                       pixel_count record = 0) /\
       insertions_of sp (Hash_insertions input_image labels pixel_count_arr (scan labels)
                           (Hash_init superpixel_count table)) = []) /\
    (forall key bucket record,
       hashTable st !! key = Some bucket -> record ∈ bucket -> 0 < pixel_count record).
Proof.
  intros Hd Hp Hr Hinv. split.
  { intros key. split.
    - intros E. destruct (Z.eq_dec (pixel_count key) 0) as [E0|N0]; [exact E0|].
      destruct (calculate_hash_key_nonzero key N0) as (l & a & b & x & y & Hrange & Hk).
      unfold sentinel in E. lia.
    - intros E. unfold calculate_hash_key. rewrite E. reflexivity. }
  pose proof (scan_fits_ulong labels Hd) as Hlen.
  destruct (Hash_loop_from_init input_image labels pixel_count_arr superpixel_count table
              (scan labels) Hlen Hr Hp) as (st & Hst & Hagg & _).
  exists st. split; [exact Hst|]. split; [apply Hash_eq_loop; exact Hst|]. split.
  - intros sp Hno. split.
    + intros record Hget. rewrite (inv_count _ _ _ _ _ (Hagg sp record Hget)).
      unfold count_cells.
      destruct (cells_of labels sp (scan labels)) as [|c l] eqn:Ec; [reflexivity|].
      assert (Hc : c ∈ cells_of labels sp (scan labels)) by (rewrite Ec; left).
      unfold cells_of in Hc. apply list_elem_of_filter in Hc as [Hl Hin].
      destruct (Hno c Hin Hl).
    + pose proof (Hash_insertions_sound input_image labels pixel_count_arr (scan labels)
                    (Hash_init superpixel_count table)
                    (Hash_init_owner superpixel_count table)) as Hs.
      unfold insertions_of.
      induction Hs as [|ins l Hins _ IH].
      * reflexivity.
      * destruct Hins as ((cell & Hin & Hl) & _).
        rewrite filter_cons_False; [exact IH|].
        intros E. apply (Hno cell Hin). congruence.
  - intros key bucket record Hb Hin.
    pose proof (Hash_table_inv table input_image labels superpixel_count pixel_count_arr Hinv)
      as Hinv'.
    rewrite (Hash_eq_loop _ _ Hst) in Hinv'. simpl in Hinv'.
    pose proof (Hinv' key bucket Hb) as Hf.
    rewrite Forall_forall in Hf. apply (Hf record Hin).
Qed.

(** C5, as the code has it.  [Hash] does not check identifiers.  When the
    first cell with an identifier outside [[0, region_count)] is reached,
    the pass indexes the record array outside its bounds there; the table
    then holds every record inserted for the cells before that cell. *)
Theorem Hash_unchecked_label (done rest : list (nat * nat)) (cell : nat * nat) :
  dims_are_int labels ->
  one_per_region pixel_count_arr superpixel_count ->
  scan labels = done ++ cell :: rest ->
  labels_in_range labels superpixel_count done ->
  ~ (0 <= label_at labels cell < superpixel_count) ->
  exists st,
    Hash_loop input_image labels pixel_count_arr done (Hash_init superpixel_count table)
    = (Returned, st) /\
    Hash table input_image labels superpixel_count pixel_count_arr
    = (OutOfBounds, hashTable st) /\
    hashTable st
    = replay (Hash_insertions input_image labels pixel_count_arr done
                (Hash_init superpixel_count table)) table.
Proof.
  intros Hd Hp Hs Hr Hbad.
  assert (Hlen : Z.of_nat (length done) <= ULONG_MAX)
    by (eapply prefix_fits_ulong; eassumption).
  destruct (Hash_loop_from_init input_image labels pixel_count_arr superpixel_count table
              done Hlen Hr Hp) as (st & Hst & _ & Hn).
  exists st. split; [exact Hst|]. split.
  - apply Hash_eq_loop. rewrite Hs, Hash_loop_app, Hst. simpl.
    rewrite Hash_cell_out_of_range; [reflexivity|]. rewrite Hn. exact Hbad.
  - pose proof (Hash_loop_insertions input_image labels pixel_count_arr done
                  (Hash_init superpixel_count table)) as Hrep.
    rewrite Hst in Hrep. exact Hrep.
Qed.

End PassTheorems.

(** * Properties of the voting *)

Section VoteFacts.

Implicit Types (table : gmap Z (list HashKey)) (match_counts : gmap mat_ptr Z)
               (p image : mat_ptr) (query record : HashKey).

Lemma wrap_signed_add_idem x y :
  wrap_signed 32 (wrap_signed 32 x + y) = wrap_signed 32 (x + y).
Proof.
  unfold wrap_signed. f_equal.
  replace (((x + 2 ^ (32 - 1)) mod 2 ^ 32 - 2 ^ (32 - 1)) + y + 2 ^ (32 - 1))
    with ((x + 2 ^ (32 - 1)) mod 2 ^ 32 + y) by lia.
  rewrite Zplus_mod_idemp_l. f_equal. lia.
Qed.

Lemma wrap_signed_int x : is_int x -> wrap_signed 32 x = x.
Proof.
  unfold is_int, INT_MIN, INT_MAX. intros H.
  apply wrap_signed_small; [lia|]. change (32 - 1) with 31. lia.
Qed.

Lemma tally_empty p : tally ∅ p = 0.
Proof. unfold tally. rewrite lookup_empty. reflexivity. Qed.

Lemma tally_increment p match_counts image :
  tally (increment p match_counts) image
  = if decide (p = image) then int_add (tally match_counts p) 1
    else tally match_counts image.
Proof.
  unfold tally, increment. rewrite lookup_insert.
  destruct (decide (p = image)); reflexivity.
Qed.

(** The votes of a bucket: one for each of its records that the image
    owns. *)
Lemma tally_vote_matches image (matches : list HashKey) : forall match_counts n,
  tally match_counts image = wrap_signed 32 n ->
  tally (vote_matches matches match_counts) image
  = wrap_signed 32
      (n + Z.of_nat (length (filter (fun record => original_image record = image) matches))).
Proof.
  induction matches as [|r matches IH]; intros mc n Hn; simpl.
  - rewrite Z.add_0_r. exact Hn.
  - rewrite filter_cons.
    destruct (decide (original_image r = image)) as [E|N].
    + rewrite (IH _ (n + 1)).
      * simpl length. f_equal. lia.
      * rewrite tally_increment, E.
        destruct (decide (image = image)); [|contradiction].
        rewrite Hn. unfold int_add. apply wrap_signed_add_idem.
    + apply IH. rewrite tally_increment.
      destruct (decide (original_image r = image)); [contradiction|]. exact Hn.
Qed.

Lemma tally_vote_record table image query match_counts n :
  tally match_counts image = wrap_signed 32 n ->
  tally (vote_record table match_counts query) image
  = wrap_signed 32 (n + votes_of_query table image query).
Proof.
  intros Hn. unfold vote_record, votes_of_query, owned_in_bucket, sentinel.
  destruct (calculate_hash_key query =? -1).
  - rewrite Z.add_0_r. exact Hn.
  - destruct (table !! calculate_hash_key query) as [matches|]; simpl.
    + apply tally_vote_matches. exact Hn.
    + rewrite Z.add_0_r. exact Hn.
Qed.

Lemma tally_fold_vote table image (queries : list HashKey) : forall match_counts n,
  tally match_counts image = wrap_signed 32 n ->
  tally (fold_left (vote_record table) queries match_counts) image
  = wrap_signed 32 (n + foldr Z.add 0 (map (votes_of_query table image) queries)).
Proof.
  induction queries as [|q queries IH]; intros mc n Hn; simpl.
  - rewrite Z.add_0_r. exact Hn.
  - rewrite (IH _ (n + votes_of_query table image q)).
    + f_equal. lia.
    + apply tally_vote_record. exact Hn.
Qed.

(** A record of the table lies in one of its buckets. *)
Lemma table_records_elem table record :
  record ∈ table_records table ->
  exists key bucket, table !! key = Some bucket /\ record ∈ bucket.
Proof.
  unfold table_records. rewrite list_elem_of_In, in_flat_map.
  intros ([key bucket] & Hin & Hr). exists key, bucket.
  apply list_elem_of_In in Hin. apply list_elem_of_In in Hr.
  apply elem_of_map_to_list in Hin. auto.
Qed.

Lemma filter_none {A} (P : A -> Prop) `{!forall x, Decision (P x)} (l : list A) :
  (forall x, x ∈ l -> ~ P x) -> filter P l = [].
Proof.
  induction l as [|x l IH]; intros Hl; [reflexivity|].
  rewrite filter_cons_False by (apply Hl; left).
  apply IH. intros y Hy. apply Hl. right. exact Hy.
Qed.

(** The records of a table: those of one bucket and those of the others. *)
Lemma table_records_delete table key bucket :
  table !! key = Some bucket ->
  table_records table ≡ₚ bucket ++ table_records (delete key table).
Proof.
  intros Hb. unfold table_records.
  rewrite <- (Permutation_flat_map snd (map_to_list_delete table key bucket Hb)).
  reflexivity.
Qed.

(** In a table with the invariant, the records that collide with a query
    record are those its bucket holds for the image. *)
Lemma colliding_bucket table image query :
  table_inv table ->
  Z.of_nat (length (colliding table image query)) = votes_of_query table image query.
Proof.
  intros Hinv. unfold colliding, votes_of_query, owned_in_bucket.
  destruct (Z.eqb_spec (calculate_hash_key query) sentinel) as [E|N].
  - rewrite filter_none; [reflexivity|]. intros r _. tauto.
  - set (k := calculate_hash_key query) in *.
    destruct (table !! k) as [bucket|] eqn:Hk; simpl.
    + rewrite (filter_Permutation _ _ _ (table_records_delete table k bucket Hk)).
      rewrite filter_app, length_app.
      rewrite (filter_none _ (table_records (delete k table))).
      * simpl. rewrite Nat.add_0_r. f_equal. apply length_filter_iff.
        intros r Hr. pose proof (Hinv k bucket Hk) as Hf.
        rewrite Forall_forall in Hf. destruct (Hf r Hr) as (_ & Hkr & _).
        split; [tauto|]. intros Ho. auto.
      * intros r Hr (Hkr & _).
        destruct (table_records_elem _ _ Hr) as (key & b & Hb & Hin).
        destruct (decide (k = key)) as [<-|Hne].
        -- rewrite lookup_delete_eq in Hb. discriminate.
        -- rewrite lookup_delete_ne in Hb by exact Hne.
           pose proof (Hinv key b Hb) as Hf. rewrite Forall_forall in Hf.
           destruct (Hf r Hin) as (_ & Hkey & _). congruence.
    + rewrite filter_none; [reflexivity|].
      intros r Hr (Hkr & _).
      destruct (table_records_elem _ _ Hr) as (key & b & Hb & Hin).
      pose proof (Hinv key b Hb) as Hf. rewrite Forall_forall in Hf.
      destruct (Hf r Hin) as (_ & Hkey & _). congruence.
Qed.

(** The number of colliding pairs is the sum of the votes of the query
    records. *)
Lemma colliding_pairs_length table (queries : list HashKey) image :
  table_inv table ->
  Z.of_nat (length (colliding_pairs table queries image))
  = foldr Z.add 0 (map (votes_of_query table image) queries).
Proof.
  intros Hinv. unfold colliding_pairs.
  induction queries as [|q queries IH]; simpl; [reflexivity|].
  rewrite length_app, length_map, Nat2Z.inj_add, IH, (colliding_bucket _ _ _ Hinv).
  reflexivity.
Qed.

(** There are no more colliding pairs than pairs. *)
Lemma colliding_pairs_bound table (queries : list HashKey) image :
  (length (colliding_pairs table queries image)
   <= length queries * length (table_records table))%nat.
Proof.
  unfold colliding_pairs.
  induction queries as [|q queries IH]; simpl; [lia|].
  rewrite length_app, length_map.
  assert (Hf : (length (colliding table image q) <= length (table_records table))%nat)
    by apply length_filter.
  lia.
Qed.

(** The tally of an image after the voting, with the wrap-around of
    [int]. *)
Lemma tally_vote table (queries : list HashKey) image :
  table_inv table ->
  tally (vote table queries) image
  = wrap_signed 32 (Z.of_nat (length (colliding_pairs table queries image))).
Proof.
  intros Hinv. unfold vote.
  rewrite (tally_fold_vote table image queries ∅ 0).
  - rewrite colliding_pairs_length by exact Hinv. reflexivity.
  - rewrite tally_empty. reflexivity.
Qed.

End VoteFacts.

Section VoteTheorems.

Variables (table : gmap Z (list HashKey)) (queries : list HashKey).

(** C3. In a table built by [Hash], a query record whose key is the
    sentinel casts no vote, and any other adds to the tally of an image one
    vote for every record of its key's bucket that the image owns (five for
    five such records); so the final tally of an image is the number of
    pairs of a query record and an indexed record with equal keys, not the
    sentinel, the indexed record owned by the image.  The tally is an [int]:
    the equalities hold as long as the numbers fit, and modulo [2^32] in
    general. *)
Theorem votes_count_collisions (image : mat_ptr) :
  table_inv table ->
  (forall match_counts query,
     calculate_hash_key query = sentinel ->
     vote_record table match_counts query = match_counts) /\
  (forall match_counts query,
     calculate_hash_key query <> sentinel ->
     is_int (tally match_counts image) ->
     tally (vote_record table match_counts query) image
     = wrap_signed 32
         (tally match_counts image
          + Z.of_nat (length (owned_in_bucket table (calculate_hash_key query) image)))) /\
  tally (vote table queries) image
  = wrap_signed 32 (Z.of_nat (length (colliding_pairs table queries image))) /\
  (Z.of_nat (length (colliding_pairs table queries image)) <= INT_MAX ->
   tally (vote table queries) image
   = Z.of_nat (length (colliding_pairs table queries image))).
Proof.
  intros Hinv. split; [|split; [|split]].
  - intros mc query E. unfold vote_record. rewrite E. reflexivity.
  - intros mc query N Hint.
    rewrite (tally_vote_record table image query mc (tally mc image)).
    + unfold votes_of_query. destruct (Z.eqb_spec (calculate_hash_key query) sentinel);
        [contradiction|reflexivity].
    + symmetry. apply wrap_signed_int. exact Hint.
  - apply tally_vote. exact Hinv.
  - intros Hle. rewrite tally_vote by exact Hinv.
    apply wrap_signed_int. unfold is_int, INT_MIN. lia.
Qed.

End VoteTheorems.

(** * Properties of the selection *)

Section BestMatchFacts.

Implicit Types (match_counts : gmap mat_ptr Z) (l : list (mat_ptr * Z)).

Lemma select_fold l : forall acc,
  snd acc <= snd (fold_left select l acc) /\
  (forall pair, pair ∈ l -> snd pair <= snd (fold_left select l acc)) /\
  (fold_left select l acc = acc \/
   (fold_left select l acc ∈ l /\ snd acc < snd (fold_left select l acc))).
Proof.
  induction l as [|x l IH]; intros acc; simpl.
  - split; [lia|]. split; [|left; reflexivity]. intros pair Hp. inversion Hp.
  - destruct (IH (select acc x)) as (H1 & H2 & H3).
    assert (Hs : snd acc <= snd (select acc x) /\ snd x <= snd (select acc x) /\
                 (select acc x = acc \/ (select acc x = x /\ snd acc < snd x))).
    { unfold select. destruct acc as [b m], x as [p c]. simpl.
      destruct (Z.gtb_spec c m); simpl; repeat split; try lia; auto. }
    destruct Hs as (Hs1 & Hs2 & Hs3).
    split; [lia|]. split.
    + intros pair Hp. apply elem_of_cons in Hp as [->|Hp]; [lia|]. apply H2. exact Hp.
    + destruct H3 as [H3|[H3 H3']].
      * rewrite H3. destruct Hs3 as [->|[-> Hlt]]; [left; reflexivity|].
        right. split; [left|exact Hlt].
      * right. split; [right; exact H3|lia].
Qed.

Lemma best_match_fold match_counts :
  best_match match_counts = fold_left select (entries match_counts) (nullptr, 0).
Proof. reflexivity. Qed.

Lemma elem_of_entries match_counts p c :
  (p, c) ∈ entries match_counts <-> match_counts !! p = Some c.
Proof.
  unfold entries. rewrite merge_sort_Permutation. apply elem_of_map_to_list.
Qed.

(** The selection over any tallies: nothing chosen and no positive entry,
    or an entry chosen that is positive and maximal. *)
Lemma best_match_cases match_counts :
  (best_match match_counts = (nullptr, 0) /\
   forall p c, match_counts !! p = Some c -> c <= 0) \/
  (match_counts !! fst (best_match match_counts) = Some (snd (best_match match_counts)) /\
   0 < snd (best_match match_counts) /\
   forall p c, match_counts !! p = Some c -> c <= snd (best_match match_counts)).
Proof.
  rewrite best_match_fold.
  destruct (select_fold (entries match_counts) (nullptr, 0)) as (H1 & H2 & H3).
  simpl in H1.
  assert (Hall : forall p c, match_counts !! p = Some c ->
            c <= snd (fold_left select (entries match_counts) (nullptr, 0))).
  { intros p c Hpc. apply (H2 (p, c)). apply elem_of_entries. exact Hpc. }
  destruct H3 as [H3|[H3 H3']].
  - left. split; [exact H3|]. intros p c Hpc. specialize (Hall p c Hpc).
    rewrite H3 in Hall. exact Hall.
  - right. split; [|split; [exact H3'|exact Hall]].
    apply elem_of_entries.
    destruct (fold_left select (entries match_counts) (nullptr, 0)); exact H3.
Qed.

End BestMatchFacts.

Section BestMatchTheorems.

Variables (table : gmap Z (list HashKey)) (queries : list HashKey).

(** No record of a table built by [Hash] is owned by the null pointer. *)
Lemma colliding_pairs_nullptr :
  table_inv table -> colliding_pairs table queries nullptr = [].
Proof.
  intros Hinv. unfold colliding_pairs.
  induction queries as [|q l IH]; simpl; [reflexivity|].
  rewrite IH, app_nil_r. unfold colliding. rewrite filter_none; [reflexivity|].
  intros r Hr (_ & _ & Ho).
  destruct (table_records_elem _ _ Hr) as (key & b & Hb & Hin).
  pose proof (Hinv key b Hb) as Hf. rewrite Forall_forall in Hf.
  destruct (Hf r Hin) as (_ & _ & Hn). contradiction.
Qed.

(** C4. For a table built by [Hash] and tallies that fit in [int]: when an
    image is shown as the best match, its tally is the largest of all
    tallies and is positive; "no matches" is reported exactly when every
    tally is zero, that is when no query record collided with an indexed
    record. *)
Theorem best_match_maximal :
  table_inv table ->
  (forall image, Z.of_nat (length (colliding_pairs table queries image)) <= INT_MAX) ->
  match retrieve table queries with
  | BestMatch image =>
      best_match (vote table queries)
      = (Some image, tally (vote table queries) (Some image)) /\
      0 < tally (vote table queries) (Some image) /\
      forall p, tally (vote table queries) p <= tally (vote table queries) (Some image)
  | NoMatchesFound => forall p, tally (vote table queries) p = 0
  end /\
  (retrieve table queries = NoMatchesFound <->
   forall p, tally (vote table queries) p = 0) /\
  (retrieve table queries = NoMatchesFound <->
   forall p, colliding_pairs table queries p = []).
Proof.
  intros Hinv Hfit.
  assert (Htally : forall p, tally (vote table queries) p
                             = Z.of_nat (length (colliding_pairs table queries p))).
  { intros p. rewrite tally_vote by exact Hinv. apply wrap_signed_int.
    specialize (Hfit p). unfold is_int, INT_MIN. lia. }
  assert (Hnonneg : forall p, 0 <= tally (vote table queries) p).
  { intros p. rewrite Htally. lia. }
  assert (Hnull : tally (vote table queries) nullptr = 0).
  { rewrite Htally, colliding_pairs_nullptr by exact Hinv. reflexivity. }
  assert (Hzero : (forall p, tally (vote table queries) p = 0) <->
                  (forall p, colliding_pairs table queries p = [])).
  { split; intros H p; specialize (H p); rewrite Htally in *.
    - destruct (colliding_pairs table queries p); [reflexivity|simpl in H; lia].
    - rewrite H. reflexivity. }
  assert (Hmain :
    match retrieve table queries with
    | BestMatch image =>
        best_match (vote table queries)
        = (Some image, tally (vote table queries) (Some image)) /\
        0 < tally (vote table queries) (Some image) /\
        forall p, tally (vote table queries) p <= tally (vote table queries) (Some image)
    | NoMatchesFound => forall p, tally (vote table queries) p = 0
    end).
  { unfold retrieve.
    destruct (best_match_cases (vote table queries)) as [[E Hall]|(Hb & Hpos & Hall)].
    - rewrite E. simpl. intros p. specialize (Hnonneg p). unfold tally in *.
      destruct (vote table queries !! p) as [c|] eqn:Ep; simpl in *; [|reflexivity].
      specialize (Hall p c Ep). lia.
    - destruct (best_match (vote table queries)) as [best m] eqn:Eb. simpl in *.
      assert (Ht : tally (vote table queries) best = m).
      { unfold tally. rewrite Hb. reflexivity. }
      destruct best as [image|].
      + rewrite Ht. split; [reflexivity|]. split; [exact Hpos|].
        intros p. unfold tally at 1.
        destruct (vote table queries !! p) as [c|] eqn:Ep; simpl; [|lia].
        apply (Hall p c Ep).
      + unfold nullptr in Hnull. lia. }
  split; [exact Hmain|].
  assert (Hiff : retrieve table queries = NoMatchesFound <->
                 forall p, tally (vote table queries) p = 0).
  { destruct (retrieve table queries) as [image|].
    - split; [discriminate|]. intros H. destruct Hmain as (_ & Hpos & _).
      rewrite H in Hpos. lia.
    - split; [intros _; exact Hmain|reflexivity]. }
  split; [exact Hiff|]. rewrite Hiff. exact Hzero.
Qed.

End BestMatchTheorems.

(** * The properties at concrete inputs *)

Section Witnesses.

Import Scenario.

Local Ltac by_computation := vm_compute; repeat split; (reflexivity || discriminate).

Lemma dims_are_int_labels_A : dims_are_int labels_A.
Proof. by_computation. Defined.

Lemma labels_in_range_labels_A (count : Z) :
  2 <= count -> labels_in_range labels_A count (scan labels_A).
Proof.
  intros Hc. unfold labels_in_range. apply Forall_forall. intros [row col] _.
  unfold label_at, labels_A. simpl. destruct (row <? 2)%nat; lia.
Defined.

Lemma one_per_region_counts_A : one_per_region counts_A 2.
Proof. by_computation. Defined.

Lemma counts_are_true_A : counts_are_true labels_A counts_A.
Proof.
  intros i e. destruct i as [|[|i]]; simpl; intros H; inversion H;
    vm_compute; reflexivity.
Defined.

Lemma calculate_hash_key_mixed_radix_witness :
  calculate_hash_key upper_A = KeySpec.bucket_key upper_A.
Proof.
  apply (calculate_hash_key_mixed_radix upper_A).
  unfold KeySpec.exact_on. by_computation.
Defined.

(** The region of [boundary_region] has pixels, colour sums that 3000000
    pixels can have and a box of 3000000 cells inside the reference
    resolution.  The average of its first channel, 47999999 / 3000000,
    divided by the width 16 is below 1, so the exact bucket is 0 and the
    key as the specification words it is 23; the source converts the sum to
    the [float] 48000000, finds the average 16 and the bucket 1, and
    returns 25623. *)
Lemma calculate_hash_key_rounds_up :
  0 < pixel_count boundary_region /\
  0 <= l_tot boundary_region <= 255 * pixel_count boundary_region /\
  pixel_count boundary_region
  = (snd (x_range boundary_region) - fst (x_range boundary_region) + 1)
    * (snd (y_range boundary_region) - fst (y_range boundary_region) + 1) /\
  calculate_hash_key boundary_region = 25623 /\
  KeySpec.bucket_key boundary_region = 23 /\
  calculate_hash_key boundary_region <> KeySpec.bucket_key boundary_region.
Proof.
  split; [reflexivity|]. split; [vm_compute; split; discriminate|].
  split; [reflexivity|].
  assert (E1 : calculate_hash_key boundary_region = 25623) by (vm_compute; reflexivity).
  assert (E2 : KeySpec.bucket_key boundary_region = 23) by (vm_compute; reflexivity).
  split; [exact E1|]. split; [exact E2|]. rewrite E1, E2. discriminate.
Qed.

(** The bound [2^24] cannot be raised by much: a colour sum of
    [2^24 + 15] over [2^20 + 1] pixels is already rounded across the bucket
    boundary. *)
Example exactness_bound_is_tight :
  l_tot least_boundary_region = 2 ^ 24 + 15 /\
  pixel_count least_boundary_region < 2 ^ 24 /\
  calculate_hash_key least_boundary_region = 25612 /\
  KeySpec.bucket_key least_boundary_region = 12.
Proof. repeat split; vm_compute; reflexivity. Qed.

Lemma bounding_box_contains_witness :
  (forall done rest,
     scan labels_A = done ++ rest ->
     labels_in_range labels_A 2 done ->
     exists st,
       Hash_loop image_A labels_A counts_A done (Hash_init 2 ∅) = (Returned, st) /\
       forall (sp : Z) (record : HashKey),
         array_get (superpixels st) sp = Some record ->
         forall cell, cell ∈ done -> label_at labels_A cell = sp ->
           fst (x_range record) <= Z.of_nat (snd cell) <= snd (x_range record) /\
           fst (y_range record) <= Z.of_nat (fst cell) <= snd (y_range record)) /\
  (forall done cell rest st sp key record,
     scan labels_A = done ++ cell :: rest ->
     Hash_loop image_A labels_A counts_A done (Hash_init 2 ∅) = (Returned, st) ->
     Hash_cell_insertion image_A labels_A counts_A cell (superpixels st)
     = Some (sp, key, record) ->
     (forall c, c ∈ done ++ [cell] -> label_at labels_A c = sp -> in_box record c) /\
     (counts_are_true labels_A counts_A ->
      forall c, c ∈ scan labels_A -> label_at labels_A c = sp -> in_box record c)).
Proof.
  apply (bounding_box_contains image_A labels_A counts_A 2 ∅).
  - exact dims_are_int_labels_A.
  - exact one_per_region_counts_A.
Defined.

Lemma color_sums_never_overflow_witness :
  255 * max_img_w * max_img_h <= 2 ^ 31 - 1 /\
  255 * max_img_w * max_img_h <= LONG_MAX /\
  exists st,
    Hash_loop image_A labels_A counts_A (scan labels_A) (Hash_init 2 ∅) = (Returned, st) /\
    forall (sp : Z) (record : HashKey),
      array_get (superpixels st) sp = Some record ->
      (l_tot record = channel_sum image_A labels_A 0 sp (scan labels_A) /\
       a_tot record = channel_sum image_A labels_A 1 sp (scan labels_A) /\
       b_tot record = channel_sum image_A labels_A 2 sp (scan labels_A)) /\
      0 <= l_tot record <= 255 * max_img_w * max_img_h /\
      0 <= a_tot record <= 255 * max_img_w * max_img_h /\
      0 <= b_tot record <= 255 * max_img_w * max_img_h.
Proof.
  apply (color_sums_never_overflow image_A labels_A counts_A 2 ∅ (scan labels_A) []).
  - by_computation.
  - by_computation.
  - exact one_per_region_counts_A.
  - symmetry. apply app_nil_r.
  - apply labels_in_range_labels_A. lia.
Defined.

Lemma inserted_at_most_once_witness :
  snd (Hash ∅ image_A labels_A 2 counts_A)
  = replay (Hash_insertions image_A labels_A counts_A (scan labels_A) (Hash_init 2 ∅)) ∅ /\
  (forall sp,
     (length (insertions_of sp
                (Hash_insertions image_A labels_A counts_A (scan labels_A)
                   (Hash_init 2 ∅))) <= 1)%nat) /\
  (forall done cell rest st,
     scan labels_A = done ++ cell :: rest ->
     Hash_loop image_A labels_A counts_A done (Hash_init 2 ∅) = (Returned, st) ->
     (forall sp key record,
        Hash_cell_insertion image_A labels_A counts_A cell (superpixels st)
        = Some (sp, key, record) ->
        sp = label_at labels_A cell /\
        pixel_count record = count_cells labels_A sp (done ++ [cell]) /\
        array_get counts_A sp = Some (count_cells labels_A sp (done ++ [cell]))) /\
     (forall expected,
        array_get counts_A (label_at labels_A cell) = Some expected ->
        expected < count_cells labels_A (label_at labels_A cell) (done ++ [cell]) ->
        Hash_cell_insertion image_A labels_A counts_A cell (superpixels st) = None)).
Proof.
  apply (inserted_at_most_once image_A labels_A counts_A 2 ∅).
  exact dims_are_int_labels_A.
Defined.

Lemma inserted_pixel_counts_sum_witness :
  exists table',
    Hash ∅ image_A labels_A 2 counts_A = (Returned, table') /\
    table' = replay (Hash_insertions image_A labels_A counts_A (scan labels_A)
                       (Hash_init 2 ∅)) ∅ /\
    sum_pixel_count
      (map snd (Hash_insertions image_A labels_A counts_A (scan labels_A) (Hash_init 2 ∅)))
    = Z.of_nat (rows labels_A) * Z.of_nat (cols labels_A) /\
    sum_pixel_count (table_records table')
    = sum_pixel_count (table_records ∅)
      + Z.of_nat (rows labels_A) * Z.of_nat (cols labels_A).
Proof.
  apply (inserted_pixel_counts_sum image_A labels_A counts_A 2 ∅).
  - exact dims_are_int_labels_A.
  - exact one_per_region_counts_A.
  - apply labels_in_range_labels_A. lia.
  - exact counts_are_true_A.
Defined.

(** Three regions are announced and the third occurs in no cell. *)
Lemma empty_regions_never_indexed_witness :
  (forall key : HashKey, calculate_hash_key key = sentinel <-> pixel_count key = 0) /\
  exists st,
    Hash_loop image_A labels_A [8; 8; 0] (scan labels_A) (Hash_init 3 ∅) = (Returned, st) /\
    Hash ∅ image_A labels_A 3 [8; 8; 0] = (Returned, hashTable st) /\
    (forall sp,
       (forall cell, cell ∈ scan labels_A -> label_at labels_A cell <> sp) ->
       (forall record, array_get (superpixels st) sp = Some record ->
                       pixel_count record = 0) /\
       insertions_of sp (Hash_insertions image_A labels_A [8; 8; 0] (scan labels_A)
                           (Hash_init 3 ∅)) = []) /\
    (forall key bucket record,
       hashTable st !! key = Some bucket -> record ∈ bucket -> 0 < pixel_count record).
Proof.
  apply (empty_regions_never_indexed image_A labels_A [8; 8; 0] 3 ∅).
  - exact dims_are_int_labels_A.
  - by_computation.
  - apply labels_in_range_labels_A. lia.
  - exact table_inv_empty.
Defined.

Lemma table_inv_table_A : table_inv table_A.
Proof. apply Hash_table_inv. exact table_inv_empty. Defined.

Lemma votes_count_collisions_witness :
  tally (vote table_A queries_A) (Some 100%N)
  = wrap_signed 32 (Z.of_nat (length (colliding_pairs table_A queries_A (Some 100%N)))) /\
  tally (vote table_A queries_A) (Some 100%N) = 2.
Proof.
  destruct (votes_count_collisions table_A queries_A (Some 100%N) table_inv_table_A)
    as (_ & _ & H & _).
  split; [exact H|]. vm_compute. reflexivity.
Defined.

Lemma best_match_maximal_witness :
  retrieve table_A queries_A = BestMatch 100%N /\
  best_match (vote table_A queries_A) = (Some 100%N, tally (vote table_A queries_A) (Some 100%N)) /\
  0 < tally (vote table_A queries_A) (Some 100%N) /\
  forall p, tally (vote table_A queries_A) p <= tally (vote table_A queries_A) (Some 100%N).
Proof.
  assert (Hfit : forall image,
            Z.of_nat (length (colliding_pairs table_A queries_A image)) <= INT_MAX).
  { intros image.
    pose proof (colliding_pairs_bound table_A queries_A image) as G.
    assert (E1 : length queries_A = 2%nat) by (vm_compute; reflexivity).
    assert (E2 : length (table_records table_A) = 2%nat) by (vm_compute; reflexivity).
    rewrite E1, E2 in G. unfold INT_MAX. lia. }
  pose proof (best_match_maximal table_A queries_A table_inv_table_A Hfit) as (H & _).
  assert (E : retrieve table_A queries_A = BestMatch 100%N) by (vm_compute; reflexivity).
  rewrite E in H. split; [exact E|exact H].
Defined.

(** One query region that collides with five indexed records of an image
    gives that image five votes. *)
Example five_votes :
  length (owned_in_bucket table_A5 (calculate_hash_key upper_A) (Some 100%N)) = 5%nat /\
  tally (vote_record table_A5 ∅ upper_A) (Some 100%N) = 5.
Proof. split; vm_compute; reflexivity. Qed.

Lemma Hash_unchecked_label_witness :
  exists st,
    Hash_loop image_bad labels_bad counts_bad [(0, 0)%nat] (Hash_init 1 ∅) = (Returned, st) /\
    Hash ∅ image_bad labels_bad 1 counts_bad = (OutOfBounds, hashTable st) /\
    hashTable st
    = replay (Hash_insertions image_bad labels_bad counts_bad [(0, 0)%nat] (Hash_init 1 ∅)) ∅.
Proof.
  apply (Hash_unchecked_label image_bad labels_bad counts_bad 1 ∅
           [(0, 0)%nat] [] (0, 1)%nat).
  - by_computation.
  - by_computation.
  - vm_compute. reflexivity.
  - unfold labels_in_range. constructor; [by_computation|constructor].
  - vm_compute. intros [_ H]. discriminate H.
Defined.

(** C5 fails on the code: the second cell of [labels_bad] holds the
    identifier 5 where there is one region; the pass ends in the
    out-of-bounds access, and the table has by then received the record of
    the first cell. *)
Lemma Hash_invalid_label_inserts :
  label_at labels_bad (0, 1)%nat = 5 /\
  ~ (0 <= label_at labels_bad (0, 1)%nat < 1) /\
  Hash ∅ image_bad labels_bad 1 counts_bad = (OutOfBounds, {[ 0 := [first_bad] ]}) /\
  table_records (snd (Hash ∅ image_bad labels_bad 1 counts_bad)) = [first_bad] /\
  snd (Hash ∅ image_bad labels_bad 1 counts_bad) <> ∅.
Proof.
  split; [vm_compute; reflexivity|].
  split; [vm_compute; intros [_ H]; discriminate H|].
  split; [vm_compute; reflexivity|]. split; [vm_compute; reflexivity|].
  intros H. apply (f_equal table_records) in H. vm_compute in H. discriminate H.
Qed.

End Witnesses.

(** * The counting loop *)

Section CountPixels.

Variable labels : Mat Z.
Implicit Types (cell : nat * nat) (done cells : list (nat * nat)) (sp : Z)
               (counts : list Z).

Lemma count_cell_Some cell counts counts' :
  count_cell labels cell counts = Some counts' ->
  exists c, array_get counts (label_at labels cell) = Some c /\
            counts' = array_set counts (label_at labels cell) (ulong_add c 1).
Proof.
  unfold count_cell, label_at. destruct cell as [row col]. simpl.
  destruct (array_get counts (mat_at labels row col)) as [c|]; [|discriminate].
  intros H. inversion H. eauto.
Qed.

Lemma count_cell_None cell counts :
  count_cell labels cell counts = None <->
  ~ (0 <= label_at labels cell < Z.of_nat (length counts)).
Proof.
  unfold count_cell, label_at. destruct cell as [row col]. simpl. split.
  - destruct (array_get counts (mat_at labels row col)) as [c|] eqn:E; [discriminate|].
    intros _ Hr. destruct (array_get_in_range counts _ Hr) as [x Hx]. congruence.
  - intros Hr. rewrite (array_get_out_of_range _ _ Hr). reflexivity.
Qed.

Lemma count_cell_inv done cell counts counts' :
  count_inv labels done counts ->
  Z.of_nat (length done) < ULONG_MAX ->
  count_cell labels cell counts = Some counts' ->
  count_inv labels (done ++ [cell]) counts' /\ length counts' = length counts.
Proof.
  intros Hinv Hlen Hstep.
  destruct (count_cell_Some _ _ _ Hstep) as (c & Hc & ->).
  split; [|apply array_set_length].
  destruct (array_get_Some _ _ _ Hc) as [H0 _].
  intros sp c' Hget. rewrite count_cells_snoc.
  destruct (decide (label_at labels cell = sp)) as [E|N].
  - subst sp. rewrite (array_get_set_eq _ _ _ _ Hc) in Hget. inversion Hget.
    rewrite (Hinv _ _ Hc).
    pose proof (count_cells_nonneg labels (label_at labels cell) done).
    pose proof (count_cells_le_length labels (label_at labels cell) done).
    apply ulong_add_small. lia.
  - rewrite array_get_set_ne in Hget by assumption.
    rewrite (Hinv _ _ Hget). lia.
Qed.

Lemma count_loop_inv cells : forall done counts counts',
  count_inv labels done counts ->
  Z.of_nat (length (done ++ cells)) <= ULONG_MAX ->
  count_loop labels cells counts = (Returned, counts') ->
  count_inv labels (done ++ cells) counts' /\ length counts' = length counts.
Proof.
  induction cells as [|c cells IH]; intros done counts counts' Hinv Hlen Hrun;
    simpl in Hrun.
  - inversion Hrun; subst. rewrite app_nil_r. auto.
  - destruct (count_cell labels c counts) as [counts1|] eqn:Hstep; [|discriminate].
    rewrite length_app in Hlen. simpl in Hlen.
    destruct (count_cell_inv done c counts counts1 Hinv ltac:(lia) Hstep) as [H1 H2].
    replace (done ++ c :: cells) with ((done ++ [c]) ++ cells)
      by (rewrite <- app_assoc; reflexivity).
    destruct (IH (done ++ [c]) counts1 counts' H1) as [H3 H4]; auto.
    + rewrite !length_app. simpl. lia.
    + split; [exact H3|]. congruence.
Qed.

(** The loop returns exactly when every identifier is inside the array. *)
Lemma count_loop_returns cells : forall counts,
  fst (count_loop labels cells counts) = Returned <->
  Forall (fun cell => 0 <= label_at labels cell < Z.of_nat (length counts)) cells.
Proof.
  induction cells as [|c cells IH]; intros counts; simpl.
  - split; [constructor|reflexivity].
  - destruct (count_cell labels c counts) as [counts1|] eqn:Hstep.
    + destruct (count_cell_Some _ _ _ Hstep) as (x & Hx & ->).
      rewrite IH, array_set_length. rewrite Forall_cons.
      destruct (array_get_Some _ _ _ Hx) as [H0 Hlt]. split; [|tauto].
      intros H. split; [lia|exact H].
    + apply count_cell_None in Hstep. simpl. rewrite Forall_cons.
      split; [discriminate|tauto].
Qed.

(** The sum of the array grows by one at each cell. *)
Lemma sum_array_set counts sp c :
  array_get counts sp = Some c ->
  foldr Z.add 0 (array_set counts sp (c + 1)) = foldr Z.add 0 counts + 1.
Proof.
  unfold array_get, array_set. destruct (sp <? 0); [discriminate|].
  generalize (Z.to_nat sp). intros i. revert i.
  induction counts as [|x counts IH]; intros [|i] H; simpl in *; try discriminate.
  - inversion H. lia.
  - rewrite (IH i H). lia.
Qed.

Lemma count_loop_sum cells : forall done counts counts',
  count_inv labels done counts ->
  Z.of_nat (length (done ++ cells)) <= ULONG_MAX ->
  count_loop labels cells counts = (Returned, counts') ->
  foldr Z.add 0 counts' = foldr Z.add 0 counts + Z.of_nat (length cells).
Proof.
  induction cells as [|c cells IH]; intros done counts counts' Hinv Hlen Hrun;
    simpl in Hrun.
  - inversion Hrun; subst. simpl. lia.
  - destruct (count_cell labels c counts) as [counts1|] eqn:Hstep; [|discriminate].
    rewrite length_app in Hlen. simpl in Hlen.
    destruct (count_cell_inv done c counts counts1 Hinv ltac:(lia) Hstep) as [H1 _].
    rewrite (IH (done ++ [c]) counts1 counts' H1); auto.
    + destruct (count_cell_Some _ _ _ Hstep) as (x & Hx & ->).
      rewrite ulong_add_small.
      * rewrite (sum_array_set _ _ _ Hx). simpl length. lia.
      * rewrite (Hinv _ _ Hx).
        pose proof (count_cells_nonneg labels (label_at labels c) done).
        pose proof (count_cells_le_length labels (label_at labels c) done). lia.
    + rewrite <- app_assoc, length_app. simpl. lia.
Qed.

Lemma count_inv_calloc count : count_inv labels [] (calloc_ulong count).
Proof.
  intros sp c H. unfold array_get, calloc_ulong in H.
  destruct (sp <? 0); [discriminate|]. apply lookup_replicate_1 in H as [-> _].
  reflexivity.
Qed.

Lemma calloc_ulong_length count : Z.of_nat (length (calloc_ulong count)) = Z.max 0 count.
Proof. unfold calloc_ulong. rewrite length_replicate. lia. Qed.

Lemma foldr_add_replicate (k : nat) : foldr Z.add 0 (replicate k 0) = 0.
Proof. induction k as [|k IH]; simpl; [reflexivity|]. rewrite IH. reflexivity. Qed.

(** The counting loop returns exactly on identifiers in range, and then
    with the true counts. *)
Lemma count_pixels_counts (superpixel_count : Z) :
  dims_are_int labels ->
  (fst (count_pixels labels superpixel_count) = Returned <->
   labels_in_range labels superpixel_count (scan labels)) /\
  (labels_in_range labels superpixel_count (scan labels) ->
   0 <= superpixel_count ->
   exists pixel_count_arr,
     count_pixels labels superpixel_count = (Returned, pixel_count_arr) /\
     one_per_region pixel_count_arr superpixel_count /\
     counts_are_true labels pixel_count_arr /\
     foldr Z.add 0 pixel_count_arr = Z.of_nat (rows labels) * Z.of_nat (cols labels)).
Proof.
  intros Hd.
  assert (Hiff : fst (count_pixels labels superpixel_count) = Returned <->
                 labels_in_range labels superpixel_count (scan labels)).
  { unfold count_pixels, labels_in_range. rewrite count_loop_returns.
    rewrite calloc_ulong_length.
    split; intros H; (eapply Forall_impl; [exact H|]); intros cell Hc; simpl in Hc; lia. }
  split; [exact Hiff|]. intros Hr Hn.
  apply Hiff in Hr. unfold count_pixels in *.
  destruct (count_loop labels (scan labels) (calloc_ulong superpixel_count))
    as [s pcs] eqn:Hrun. simpl in Hr. subst s.
  pose proof (scan_fits_ulong labels Hd) as Hlen.
  destruct (count_loop_inv (scan labels) [] _ pcs (count_inv_calloc superpixel_count) Hlen Hrun)
    as [Hinv Hl].
  exists pcs. split; [reflexivity|]. split; [|split].
  - split; [exact Hn|]. rewrite Hl, calloc_ulong_length. lia.
  - intros i e Hi. apply (Hinv (Z.of_nat i) e).
    unfold array_get. destruct (Z.ltb_spec (Z.of_nat i) 0); [lia|].
    rewrite Nat2Z.id. exact Hi.
  - rewrite (count_loop_sum (scan labels) [] _ pcs (count_inv_calloc superpixel_count)
               Hlen Hrun).
    unfold calloc_ulong. rewrite foldr_add_replicate, scan_length. lia.
Qed.

(** X1. The counting loop of [main] returns exactly when every cell holds an
    identifier in [[0, superpixel_count)]; the array it then returns has one
    entry per superpixel, each the true number of cells with that
    identifier, and the entries add up to [rows * cols]. *)
Theorem count_pixels_true (superpixel_count : Z) :
  dims_are_int labels ->
  (fst (count_pixels labels superpixel_count) = Returned <->
   labels_in_range labels superpixel_count (scan labels)) /\
  (labels_in_range labels superpixel_count (scan labels) ->
   0 <= superpixel_count ->
   exists pixel_count_arr,
     count_pixels labels superpixel_count = (Returned, pixel_count_arr) /\
     one_per_region pixel_count_arr superpixel_count /\
     counts_are_true labels pixel_count_arr /\
     foldr Z.add 0 pixel_count_arr = Z.of_nat (rows labels) * Z.of_nat (cols labels)).
Proof. exact (count_pixels_counts superpixel_count). Qed.

End CountPixels.

(** * The table after a pass *)

Section TableAfterPass.

Implicit Types (table : gmap Z (list HashKey)) (key : Z)
               (insertions : list (Z * Z * HashKey)).

Lemma inserted_under_cons key (ins : Z * Z * HashKey) insertions :
  inserted_under key (ins :: insertions)
  = (if decide (snd (fst ins) = key) then [snd ins] else []) ++ inserted_under key insertions.
Proof.
  unfold inserted_under. rewrite filter_cons.
  destruct (decide (snd (fst ins) = key)); reflexivity.
Qed.

Lemma inserted_under_app key insertions1 insertions2 :
  inserted_under key (insertions1 ++ insertions2)
  = inserted_under key insertions1 ++ inserted_under key insertions2.
Proof. unfold inserted_under. rewrite filter_app, map_app. reflexivity. Qed.

(** A bucket after a run of insertions: what it held, then the records
    inserted under its key, in order. *)
Lemma replay_bucket insertions : forall table key,
  default [] (replay insertions table !! key)
  = default [] (table !! key) ++ inserted_under key insertions.
Proof.
  induction insertions as [|ins l IH]; intros table key; simpl.
  - unfold inserted_under. simpl. rewrite app_nil_r. reflexivity.
  - rewrite IH, inserted_under_cons, push_back_lookup.
    destruct (decide (snd (fst ins) = key)) as [->|N]; simpl.
    + rewrite <- app_assoc. reflexivity.
    + reflexivity.
Qed.

(** A key is in the table after the insertions when it was before or a
    record was inserted under it. *)
Lemma replay_is_Some insertions : forall table key,
  is_Some (replay insertions table !! key) <->
  is_Some (table !! key) \/ inserted_under key insertions <> [].
Proof.
  induction insertions as [|ins l IH]; intros table key; simpl.
  - unfold inserted_under. simpl. tauto.
  - rewrite IH, inserted_under_cons, push_back_lookup.
    destruct (decide (snd (fst ins) = key)) as [->|N]; simpl.
    + split; [intros _; right; discriminate|intros _; left; eauto].
    + tauto.
Qed.

End TableAfterPass.

Section TableIndependence.

Variables (input_image : Mat Vec3b) (labels : Mat Z) (pixel_count_arr : list Z).

Lemma Hash_cell_same_array cell (st1 st2 : HashState) :
  superpixels st1 = superpixels st2 ->
  match Hash_cell input_image labels pixel_count_arr cell st1,
        Hash_cell input_image labels pixel_count_arr cell st2 with
  | Some st1', Some st2' => superpixels st1' = superpixels st2'
  | None, None => True
  | _, _ => False
  end.
Proof.
  intros E. unfold Hash_cell. destruct cell as [row col]. rewrite E.
  destruct (array_get (superpixels st2) (mat_at labels row col)) as [curr|]; [|exact I].
  destruct (array_get pixel_count_arr (mat_at labels row col)) as [e|]; [|exact I].
  repeat match goal with |- context [if ?b then _ else _] => destruct b end; reflexivity.
Qed.

(** The way a run ends and the insertions it makes do not depend on the
    table it starts from. *)
Lemma Hash_loop_same_array cells : forall st1 st2 : HashState,
  superpixels st1 = superpixels st2 ->
  fst (Hash_loop input_image labels pixel_count_arr cells st1)
  = fst (Hash_loop input_image labels pixel_count_arr cells st2) /\
  Hash_insertions input_image labels pixel_count_arr cells st1
  = Hash_insertions input_image labels pixel_count_arr cells st2.
Proof.
  induction cells as [|c cells IH]; intros st1 st2 E; simpl; [auto|].
  pose proof (Hash_cell_same_array c st1 st2 E) as Hc.
  destruct (Hash_cell input_image labels pixel_count_arr c st1) as [st1'|];
    destruct (Hash_cell input_image labels pixel_count_arr c st2) as [st2'|];
    try contradiction; [|auto].
  destruct (IH st1' st2' Hc) as [H1 H2]. rewrite E, H2. auto.
Qed.

End TableIndependence.

Section HashOnTable.

Variables (input_image : Mat Vec3b) (labels : Mat Z) (superpixel_count : Z)
          (pixel_count_arr : list Z).

(** [Hash] leaves the table it found with the insertions of the pass
    appended. *)
Lemma Hash_snd_replay (table : gmap Z (list HashKey)) :
  snd (Hash table input_image labels superpixel_count pixel_count_arr)
  = replay (Hash_insertions input_image labels pixel_count_arr (scan labels)
              (Hash_init superpixel_count table)) table.
Proof.
  pose proof (Hash_loop_insertions input_image labels pixel_count_arr (scan labels)
                (Hash_init superpixel_count table)) as Hrep.
  unfold Hash.
  destruct (Hash_loop input_image labels pixel_count_arr (scan labels)
              (Hash_init superpixel_count table)) as [s st].
  exact Hrep.
Qed.

(** The pass acts on every table in the same way. *)
Lemma Hash_replay_from (table table0 : gmap Z (list HashKey)) :
  Hash table input_image labels superpixel_count pixel_count_arr
  = (fst (Hash table0 input_image labels superpixel_count pixel_count_arr),
     replay (Hash_insertions input_image labels pixel_count_arr (scan labels)
               (Hash_init superpixel_count table0)) table).
Proof.
  destruct (Hash_loop_same_array input_image labels pixel_count_arr (scan labels)
              (Hash_init superpixel_count table) (Hash_init superpixel_count table0) eq_refl)
    as [Hs Hi].
  pose proof (Hash_loop_insertions input_image labels pixel_count_arr (scan labels)
                (Hash_init superpixel_count table)) as Hrep.
  rewrite Hi in Hrep. unfold Hash.
  destruct (Hash_loop input_image labels pixel_count_arr (scan labels)
              (Hash_init superpixel_count table)) as [s1 st1].
  destruct (Hash_loop input_image labels pixel_count_arr (scan labels)
              (Hash_init superpixel_count table0)) as [s2 st2].
  simpl in *. rewrite Hs, Hrep. reflexivity.
Qed.

(** X2. Whatever its arguments and however the pass ends, [Hash] only
    appends: a bucket after the pass is the bucket before it followed by the
    records the pass inserted under its key, in scan order; a key is in the
    table afterwards exactly when it was before or a record was inserted
    under it; no record is removed or moved. *)
Theorem Hash_appends_to_buckets (table : gmap Z (list HashKey)) (key : Z) :
  let insertions := Hash_insertions input_image labels pixel_count_arr (scan labels)
                      (Hash_init superpixel_count table) in
  let table' := snd (Hash table input_image labels superpixel_count pixel_count_arr) in
  default [] (table' !! key) = default [] (table !! key) ++ inserted_under key insertions /\
  (is_Some (table' !! key) <->
   is_Some (table !! key) \/ inserted_under key insertions <> []) /\
  (forall bucket, table !! key = Some bucket ->
     table' !! key = Some (bucket ++ inserted_under key insertions)).
Proof.
  cbv zeta. rewrite Hash_snd_replay.
  split; [apply replay_bucket|]. split; [apply replay_is_Some|].
  intros bucket Hb.
  pose proof (replay_bucket
                (Hash_insertions input_image labels pixel_count_arr (scan labels)
                   (Hash_init superpixel_count table)) table key) as Hrb.
  pose proof (proj2 (replay_is_Some
                (Hash_insertions input_image labels pixel_count_arr (scan labels)
                   (Hash_init superpixel_count table)) table key)
                (or_introl (ex_intro _ bucket Hb))) as [b' Hb'].
  rewrite Hb' in *. rewrite Hb in Hrb. simpl in Hrb. rewrite Hrb. reflexivity.
Qed.

(** X3. What a pass does to the table is fixed by the image, the labels and
    the expected counts alone: the same insertions are appended to whatever
    table is there.  Hashing the same image twice therefore files every
    record twice. *)
Theorem Hash_independent_of_table :
  let insertions := Hash_insertions input_image labels pixel_count_arr (scan labels)
                      (Hash_init superpixel_count ∅) in
  (forall table,
     Hash table input_image labels superpixel_count pixel_count_arr
     = (fst (Hash ∅ input_image labels superpixel_count pixel_count_arr),
        replay insertions table)) /\
  (forall table key,
     default []
       (snd (Hash (snd (Hash table input_image labels superpixel_count pixel_count_arr))
               input_image labels superpixel_count pixel_count_arr) !! key)
     = default [] (table !! key)
       ++ inserted_under key insertions ++ inserted_under key insertions).
Proof.
  cbv zeta. split.
  - intros table. apply Hash_replay_from.
  - intros table key.
    rewrite (Hash_replay_from (snd (Hash table input_image labels superpixel_count
                                       pixel_count_arr)) ∅).
    rewrite (Hash_replay_from table ∅). simpl.
    rewrite !replay_bucket, <- app_assoc. reflexivity.
Qed.

End HashOnTable.

(** * The tallies as a map *)

Section VoteLookup.

Implicit Types (table : gmap Z (list HashKey)) (match_counts : gmap mat_ptr Z)
               (p image : mat_ptr).

Lemma counted_increment match_counts image p n :
  0 <= n -> counted match_counts image n ->
  counted (increment p match_counts) image (n + (if decide (p = image) then 1 else 0)).
Proof.
  unfold counted, increment. intros Hn Hc. rewrite lookup_insert.
  destruct (decide (p = image)) as [->|N].
  - destruct (decide (n + 1 = 0)); [lia|]. rewrite Hc. f_equal.
    destruct (decide (n = 0)) as [->|]; simpl; [reflexivity|].
    unfold int_add. apply wrap_signed_add_idem.
  - rewrite Z.add_0_r. exact Hc.
Qed.

Lemma counted_vote_matches image (matches : list HashKey) : forall match_counts n,
  0 <= n -> counted match_counts image n ->
  counted (vote_matches matches match_counts) image
    (n + Z.of_nat (length (filter (fun record => original_image record = image) matches))).
Proof.
  induction matches as [|r matches IH]; intros mc n Hn Hc; simpl.
  - rewrite Z.add_0_r. exact Hc.
  - rewrite filter_cons.
    pose proof (counted_increment mc image (original_image r) n Hn Hc) as Hi.
    destruct (decide (original_image r = image)) as [E|N].
    + apply (IH _ (n + 1)) in Hi; [|lia]. simpl length.
      replace (n + Z.of_nat (S (length (filter (fun record => original_image record = image)
                                          matches))))
        with (n + 1 + Z.of_nat (length (filter (fun record => original_image record = image)
                                          matches))) by lia.
      exact Hi.
    + rewrite Z.add_0_r in Hi. apply (IH _ n Hn Hi).
Qed.

Lemma votes_of_query_nonneg table image query : 0 <= votes_of_query table image query.
Proof. unfold votes_of_query. destruct (_ =? _); lia. Qed.

Lemma counted_vote_record table image query match_counts n :
  0 <= n -> counted match_counts image n ->
  counted (vote_record table match_counts query) image (n + votes_of_query table image query).
Proof.
  intros Hn Hc. unfold vote_record, votes_of_query, owned_in_bucket, sentinel.
  destruct (calculate_hash_key query =? -1).
  - rewrite Z.add_0_r. exact Hc.
  - destruct (table !! calculate_hash_key query) as [matches|]; simpl.
    + apply counted_vote_matches; assumption.
    + rewrite Z.add_0_r. exact Hc.
Qed.

Lemma sum_votes_nonneg table image (queries : list HashKey) :
  0 <= foldr Z.add 0 (map (votes_of_query table image) queries).
Proof.
  induction queries as [|q l IH]; simpl; [lia|].
  pose proof (votes_of_query_nonneg table image q). lia.
Qed.

Lemma counted_fold_vote table image (queries : list HashKey) : forall match_counts n,
  0 <= n -> counted match_counts image n ->
  counted (fold_left (vote_record table) queries match_counts) image
    (n + foldr Z.add 0 (map (votes_of_query table image) queries)).
Proof.
  induction queries as [|q l IH]; intros mc n Hn Hc; simpl.
  - rewrite Z.add_0_r. exact Hc.
  - pose proof (votes_of_query_nonneg table image q).
    pose proof (counted_vote_record table image q mc n Hn Hc) as Hq.
    apply IH in Hq; [|lia].
    replace (n + (votes_of_query table image q
                  + foldr Z.add 0 (map (votes_of_query table image) l)))
      with (n + votes_of_query table image q
            + foldr Z.add 0 (map (votes_of_query table image) l)) by lia.
    exact Hq.
Qed.

(** The entry of an image in [match_counts] after the voting. *)
Lemma lookup_vote table (queries : list HashKey) image :
  counted (vote table queries) image
    (foldr Z.add 0 (map (votes_of_query table image) queries)).
Proof.
  unfold vote.
  pose proof (counted_fold_vote table image queries ∅ 0 ltac:(lia)) as H.
  simpl in H. apply H. unfold counted. rewrite lookup_empty.
  destruct (decide (0 = 0)); [reflexivity|contradiction].
Qed.

End VoteLookup.

(** * The bounding box is tight *)

Section TightBox.

Variables (input_image : Mat Vec3b) (labels : Mat Z) (pixel_count_arr : list Z).
Implicit Types (cell : nat * nat) (done cells : list (nat * nat)) (sp : Z)
               (st : HashState) (sps : list HashKey).

Lemma box_attained_mono record cells1 cells2 :
  (forall cell, cell ∈ cells1 -> cell ∈ cells2) ->
  box_attained record cells1 -> box_attained record cells2.
Proof.
  intros Hsub ([c1 [H1 E1]] & [c2 [H2 E2]] & [c3 [H3 E3]] & [c4 [H4 E4]]).
  repeat split; [exists c1|exists c2|exists c3|exists c4]; auto.
Qed.

(** Adding a cell of the region keeps the sides of the box on cells of the
    region. *)
Lemma box_attained_accumulate done cell sp record :
  record_inv input_image labels done sp record ->
  (0 < count_cells labels sp done -> box_attained record (cells_of labels sp done)) ->
  label_at labels cell = sp ->
  box_attained (accumulate_at input_image cell record) (cells_of labels sp (done ++ [cell])).
Proof.
  intros Hr Hb Hl.
  pose proof (count_cells_nonneg labels sp done) as Hc0.
  assert (Ecells : cells_of labels sp (done ++ [cell]) = cells_of labels sp done ++ [cell]).
  { rewrite cells_of_snoc.
    destruct (decide (label_at labels cell = sp)); [reflexivity|contradiction]. }
  rewrite Ecells.
  assert (Hcell : cell ∈ cells_of labels sp done ++ [cell]).
  { apply elem_of_app. right. left. }
  unfold accumulate_at.
  destruct (Z.eq_dec (pixel_count record) 0) as [E0|N0].
  - match goal with |- context [accumulate ?i ?p ?r ?cl ?k] =>
      destruct (accumulate_first i p r cl k E0) as (Ex & Ey & _) end.
    unfold box_attained. rewrite Ex, Ey. simpl.
    repeat split; exists cell; auto.
  - match goal with |- context [accumulate ?i ?p ?r ?cl ?k] =>
      destruct (accumulate_next i p r cl k N0) as (Ex & Ey & _) end.
    rewrite (inv_count _ _ _ _ _ Hr) in N0.
    destruct Hb as ([c1 [H1 E1]] & [c2 [H2 E2]] & [c3 [H3 E3]] & [c4 [H4 E4]]); [lia|].
    assert (Hold : forall c, c ∈ cells_of labels sp done ->
                             c ∈ cells_of labels sp done ++ [cell]).
    { intros c Hc. apply elem_of_app. left. exact Hc. }
    unfold box_attained. rewrite Ex, Ey. simpl.
    repeat split.
    + destruct (Z.min_spec (fst (x_range record)) (Z.of_nat (snd cell))) as [[_ ->]|[_ ->]];
        [exists c1|exists cell]; auto.
    + destruct (Z.max_spec (snd (x_range record)) (Z.of_nat (snd cell))) as [[_ ->]|[_ ->]];
        [exists cell|exists c2]; auto.
    + destruct (Z.min_spec (fst (y_range record)) (Z.of_nat (fst cell))) as [[_ ->]|[_ ->]];
        [exists c3|exists cell]; auto.
    + destruct (Z.max_spec (snd (y_range record)) (Z.of_nat (fst cell))) as [[_ ->]|[_ ->]];
        [exists cell|exists c4]; auto.
Qed.

Lemma box_inv_calloc count : box_inv labels [] (calloc_HashKey count).
Proof. intros sp record _ H. unfold count_cells in H. simpl in H. lia. Qed.

Lemma Hash_cell_box done cell st st' :
  agg_inv input_image labels done (superpixels st) ->
  box_inv labels done (superpixels st) ->
  Hash_cell input_image labels pixel_count_arr cell st = Some st' ->
  box_inv labels (done ++ [cell]) (superpixels st').
Proof.
  intros Hinv Hbox Hstep.
  apply Hash_cell_superpixels in Hstep as (curr & e & Hc & He & ->).
  destruct (array_get_Some _ _ _ Hc) as [H0 _].
  intros sp record Hget Hpos.
  destruct (Z.eq_dec (label_at labels cell) sp) as [E|N].
  - subst sp. rewrite (array_get_set_eq _ _ _ _ Hc) in Hget. inversion Hget; subst record.
    apply box_attained_accumulate; auto.
  - rewrite array_get_set_ne in Hget by assumption.
    rewrite cells_of_snoc. rewrite count_cells_snoc in Hpos.
    destruct (decide (label_at labels cell = sp)); [contradiction|].
    rewrite app_nil_r. apply (Hbox sp record Hget). lia.
Qed.

Lemma Hash_loop_box cells : forall done st st',
  agg_inv input_image labels done (superpixels st) ->
  box_inv labels done (superpixels st) ->
  Z.of_nat (length (done ++ cells)) <= ULONG_MAX ->
  Hash_loop input_image labels pixel_count_arr cells st = (Returned, st') ->
  box_inv labels (done ++ cells) (superpixels st').
Proof.
  induction cells as [|c cells IH]; intros done st st' Hinv Hbox Hlen Hrun; simpl in Hrun.
  - inversion Hrun; subst st'. rewrite app_nil_r. exact Hbox.
  - destruct (Hash_cell input_image labels pixel_count_arr c st) as [st1|] eqn:Hstep;
      [|discriminate].
    rewrite length_app in Hlen. simpl in Hlen.
    assert (Hinv1 := Hash_cell_inv _ _ _ done c st st1 Hinv ltac:(lia) Hstep).
    assert (Hbox1 := Hash_cell_box done c st st1 Hinv Hbox Hstep).
    replace (done ++ c :: cells) with ((done ++ [c]) ++ cells)
      by (rewrite <- app_assoc; reflexivity).
    apply (IH (done ++ [c]) st1 st' Hinv1 Hbox1); [|exact Hrun].
    rewrite !length_app. simpl. lia.
Qed.

(** Cells of other regions leave a record's invariant. *)
Lemma record_inv_others rest : forall done sp record,
  record_inv input_image labels done sp record ->
  count_cells labels sp rest = 0 ->
  record_inv input_image labels (done ++ rest) sp record.
Proof.
  induction rest as [|c rest IH]; intros done sp record Hr Hz.
  - rewrite app_nil_r. exact Hr.
  - replace (done ++ c :: rest) with ((done ++ [c]) ++ rest)
      by (rewrite <- app_assoc; reflexivity).
    change (c :: rest) with ([c] ++ rest) in Hz. rewrite count_cells_app in Hz.
    pose proof (count_cells_nonneg labels sp [c]).
    pose proof (count_cells_nonneg labels sp rest).
    apply IH; [|lia].
    apply record_inv_other; [exact Hr|].
    apply (count_cells_zero labels sp [c]); [lia|left].
Qed.

Lemma cells_of_app sp done cells :
  cells_of labels sp (done ++ cells) = cells_of labels sp done ++ cells_of labels sp cells.
Proof. unfold cells_of. apply filter_app. Qed.

Lemma cells_of_none sp cells :
  count_cells labels sp cells = 0 -> cells_of labels sp cells = [].
Proof.
  unfold count_cells. destruct (cells_of labels sp cells); [reflexivity|simpl; lia].
Qed.

(** The cell at which a region reaches a given number of cells. *)
Lemma nth_cell_of sp cells e :
  1 <= e <= count_cells labels sp cells ->
  exists done cell rest,
    cells = done ++ cell :: rest /\ label_at labels cell = sp /\
    count_cells labels sp (done ++ [cell]) = e.
Proof.
  induction cells as [|x l IH] using rev_ind; intros He.
  - unfold count_cells in He. simpl in He. lia.
  - rewrite count_cells_snoc in He.
    destruct (Z_le_gt_dec e (count_cells labels sp l)) as [Hle|Hgt].
    + destruct IH as (done & cell & rest & -> & Hl & Hc); [lia|].
      exists done, cell, (rest ++ [x]). split; [rewrite <- app_assoc; reflexivity|]. auto.
    + destruct (decide (label_at labels x = sp)) as [E|N]; [|lia].
      exists l, x, []. split; [reflexivity|]. split; [exact E|].
      rewrite count_cells_snoc. destruct (decide (label_at labels x = sp)); [lia|contradiction].
Qed.

(** A run over cells of other regions leaves a region's record as it
    is. *)
Lemma Hash_loop_untouched rest : forall st st' sp,
  count_cells labels sp rest = 0 ->
  Hash_loop input_image labels pixel_count_arr rest st = (Returned, st') ->
  array_get (superpixels st') sp = array_get (superpixels st) sp.
Proof.
  induction rest as [|c rest IH]; intros st st' sp Hz Hrun; simpl in Hrun.
  - inversion Hrun. reflexivity.
  - destruct (Hash_cell input_image labels pixel_count_arr c st) as [st1|] eqn:Hstep;
      [|discriminate].
    change (c :: rest) with ([c] ++ rest) in Hz. rewrite count_cells_app in Hz.
    pose proof (count_cells_nonneg labels sp [c]).
    pose proof (count_cells_nonneg labels sp rest).
    rewrite (IH st1 st' sp ltac:(lia) Hrun).
    destruct (Hash_cell_superpixels _ _ _ _ _ _ Hstep) as (curr & e & Hc & _ & ->).
    destruct (array_get_Some _ _ _ Hc) as [Hc0 _].
    apply array_get_set_ne; [exact Hc0|].
    apply (count_cells_zero labels sp [c]); [lia|left].
Qed.

End TightBox.

(** * Which regions a pass files *)

Section InsertedRegions.

Variables (input_image : Mat Vec3b) (labels : Mat Z) (pixel_count_arr : list Z)
          (superpixel_count : Z) (table : gmap Z (list HashKey)).

Hypothesis Hdims : dims_are_int labels.
Hypothesis Hone : one_per_region pixel_count_arr superpixel_count.
Hypothesis Hrange : labels_in_range labels superpixel_count (scan labels).

Lemma prefix_in_range (done rest : list (nat * nat)) :
  scan labels = done ++ rest -> labels_in_range labels superpixel_count done.
Proof.
  intros E. unfold labels_in_range in *. rewrite E in Hrange.
  apply Forall_app in Hrange. tauto.
Qed.

Lemma prefix_state (done rest : list (nat * nat)) :
  scan labels = done ++ rest ->
  exists st,
    Hash_loop input_image labels pixel_count_arr done (Hash_init superpixel_count table)
    = (Returned, st) /\
    agg_inv input_image labels done (superpixels st) /\
    box_inv labels done (superpixels st) /\
    Z.of_nat (length (superpixels st)) = superpixel_count.
Proof.
  intros E. pose proof (scan_fits_ulong labels Hdims) as Hfit.
  assert (Hlen : Z.of_nat (length done) <= ULONG_MAX).
  { rewrite E, length_app in Hfit. lia. }
  destruct (Hash_loop_from_init input_image labels pixel_count_arr superpixel_count table done
              Hlen (prefix_in_range done rest E) Hone) as (st & Hrun & Hinv & Hl).
  exists st. split; [exact Hrun|]. split; [exact Hinv|]. split; [|exact Hl].
  apply (Hash_loop_box input_image labels pixel_count_arr done []
           (Hash_init superpixel_count table) st).
  - apply agg_inv_calloc.
  - apply box_inv_calloc.
  - exact Hlen.
  - exact Hrun.
Qed.

(** An insertion for a region happens at a cell of the region, when the
    cells so far are as many as expected. *)
Lemma insertion_at_expected (sp : Z) (ins : Z * Z * HashKey) :
  ins ∈ Hash_insertions input_image labels pixel_count_arr (scan labels)
          (Hash_init superpixel_count table) ->
  fst (fst ins) = sp ->
  exists done cell rest,
    scan labels = done ++ cell :: rest /\ label_at labels cell = sp /\
    array_get pixel_count_arr sp = Some (count_cells labels sp (done ++ [cell])).
Proof.
  intros Hin Hsp.
  destruct (Hash_insertions_elem input_image labels pixel_count_arr _ _ ins Hin)
    as (done & cell & rest & st & E & Hrun & Hins).
  destruct (prefix_state done (cell :: rest) E) as (st' & Hrun' & Hinv & _).
  rewrite Hrun in Hrun'. inversion Hrun'; subst st'; clear Hrun'.
  pose proof (scan_fits_ulong labels Hdims) as Hfit.
  assert (Hlen : Z.of_nat (length done) < ULONG_MAX).
  { rewrite E, length_app in Hfit. simpl in Hfit. lia. }
  destruct ins as [[sp' key] record]. simpl in Hsp. subst sp'.
  destruct (insertion_running_count input_image labels pixel_count_arr done cell st sp key
              record Hinv Hlen Hins) as (Hl & _ & He).
  exists done, cell, rest. auto.
Qed.

(** A region whose expected count is [expected]: with
    [1 <= expected <= ] the number of its cells it is inserted once, at its
    cell number [expected], with the record of its cells up to there. *)
Lemma region_inserted_at (sp expected : Z) :
  array_get pixel_count_arr sp = Some expected ->
  1 <= expected <= count_cells labels sp (scan labels) ->
  exists done cell rest record st,
    scan labels = done ++ cell :: rest /\ label_at labels cell = sp /\
    count_cells labels sp (done ++ [cell]) = expected /\
    Hash_loop input_image labels pixel_count_arr (done ++ [cell])
      (Hash_init superpixel_count table) = (Returned, st) /\
    array_get (superpixels st) sp = Some record /\
    insertions_of sp (Hash_insertions input_image labels pixel_count_arr (scan labels)
                        (Hash_init superpixel_count table))
    = [(sp, calculate_hash_key record, record)] /\
    record_inv input_image labels (done ++ [cell]) sp record /\
    box_attained record (cells_of labels sp (done ++ [cell])).
Proof.
  intros He Hexp.
  destruct (nth_cell_of labels sp (scan labels) expected Hexp)
    as (done & cell & rest & E & Hl & Hcnt).
  pose proof (scan_fits_ulong labels Hdims) as Hfit.
  assert (Hlen : Z.of_nat (length done) < ULONG_MAX).
  { rewrite E, length_app in Hfit. simpl in Hfit. lia. }
  destruct (prefix_state done (cell :: rest) E) as (st1 & Hrun1 & Hinv1 & Hbox1 & Hlen1).
  assert (Hcell : 0 <= label_at labels cell < superpixel_count).
  { unfold labels_in_range in Hrange. rewrite E in Hrange.
    apply Forall_app in Hrange as [_ Hr]. apply Forall_cons in Hr as [Hr _]. exact Hr. }
  destruct Hone as [Hn0 Hn].
  destruct (Hash_cell_in_range input_image labels pixel_count_arr cell st1)
    as [st2 Hstep]; [lia|lia|].
  destruct (Hash_cell_superpixels _ _ _ _ _ _ Hstep) as (curr & e' & Hc & He' & Hsps).
  rewrite Hl in He'. rewrite He in He'. inversion He'; subst e'; clear He'.
  destruct (Hash_cell_insertion_decided input_image labels pixel_count_arr done cell st1
              curr expected Hinv1 Hlen Hc ltac:(rewrite Hl; exact He)) as [Hpc Hins].
  rewrite Hl in Hins, Hc.
  destruct (decide (count_cells labels sp (done ++ [cell]) = expected)) as [_|N];
    [|congruence].
  assert (Hinv2 := Hash_cell_inv _ _ _ done cell st1 st2 Hinv1 Hlen Hstep).
  assert (Escan : scan labels = (done ++ [cell]) ++ rest).
  { rewrite E, <- app_assoc. reflexivity. }
  exists done, cell, rest, (accumulate_at input_image cell curr), st2.
  split; [exact E|]. split; [exact Hl|]. split; [exact Hcnt|].
  split; [|split; [|split; [|split]]].
  - rewrite Hash_loop_app, Hrun1. simpl. rewrite Hstep. reflexivity.
  - rewrite Hsps, <- Hl. apply (array_get_set_eq _ _ curr). rewrite Hl. exact Hc.
  - rewrite E, Hash_insertions_app, Hrun1. simpl. rewrite Hstep, Hins.
    unfold insertions_of. rewrite !filter_app.
    fold (insertions_of sp (Hash_insertions input_image labels pixel_count_arr done
                              (Hash_init superpixel_count table))).
    fold (insertions_of sp (Hash_insertions input_image labels pixel_count_arr rest st2)).
    rewrite (no_more_insertions input_image labels pixel_count_arr rest (done ++ [cell]) st2
               sp expected Hinv2).
    + rewrite app_nil_r, filter_cons_True by reflexivity. rewrite filter_nil.
      replace (insertions_of sp (Hash_insertions input_image labels pixel_count_arr done
                                   (Hash_init superpixel_count table))) with
        (@nil (Z * Z * HashKey)); [reflexivity|].
      symmetry. apply filter_none. intros ins Hin Hsp.
      destruct (Hash_insertions_elem input_image labels pixel_count_arr done _ ins Hin)
        as (d' & c' & r' & st' & Ed & Hrun' & Hins').
      destruct ins as [[sp' key'] record']. simpl in Hsp. subst sp'.
      assert (Hlen' : Z.of_nat (length d') < ULONG_MAX).
      { rewrite Ed, length_app in Hlen. simpl in Hlen. lia. }
      destruct (Hash_loop_inv input_image labels pixel_count_arr d' []
                  (Hash_init superpixel_count table) _
                  (agg_inv_calloc input_image labels superpixel_count)
                  ltac:(simpl; lia) Hrun') as [Hinv' _].
      simpl in Hinv'.
      destruct (insertion_running_count input_image labels pixel_count_arr d' c' _ sp key'
                  record' Hinv' Hlen' Hins') as (_ & _ & He').
      rewrite He in He'. inversion He' as [He''].
      rewrite <- Hcnt in He''. rewrite Ed in He''.
      replace ((d' ++ c' :: r') ++ [cell]) with ((d' ++ [c']) ++ (r' ++ [cell])) in He''
        by (rewrite <- !app_assoc; reflexivity).
      rewrite count_cells_app, (count_cells_snoc labels sp r' cell) in He''.
      destruct (decide (label_at labels cell = sp)); [|contradiction].
      pose proof (count_cells_nonneg labels sp r'). lia.
    + rewrite <- Escan. exact Hfit.
    + exact He.
    + lia.
  - apply record_inv_accumulate; auto.
  - apply box_attained_accumulate; auto.
Qed.

(** With any other expected count the region is never inserted. *)
Lemma region_not_inserted (sp expected : Z) :
  array_get pixel_count_arr sp = Some expected ->
  ~ (1 <= expected <= count_cells labels sp (scan labels)) ->
  insertions_of sp (Hash_insertions input_image labels pixel_count_arr (scan labels)
                      (Hash_init superpixel_count table)) = [].
Proof.
  intros He Hn. apply filter_none. intros ins Hin Hsp. apply Hn.
  destruct (insertion_at_expected sp ins Hin Hsp) as (done & cell & rest & E & Hl & He').
  rewrite He in He'. inversion He'; subst expected; clear He'.
  rewrite E. change (cell :: rest) with ([cell] ++ rest).
  rewrite app_assoc, (count_cells_app labels sp (done ++ [cell]) rest).
  rewrite (count_cells_snoc labels sp done cell).
  destruct (decide (label_at labels cell = sp)); [|contradiction].
  pose proof (count_cells_nonneg labels sp done).
  pose proof (count_cells_nonneg labels sp rest). lia.
Qed.

End InsertedRegions.

(** * What a pass with true counts files *)

Section CompleteRecords.

Variables (input_image : Mat Vec3b) (labels : Mat Z) (pixel_count_arr : list Z)
          (superpixel_count : Z) (table : gmap Z (list HashKey)).

Hypothesis Hdims : dims_are_int labels.
Hypothesis Hone : one_per_region pixel_count_arr superpixel_count.
Hypothesis Hrange : labels_in_range labels superpixel_count (scan labels).
Hypothesis Htrue : counts_are_true labels pixel_count_arr.

(** A region with cells is inserted once, when its last cell is visited,
    and its record, the one the array holds at the end, covers all its
    cells. *)
Lemma region_inserted_once (sp : Z) :
  0 < count_cells labels sp (scan labels) ->
  exists record st,
    Hash_loop input_image labels pixel_count_arr (scan labels)
      (Hash_init superpixel_count table) = (Returned, st) /\
    array_get (superpixels st) sp = Some record /\
    insertions_of sp (Hash_insertions input_image labels pixel_count_arr (scan labels)
                        (Hash_init superpixel_count table))
    = [(sp, calculate_hash_key record, record)] /\
    record_inv input_image labels (scan labels) sp record /\
    box_attained record (cells_of labels sp (scan labels)).
Proof.
  intros Hpos.
  pose proof (scan_fits_ulong labels Hdims) as Hfit.
  destruct (Hash_loop_from_init input_image labels pixel_count_arr superpixel_count table
              (scan labels) Hfit Hrange Hone) as (st3 & Hrun3 & Hinv3 & Hlen3).
  assert (Hsp : 0 <= sp < superpixel_count).
  { destruct (nth_cell_of labels sp (scan labels) 1 ltac:(lia))
      as (d & c & r & E & Hl & _).
    unfold labels_in_range in Hrange. rewrite Forall_forall in Hrange.
    rewrite <- Hl. apply Hrange. rewrite E. apply elem_of_app. right. left. }
  destruct (array_get_in_range pixel_count_arr sp) as [expected He].
  { destruct Hone as [_ Hn]. lia. }
  pose proof (array_get_counts_are_true labels pixel_count_arr Htrue sp expected He) as Hexp.
  destruct (region_inserted_at input_image labels pixel_count_arr superpixel_count table
              Hdims Hone Hrange sp expected He ltac:(lia))
    as (done & cell & rest & record & st2 & E & Hl & Hcnt & Hrun2 & Hget & Hins & Hr & Hb).
  assert (Escan : scan labels = (done ++ [cell]) ++ rest).
  { rewrite E, <- app_assoc. reflexivity. }
  assert (Hz : count_cells labels sp rest = 0).
  { rewrite Escan, count_cells_app in Hexp. lia. }
  assert (Hrest : Hash_loop input_image labels pixel_count_arr rest st2 = (Returned, st3)).
  { rewrite Escan, Hash_loop_app, Hrun2 in Hrun3. exact Hrun3. }
  exists record, st3.
  split; [exact Hrun3|]. split; [|split; [exact Hins|split]].
  - rewrite (Hash_loop_untouched input_image labels pixel_count_arr rest st2 st3 sp Hz Hrest).
    exact Hget.
  - rewrite Escan. apply record_inv_others; [exact Hr|exact Hz].
  - rewrite Escan, cells_of_app, (cells_of_none labels sp rest Hz), app_nil_r. exact Hb.
Qed.

End CompleteRecords.

(** * The query records *)

Section QueryRecords.

Variables (query_image : Mat Vec3b) (query_labels : Mat Z).
Implicit Types (cell : nat * nat) (cells : list (nat * nat)) (sps : list HashKey).

(** The query loop does to its array what [Hash] does to [superpixels],
    whatever the expected counts and the table. *)
Lemma query_loop_Hash_loop (pixel_count_arr : list Z) cells :
  forall sps (table : gmap Z (list HashKey)),
  length pixel_count_arr = length sps ->
  query_loop query_image query_labels cells sps
  = (fst (Hash_loop query_image query_labels pixel_count_arr cells (mkHashState sps table)),
     superpixels (snd (Hash_loop query_image query_labels pixel_count_arr cells
                         (mkHashState sps table)))).
Proof.
  induction cells as [|c cells IH]; intros sps table Hlen; simpl; [reflexivity|].
  destruct (query_cell query_image query_labels c sps) as [sps'|] eqn:Hq.
  - unfold query_cell in Hq. destruct c as [row col].
    destruct (array_get sps (mat_at query_labels row col)) as [curr|] eqn:Hc; [|discriminate].
    inversion Hq; subst sps'; clear Hq.
    destruct (array_get_Some _ _ _ Hc) as [H0 H1].
    destruct (array_get_in_range pixel_count_arr (mat_at query_labels row col))
      as [expected He]; [lia|].
    unfold Hash_cell. simpl. rewrite Hc, He.
    repeat match goal with
    | |- context [if ?b then _ else _] => destruct b
    end; apply IH; simpl; rewrite array_set_length; exact Hlen.
  - unfold query_cell in Hq. destruct c as [row col].
    destruct (array_get sps (mat_at query_labels row col)) as [curr|] eqn:Hc; [discriminate|].
    unfold Hash_cell. simpl. rewrite Hc. reflexivity.
Qed.

Lemma calloc_lengths count :
  length (replicate (Z.to_nat count) 0) = length (calloc_HashKey count).
Proof. unfold calloc_HashKey. rewrite !length_replicate. reflexivity. Qed.

(** The query records of valid labels: one per superpixel, each with the
    invariant of the whole scan and a tight box. *)
Lemma build_query_records (query_superpixel_count : Z) :
  dims_are_int query_labels ->
  0 <= query_superpixel_count ->
  labels_in_range query_labels query_superpixel_count (scan query_labels) ->
  exists query_superpixels,
    build_query query_image query_labels query_superpixel_count
    = (Returned, query_superpixels) /\
    Z.of_nat (length query_superpixels) = query_superpixel_count /\
    agg_inv query_image query_labels (scan query_labels) query_superpixels /\
    box_inv query_labels (scan query_labels) query_superpixels.
Proof.
  intros Hd Hn Hr. unfold build_query.
  rewrite (query_loop_Hash_loop (replicate (Z.to_nat query_superpixel_count) 0) _ _ ∅
             (calloc_lengths query_superpixel_count)).
  assert (Hone : one_per_region (replicate (Z.to_nat query_superpixel_count) 0)
                   query_superpixel_count).
  { split; [exact Hn|]. rewrite length_replicate. lia. }
  pose proof (scan_fits_ulong query_labels Hd) as Hfit.
  destruct (Hash_loop_from_init query_image query_labels
              (replicate (Z.to_nat query_superpixel_count) 0) query_superpixel_count ∅
              (scan query_labels) Hfit Hr Hone) as (st & Hrun & Hinv & Hlen).
  unfold Hash_init in Hrun. rewrite Hrun. simpl.
  exists (superpixels st). split; [reflexivity|]. split; [exact Hlen|]. split; [exact Hinv|].
  apply (Hash_loop_box query_image query_labels
           (replicate (Z.to_nat query_superpixel_count) 0) (scan query_labels) []
           (mkHashState (calloc_HashKey query_superpixel_count) ∅) st).
  - apply agg_inv_calloc.
  - apply box_inv_calloc.
  - exact Hfit.
  - exact Hrun.
Qed.

(** The query loop leaves its array exactly where an identifier is outside
    it. *)
Lemma query_loop_returns cells : forall sps,
  fst (query_loop query_image query_labels cells sps) = Returned <->
  Forall (fun cell => 0 <= label_at query_labels cell < Z.of_nat (length sps)) cells.
Proof.
  induction cells as [|c cells IH]; intros sps; simpl.
  - split; [constructor|reflexivity].
  - unfold query_cell, label_at. destruct c as [row col].
    destruct (array_get sps (mat_at query_labels row col)) as [curr|] eqn:Hc.
    + rewrite IH, array_set_length. destruct (array_get_Some _ _ _ Hc) as [H0 H1].
      split; [intros H; constructor; [simpl; lia|exact H]|].
      intros H. apply Forall_cons in H. tauto.
    + simpl. split; [discriminate|]. intros H. apply Forall_cons in H as [H _].
      simpl in H. destruct (array_get_in_range sps _ H) as [x Hx]. congruence.
Qed.

End QueryRecords.

(** * One turn of the database loop *)

Section IndexImage.

Variables (table : gmap Z (list HashKey)) (seg : Segmented).

Hypothesis Hdims : dims_are_int (seg_labels seg).
Hypothesis Hcount : 0 <= seg_count seg.
Hypothesis Hrange :
  labels_in_range (seg_labels seg) (seg_count seg) (scan (seg_labels seg)).

(** The turn is the pass with the true counts. *)
Lemma index_image_as_Hash :
  exists pixel_count_arr,
    count_pixels (seg_labels seg) (seg_count seg) = (Returned, pixel_count_arr) /\
    one_per_region pixel_count_arr (seg_count seg) /\
    counts_are_true (seg_labels seg) pixel_count_arr /\
    index_image table seg
    = Hash table (seg_image seg) (seg_labels seg) (seg_count seg) pixel_count_arr.
Proof.
  destruct (count_pixels_counts (seg_labels seg) (seg_count seg) Hdims) as [_ H].
  destruct (H Hrange Hcount) as (arr & Hc & Hone & Htrue & _).
  exists arr. unfold index_image. rewrite Hc. auto.
Qed.

(** What the turn files, region by region. *)
Lemma index_image_regions :
  exists insertions,
    index_image table seg = (Returned, replay insertions table) /\
    forall sp,
      (count_cells (seg_labels seg) sp (scan (seg_labels seg)) = 0 ->
       insertions_of sp insertions = []) /\
      (0 < count_cells (seg_labels seg) sp (scan (seg_labels seg)) ->
       exists record,
         insertions_of sp insertions = [(sp, calculate_hash_key record, record)] /\
         array_get (snd (build_query (seg_image seg) (seg_labels seg) (seg_count seg))) sp
         = Some record /\
         record ∈ default [] (replay insertions table !! calculate_hash_key record) /\
         calculate_hash_key record <> sentinel /\
         original_image record = address_of (seg_image seg) /\
         pixel_count record = count_cells (seg_labels seg) sp (scan (seg_labels seg)) /\
         (255 * (Z.of_nat (rows (seg_labels seg)) * Z.of_nat (cols (seg_labels seg)))
          <= LONG_MAX ->
          l_tot record
          = channel_sum (seg_image seg) (seg_labels seg) 0 sp (scan (seg_labels seg)) /\
          a_tot record
          = channel_sum (seg_image seg) (seg_labels seg) 1 sp (scan (seg_labels seg)) /\
          b_tot record
          = channel_sum (seg_image seg) (seg_labels seg) 2 sp (scan (seg_labels seg))) /\
         (forall cell, cell ∈ scan (seg_labels seg) ->
                       label_at (seg_labels seg) cell = sp -> in_box record cell) /\
         box_attained record (cells_of (seg_labels seg) sp (scan (seg_labels seg)))).
Proof.
  destruct index_image_as_Hash as (arr & Hc & Hone & Htrue & ->).
  set (insertions := Hash_insertions (seg_image seg) (seg_labels seg) arr
                       (scan (seg_labels seg)) (Hash_init (seg_count seg) table)).
  exists insertions. split.
  - destruct (Hash_loop_from_init (seg_image seg) (seg_labels seg) arr (seg_count seg) table
                (scan (seg_labels seg))) as (st & Hrun & _ & _);
      [apply scan_fits_ulong; exact Hdims|exact Hrange|exact Hone|].
    rewrite (Hash_eq_loop _ _ _ _ _ _ _ Hrun). f_equal.
    pose proof (Hash_loop_insertions (seg_image seg) (seg_labels seg) arr
                  (scan (seg_labels seg)) (Hash_init (seg_count seg) table)) as Hrep.
    rewrite Hrun in Hrep. exact Hrep.
  - intros sp. split.
    + intros Hz. apply filter_none. intros ins Hin Hsp.
      pose proof (Hash_insertions_sound (seg_image seg) (seg_labels seg) arr
                    (scan (seg_labels seg)) (Hash_init (seg_count seg) table)
                    (Hash_init_owner (seg_count seg) table)) as Hs.
      rewrite Forall_forall in Hs. destruct (Hs ins Hin) as ((cell & Hcell & Hl) & _).
      apply (count_cells_zero (seg_labels seg) sp _ Hz cell Hcell). congruence.
    + intros Hpos.
      destruct (region_inserted_once (seg_image seg) (seg_labels seg) arr (seg_count seg)
                  table Hdims Hone Hrange Htrue sp Hpos)
        as (record & stf & Hrunf & Hget & Hins & Hr & Hb).
      fold insertions in Hins.
      assert (Hin : (sp, calculate_hash_key record, record) ∈ insertions).
      { assert (H : (sp, calculate_hash_key record, record) ∈ insertions_of sp insertions)
          by (rewrite Hins; left).
        unfold insertions_of in H. apply list_elem_of_filter in H. tauto. }
      exists record. split; [exact Hins|].
      split; [|split; [|split; [|split; [|split; [|split; [|split]]]]]].
      * unfold build_query.
        rewrite (query_loop_Hash_loop (seg_image seg) (seg_labels seg) arr _ _ table).
        -- unfold Hash_init in Hrunf. rewrite Hrunf. exact Hget.
        -- destruct Hone as [_ Hone']. apply Nat2Z.inj.
           rewrite Hone', calloc_HashKey_length by exact Hcount. reflexivity.
      * rewrite replay_bucket. apply elem_of_app. right.
        unfold inserted_under. apply list_elem_of_fmap.
        exists (sp, calculate_hash_key record, record). split; [reflexivity|].
        apply list_elem_of_filter. split; [reflexivity|exact Hin].
      * destruct (Hash_insertions_elem (seg_image seg) (seg_labels seg) arr _ _ _ Hin)
          as (d & c & r & st & _ & _ & Hci).
        apply Hash_cell_insertion_Some in Hci. tauto.
      * apply (inv_owner _ _ _ _ _ Hr). exact Hpos.
      * apply (inv_count _ _ _ _ _ Hr).
      * intros Hfit. apply (inv_sums _ _ _ _ _ Hr).
        rewrite scan_length, Nat2Z.inj_mul. exact Hfit.
      * intros cell Hcell Hl. apply (inv_box _ _ _ _ _ Hr).
        unfold cells_of. apply list_elem_of_filter. auto.
      * exact Hb.
Qed.

End IndexImage.

(** * The database loop *)

Section BuildIndex.

Implicit Types (table : gmap Z (list HashKey)) (seg : Segmented)
               (database : list Segmented).

(** A turn appends its insertions to whatever table is there. *)
Lemma index_image_replay table seg :
  index_image table seg
  = (fst (index_image ∅ seg), replay (index_insertions seg) table).
Proof.
  unfold index_image, index_insertions.
  destruct (count_pixels (seg_labels seg) (seg_count seg)) as [[|] arr].
  - rewrite (Hash_replay_from _ _ _ _ table ∅). reflexivity.
  - reflexivity.
Qed.

Lemma build_index_returns database : forall table,
  fst (build_index database table) = Returned <-> Forall indexable database.
Proof.
  induction database as [|seg database IH]; intros table; simpl.
  - split; [constructor|reflexivity].
  - rewrite (index_image_replay table seg).
    destruct (fst (index_image ∅ seg)) eqn:Hs.
    + rewrite IH. split; [intros H; constructor; assumption|].
      intros H. apply Forall_cons in H. tauto.
    + simpl. split; [discriminate|]. intros H. apply Forall_cons in H as [H _].
      unfold indexable in H. congruence.
Qed.

Lemma build_index_table database : forall table,
  Forall indexable database ->
  build_index database table
  = (Returned, replay (flat_map index_insertions database) table).
Proof.
  induction database as [|seg database IH]; intros table Hall; simpl; [reflexivity|].
  apply Forall_cons in Hall as [Hseg Hall].
  rewrite (index_image_replay table seg). unfold indexable in Hseg. rewrite Hseg.
  rewrite (IH _ Hall), replay_app. reflexivity.
Qed.

End BuildIndex.

(** * Who can be shown *)

Section Owners.

Variables (input_image : Mat Vec3b) (labels : Mat Z) (pixel_count_arr : list Z).

Lemma accumulate_owner_eq (image : mat_ptr) lab_pixel row col curr :
  (pixel_count curr <> 0 -> original_image curr = image) ->
  original_image (accumulate image lab_pixel row col curr) = image.
Proof.
  intros H. destruct (Z.eq_dec (pixel_count curr) 0) as [E0|N0].
  - apply accumulate_first. exact E0.
  - destruct (accumulate_next image lab_pixel row col curr N0) as (_ & _ & ->). auto.
Qed.

(** Every record a pass inserts is owned by the image of the pass. *)
Lemma Hash_insertions_owner cells : forall st,
  (forall record, record ∈ superpixels st ->
     pixel_count record <> 0 -> original_image record = address_of input_image) ->
  Forall (fun ins : Z * Z * HashKey => original_image (snd ins) = address_of input_image)
         (Hash_insertions input_image labels pixel_count_arr cells st).
Proof.
  induction cells as [|c cells IH]; intros st Hown; simpl; [constructor|].
  destruct (Hash_cell input_image labels pixel_count_arr c st) as [st1|] eqn:Hstep;
    [|constructor].
  assert (Hown1 : forall record, record ∈ superpixels st1 ->
            pixel_count record <> 0 -> original_image record = address_of input_image).
  { destruct (Hash_cell_superpixels _ _ _ _ _ _ Hstep) as (curr & e & Hc & _ & ->).
    intros record Hin. unfold array_set in Hin.
    apply list_elem_of_lookup in Hin as [i Hi].
    destruct (decide (i = Z.to_nat (label_at labels c))) as [->|Hne].
    - rewrite list_lookup_insert_eq in Hi
        by (apply array_get_Some in Hc; tauto).
      inversion Hi; subst record. intros _. unfold accumulate_at.
      apply accumulate_owner_eq.
      apply Hown. unfold array_get in Hc.
      destruct (label_at labels c <? 0); [discriminate|].
      eapply list_elem_of_lookup_2; eassumption.
    - rewrite list_lookup_insert_ne in Hi by auto.
      apply Hown. eapply list_elem_of_lookup_2; eassumption. }
  apply Forall_app. split.
  - destruct (Hash_cell_insertion input_image labels pixel_count_arr c (superpixels st))
      as [[[sp key] record]|] eqn:Hins; [|constructor].
    constructor; [|constructor]. simpl.
    destruct (Hash_cell_insertion_Some _ _ _ _ _ _ _ _ Hins)
      as (-> & -> & Hk & curr & Hc & -> & He).
    unfold accumulate_at. apply accumulate_owner_eq.
    apply Hown. unfold array_get in Hc.
    destruct (label_at labels c <? 0); [discriminate|].
    eapply list_elem_of_lookup_2; eassumption.
  - apply IH. exact Hown1.
Qed.

End Owners.

Section Shown.

Implicit Types (table : gmap Z (list HashKey)) (seg : Segmented)
               (database : list Segmented).

Lemma index_insertions_owner seg :
  Forall (fun ins : Z * Z * HashKey => original_image (snd ins) = address_of (seg_image seg))
         (index_insertions seg).
Proof.
  unfold index_insertions.
  destruct (count_pixels (seg_labels seg) (seg_count seg)) as [[|] arr]; [|constructor].
  apply Hash_insertions_owner. simpl. intros record Hin. unfold calloc_HashKey in Hin.
  apply elem_of_replicate in Hin as [-> _]. simpl. intros N. contradiction.
Qed.

(** A positive sum has a positive term. *)
Lemma sum_votes_pos table image (queries : list HashKey) :
  foldr Z.add 0 (map (votes_of_query table image) queries) <> 0 ->
  exists query, query ∈ queries /\ 0 < votes_of_query table image query.
Proof.
  induction queries as [|q l IH]; simpl; [contradiction|].
  intros H. pose proof (votes_of_query_nonneg table image q).
  destruct (Z.eq_dec (votes_of_query table image q) 0) as [E|N].
  - destruct IH as (query & Hin & Hpos); [lia|]. exists query. split; [right|]; assumption.
  - exists q. split; [left|lia].
Qed.

(** An image with an entry in the tallies owns a record in the bucket of a
    query record. *)
Lemma vote_entry_owner table (queries : list HashKey) image c :
  vote table queries !! image = Some c ->
  exists query record,
    query ∈ queries /\ calculate_hash_key query <> sentinel /\
    record ∈ default [] (table !! calculate_hash_key query) /\
    original_image record = image.
Proof.
  intros Hc. pose proof (lookup_vote table queries image) as Hl. unfold counted in Hl.
  rewrite Hc in Hl.
  destruct (decide (foldr Z.add 0 (map (votes_of_query table image) queries) = 0));
    [discriminate|].
  destruct (sum_votes_pos table image queries n) as (query & Hin & Hpos).
  unfold votes_of_query in Hpos.
  destruct (Z.eqb_spec (calculate_hash_key query) sentinel) as [|Hk]; [lia|].
  destruct (owned_in_bucket table (calculate_hash_key query) image) as [|record l] eqn:Ho;
    [simpl in Hpos; lia|].
  assert (Hr : record ∈ owned_in_bucket table (calculate_hash_key query) image)
    by (rewrite Ho; left).
  unfold owned_in_bucket in Hr. apply list_elem_of_filter in Hr as [Hown Hr].
  exists query, record. auto.
Qed.

Lemma tally_lookup (match_counts : gmap mat_ptr Z) (p : mat_ptr) (c : Z) :
  match_counts !! p = Some c -> tally match_counts p = c.
Proof. intros H. unfold tally. rewrite H. reflexivity. Qed.

Lemma tally_positive (match_counts : gmap mat_ptr Z) (p : mat_ptr) (c : Z) :
  tally match_counts p = c -> 0 < c -> match_counts !! p = Some c.
Proof.
  unfold tally. intros H Hc. destruct (match_counts !! p) as [c'|]; simpl in H; [|lia].
  rewrite H. reflexivity.
Qed.

(** What [retrieve] shows has a positive entry in the tallies. *)
Lemma retrieve_BestMatch table (queries : list HashKey) a :
  retrieve table queries = BestMatch a ->
  exists c, vote table queries !! Some a = Some c /\ 0 < c /\
            best_match (vote table queries) = (Some a, c).
Proof.
  unfold retrieve. intros H.
  destruct (best_match_cases (vote table queries)) as [[E _]|(Hb & Hpos & _)].
  - rewrite E in H. discriminate.
  - destruct (best_match (vote table queries)) as [[b|] m]; simpl in *; [|discriminate].
    inversion H; subst b. exists m. auto.
Qed.

Lemma replay_records_elem insertions : forall table key record,
  record ∈ default [] (replay insertions table !! key) ->
  record ∈ default [] (table !! key) \/
  exists ins, ins ∈ insertions /\ snd ins = record.
Proof.
  intros table key record. rewrite replay_bucket. intros H.
  apply elem_of_app in H as [H|H]; [left; exact H|right].
  unfold inserted_under in H. apply list_elem_of_fmap in H as (ins & -> & Hin).
  apply list_elem_of_filter in Hin as [_ Hin]. exists ins. auto.
Qed.

(** The owners of the records of a database built from nothing are the
    database images. *)
Lemma build_index_owner database table key record :
  build_index database ∅ = (Returned, table) ->
  record ∈ default [] (table !! key) ->
  exists seg, seg ∈ database /\ original_image record = address_of (seg_image seg).
Proof.
  intros Hb Hr.
  assert (Hall : Forall indexable database).
  { apply (build_index_returns database ∅). rewrite Hb. reflexivity. }
  rewrite (build_index_table _ _ Hall) in Hb. inversion Hb; subst table; clear Hb.
  apply replay_records_elem in Hr as [Hr|(ins & Hin & <-)].
  - rewrite lookup_empty in Hr. inversion Hr.
  - apply list_elem_of_In, in_flat_map in Hin as (seg & Hseg & Hin).
    exists seg. split; [apply list_elem_of_In; exact Hseg|].
    pose proof (index_insertions_owner seg) as Ho. rewrite Forall_forall in Ho.
    apply Ho. apply list_elem_of_In. exact Hin.
Qed.

End Shown.

(** * Ties *)

Section Ties.

#[local] Instance ptr_le_total : Total ptr_le.
Proof. intros [a|] [b|]; simpl; auto. lia. Qed.

#[local] Instance ptr_le_trans : Transitive ptr_le.
Proof. intros [a|] [b|] [c|]; simpl; auto; try contradiction. lia. Qed.

#[local] Instance entry_le_total : Total entry_le.
Proof. intros x y. apply ptr_le_total. Qed.

#[local] Instance entry_le_trans : Transitive entry_le.
Proof. intros x y z. apply ptr_le_trans. Qed.

Lemma entries_sorted (match_counts : gmap mat_ptr Z) :
  StronglySorted entry_le (entries match_counts).
Proof. unfold entries. apply StronglySorted_merge_sort; apply _. Qed.

(** Over a sorted run the selection keeps the first of the largest
    entries above the starting value. *)
Lemma select_fold_first (l : list (mat_ptr * Z)) :
  StronglySorted entry_le l ->
  forall acc,
    (fold_left select l acc = acc /\ forall pair, pair ∈ l -> snd pair <= snd acc) \/
    (fold_left select l acc ∈ l /\ snd acc < snd (fold_left select l acc) /\
     forall pair, pair ∈ l ->
       snd pair <= snd (fold_left select l acc) /\
       (snd pair = snd (fold_left select l acc) ->
        entry_le (fold_left select l acc) pair)).
Proof.
  induction 1 as [|x l Hs IH Hx]; intros acc; simpl.
  - left. split; [reflexivity|]. intros pair Hp. inversion Hp.
  - assert (Hsel : (select acc x = x /\ snd acc < snd x) \/
                   (select acc x = acc /\ snd x <= snd acc)).
    { unfold select. destruct acc as [b m], x as [p c]. simpl.
      destruct (Z.gtb_spec c m); [left|right]; split; auto; lia. }
    rewrite Forall_forall in Hx.
    destruct Hsel as [[-> Hlt]|[-> Hle]].
    + right. destruct (IH x) as [[E Hall]|(Hin & Hgt & Hall)].
      * rewrite E. split; [left|]. split; [exact Hlt|].
        intros pair Hp. apply elem_of_cons in Hp as [->|Hp].
        -- split; [lia|]. intros _. destruct (total entry_le x x); assumption.
        -- split; [apply Hall; exact Hp|]. intros _. apply Hx. exact Hp.
      * split; [right; exact Hin|]. split; [lia|].
        intros pair Hp. apply elem_of_cons in Hp as [->|Hp].
        -- split; [lia|]. intros E. lia.
        -- apply Hall. exact Hp.
    + destruct (IH acc) as [[E Hall]|(Hin & Hgt & Hall)].
      * left. split; [exact E|]. intros pair Hp.
        apply elem_of_cons in Hp as [->|Hp]; [exact Hle|apply Hall; exact Hp].
      * right. split; [right; exact Hin|]. split; [exact Hgt|].
        intros pair Hp. apply elem_of_cons in Hp as [->|Hp].
        -- split; [lia|]. intros E. lia.
        -- apply Hall. exact Hp.
Qed.

(** Of the images with the largest tally, the one of lowest address is
    chosen. *)
Lemma best_match_first (match_counts : gmap mat_ptr Z) a c :
  best_match match_counts = (Some a, c) ->
  forall b, match_counts !! Some b = Some c -> (a <= b)%N.
Proof.
  intros Hb b Hlook. unfold best_match in Hb.
  destruct (select_fold_first (entries match_counts) (entries_sorted match_counts)
              (nullptr, 0)) as [[E _]|(_ & _ & Hall)].
  - rewrite E in Hb. discriminate.
  - rewrite Hb in Hall.
    destruct (Hall (Some b, c)) as [_ Hle]; [apply elem_of_entries; exact Hlook|].
    apply (Hle eq_refl).
Qed.

End Ties.

(** * A query that shows an indexed image *)

Section SamePicture.

Lemma accumulate_same_stats (i1 i2 : mat_ptr) lab_pixel row col (k1 k2 : HashKey) :
  same_stats k1 k2 ->
  same_stats (accumulate i1 lab_pixel row col k1) (accumulate i2 lab_pixel row col k2).
Proof.
  intros (El & Ea & Eb & Ex & Ey & Ep). unfold accumulate.
  rewrite El, Ea, Eb, Ex, Ey, Ep.
  destruct (pixel_count k2 =? 0); repeat split.
Qed.

Lemma calculate_hash_key_same_stats (k1 k2 : HashKey) :
  same_stats k1 k2 -> calculate_hash_key k1 = calculate_hash_key k2.
Proof.
  intros (El & Ea & Eb & Ex & Ey & Ep). unfold calculate_hash_key.
  rewrite El, Ea, Eb, Ex, Ey, Ep. reflexivity.
Qed.

Lemma same_stats_refl (k : HashKey) : same_stats k k.
Proof. repeat split. Qed.

Variables (image1 image2 : Mat Vec3b) (labels1 labels2 : Mat Z).

(** The query loop on equal pixels and labels builds records with equal
    statistics. *)
Lemma query_loop_same_stats (cells : list (nat * nat)) :
  (forall cell, cell ∈ cells ->
     label_at labels1 cell = label_at labels2 cell /\
     mat_at image1 (fst cell) (snd cell) = mat_at image2 (fst cell) (snd cell)) ->
  forall sps1 sps2,
    Forall2 same_stats sps1 sps2 ->
    fst (query_loop image1 labels1 cells sps1) = fst (query_loop image2 labels2 cells sps2) /\
    Forall2 same_stats (snd (query_loop image1 labels1 cells sps1))
                       (snd (query_loop image2 labels2 cells sps2)).
Proof.
  induction cells as [|c cells IH]; intros Hsame sps1 sps2 HF; simpl; [auto|].
  destruct (Hsame c ltac:(left)) as [Hl Hp].
  unfold query_cell. destruct c as [row col]. unfold label_at in Hl. simpl in Hl, Hp.
  rewrite Hl, Hp. unfold array_get, array_set.
  destruct (mat_at labels2 row col <? 0); [simpl; auto|].
  pose proof (proj1 (Forall2_lookup _ _ _) HF (Z.to_nat (mat_at labels2 row col))) as Ho.
  inversion Ho as [k1 k2 Hk E1 E2|E1 E2]; [|simpl; auto].
  apply IH.
  - intros cell Hc. apply Hsame. right. exact Hc.
  - apply Forall2_insert; [exact HF|]. apply accumulate_same_stats. exact Hk.
Qed.

End SamePicture.

Section SelfRetrieval.

Variables (table : gmap Z (list HashKey)) (seg query : Segmented).

Hypothesis Hdims : dims_are_int (seg_labels seg).
Hypothesis Hcount : 0 <= seg_count seg.
Hypothesis Hrange :
  labels_in_range (seg_labels seg) (seg_count seg) (scan (seg_labels seg)).
Hypothesis Hsame : same_picture query seg.

Lemma same_picture_scan : scan (seg_labels query) = scan (seg_labels seg).
Proof. destruct Hsame as (Hr & Hc & _). unfold scan. rewrite Hr, Hc. reflexivity. Qed.

Lemma same_picture_cells (cell : nat * nat) :
  cell ∈ scan (seg_labels seg) ->
  label_at (seg_labels query) cell = label_at (seg_labels seg) cell /\
  mat_at (seg_image query) (fst cell) (snd cell)
  = mat_at (seg_image seg) (fst cell) (snd cell).
Proof.
  intros Hc. apply scan_elem in Hc as [H1 H2].
  destruct Hsame as (_ & _ & _ & Hl & Hp). split; [apply Hl|apply Hp]; assumption.
Qed.

Lemma same_picture_range :
  dims_are_int (seg_labels query) /\ 0 <= seg_count query /\
  labels_in_range (seg_labels query) (seg_count query) (scan (seg_labels query)).
Proof.
  pose proof Hsame as (Hr & Hc & Hn & _).
  split; [unfold dims_are_int in *; rewrite Hr, Hc; exact Hdims|].
  split; [rewrite Hn; exact Hcount|].
  rewrite same_picture_scan, Hn. unfold labels_in_range in *.
  rewrite Forall_forall in *. intros cell Hcell.
  rewrite (proj1 (same_picture_cells cell Hcell)). apply Hrange. exact Hcell.
Qed.

(** The query records have the statistics of the records that the query
    loop builds on the indexed image. *)
Lemma same_picture_queries :
  exists queries records,
    build_query (seg_image query) (seg_labels query) (seg_count query) = (Returned, queries) /\
    build_query (seg_image seg) (seg_labels seg) (seg_count seg) = (Returned, records) /\
    Forall2 same_stats queries records /\
    agg_inv (seg_image seg) (seg_labels seg) (scan (seg_labels seg)) records.
Proof.
  destruct same_picture_range as (Hd' & Hc' & Hr').
  destruct (build_query_records (seg_image query) (seg_labels query) (seg_count query)
              Hd' Hc' Hr') as (queries & Hq & _ & _ & _).
  destruct (build_query_records (seg_image seg) (seg_labels seg) (seg_count seg)
              Hdims Hcount Hrange) as (records & Hrec & _ & Hinv & _).
  exists queries, records. split; [exact Hq|]. split; [exact Hrec|]. split; [|exact Hinv].
  unfold build_query in *.
  destruct (query_loop_same_stats (seg_image query) (seg_image seg)
              (seg_labels query) (seg_labels seg) (scan (seg_labels seg))
              same_picture_cells
              (calloc_HashKey (seg_count seg)) (calloc_HashKey (seg_count seg))) as [_ HF].
  { apply Forall_Forall2_diag. apply Forall_forall. intros k _. apply same_stats_refl. }
  rewrite <- same_picture_scan in HF at 1.
  destruct Hsame as (_ & _ & Hn & _). rewrite Hn in Hq.
  rewrite Hq, Hrec in HF. exact HF.
Qed.

Lemma key_not_sentinel (k : HashKey) :
  pixel_count k <> 0 -> calculate_hash_key k <> sentinel.
Proof.
  intros Hp. destruct (calculate_hash_key_nonzero k Hp) as (l & a & b & x & y & Hr & ->).
  unfold sentinel. lia.
Qed.

(** Every query record with pixels finds, in the bucket of its key, a
    record of the indexed image. *)
Lemma same_picture_votes (queries : list HashKey) :
  build_query (seg_image query) (seg_labels query) (seg_count query) = (Returned, queries) ->
  forall q, q ∈ queries -> pixel_count q <> 0 ->
    1 <= votes_of_query (snd (index_image table seg)) (address_of (seg_image seg)) q.
Proof.
  intros Hq q Hin Hp.
  destruct same_picture_queries as (queries' & records & Hq' & Hrec & HF & Hinv).
  rewrite Hq in Hq'. inversion Hq'; subst queries'; clear Hq'.
  apply list_elem_of_lookup in Hin as [i Hi].
  destruct (Forall2_lookup_l _ _ _ _ _ HF Hi) as (d & Hd & Hs).
  assert (Hget : array_get records (Z.of_nat i) = Some d).
  { unfold array_get. destruct (Z.ltb_spec (Z.of_nat i) 0); [lia|].
    rewrite Nat2Z.id. exact Hd. }
  pose proof (Hinv _ _ Hget) as Hr.
  assert (Hpos : 0 < count_cells (seg_labels seg) (Z.of_nat i) (scan (seg_labels seg))).
  { pose proof (count_cells_nonneg (seg_labels seg) (Z.of_nat i) (scan (seg_labels seg))).
    assert (Hd0 : pixel_count d <> 0)
      by (destruct Hs as (_ & _ & _ & _ & _ & <-); exact Hp).
    rewrite (inv_count _ _ _ _ _ Hr) in Hd0. lia. }
  destruct (index_image_regions table seg Hdims Hcount Hrange) as (insertions & Hidx & Hall).
  destruct (Hall (Z.of_nat i)) as [_ Hreg].
  destruct (Hreg Hpos) as (record & _ & Hget' & Hbucket & _ & Hown & _).
  rewrite Hrec in Hget'. simpl in Hget'. rewrite Hget in Hget'.
  inversion Hget'; subst record; clear Hget'.
  rewrite Hidx. simpl. unfold votes_of_query.
  destruct (Z.eqb_spec (calculate_hash_key q) sentinel) as [E|_];
    [exfalso; exact (key_not_sentinel q Hp E)|].
  rewrite (calculate_hash_key_same_stats q d Hs).
  assert (Hin : d ∈ owned_in_bucket (replay insertions table) (calculate_hash_key d)
                     (address_of (seg_image seg))).
  { unfold owned_in_bucket. apply list_elem_of_filter. auto. }
  destruct (owned_in_bucket (replay insertions table) (calculate_hash_key d)
              (address_of (seg_image seg))); [inversion Hin|simpl; lia].
Qed.

Lemma sum_votes_occupied (t : gmap Z (list HashKey)) image (queries : list HashKey) :
  (forall q, q ∈ queries -> pixel_count q <> 0 -> 1 <= votes_of_query t image q) ->
  Z.of_nat (length (occupied queries))
  <= foldr Z.add 0 (map (votes_of_query t image) queries).
Proof.
  unfold occupied. induction queries as [|q l IH]; intros H; simpl; [lia|].
  pose proof (votes_of_query_nonneg t image q).
  assert (IH' := IH (fun q' Hq' => H q' ltac:(right; exact Hq'))).
  rewrite filter_cons. destruct (decide (pixel_count q <> 0)) as [Hp|_]; [|lia].
  pose proof (H q ltac:(left) Hp). simpl length. lia.
Qed.

(** A grid with cells has a query record with pixels. *)
Lemma occupied_nonempty (queries : list HashKey) :
  build_query (seg_image query) (seg_labels query) (seg_count query) = (Returned, queries) ->
  (0 < rows (seg_labels seg))%nat -> (0 < cols (seg_labels seg))%nat ->
  (0 < length (occupied queries))%nat.
Proof.
  intros Hq Hr Hc.
  destruct same_picture_range as (Hd' & Hc' & Hr').
  destruct (build_query_records (seg_image query) (seg_labels query) (seg_count query)
              Hd' Hc' Hr') as (queries' & Hq' & Hlen & Hinv & _).
  rewrite Hq in Hq'. inversion Hq'; subst queries'; clear Hq'.
  assert (Hcell : (0%nat, 0%nat) ∈ scan (seg_labels query)).
  { rewrite same_picture_scan. unfold scan. apply list_elem_of_In, in_flat_map.
    exists 0%nat. split; [apply in_seq; lia|].
    apply in_map. apply in_seq. lia. }
  set (sp := label_at (seg_labels query) (0%nat, 0%nat)).
  assert (Hsp : 0 <= sp < seg_count query).
  { unfold labels_in_range in Hr'. rewrite Forall_forall in Hr'. apply Hr'. exact Hcell. }
  destruct (array_get_in_range queries sp ltac:(lia)) as [q Hget].
  pose proof (Hinv _ _ Hget) as Hrec.
  pose proof (count_cells_pos (seg_labels query) sp _ _ Hcell eq_refl) as Hpos.
  assert (Hin : q ∈ occupied queries).
  { unfold occupied. apply list_elem_of_filter. split.
    - rewrite (inv_count _ _ _ _ _ Hrec). lia.
    - unfold array_get in Hget. destruct (sp <? 0); [discriminate|].
      eapply list_elem_of_lookup_2. exact Hget. }
  destruct (occupied queries); [inversion Hin|simpl; lia].
Qed.

End SelfRetrieval.

(** * Reading the buckets off a key *)

Section KeyDigits.

(** The key of a record with pixels over its five clamped buckets. *)
Lemma calculate_hash_key_buckets (key : HashKey) :
  pixel_count key <> 0 ->
  exists l a b x y,
    clamped_buckets key = (l, a, b, x, y) /\
    (0 <= l <= 15 /\ 0 <= a <= 15 /\ 0 <= b <= 15 /\ 0 <= x <= 9 /\ 0 <= y <= 9) /\
    calculate_hash_key key = (((l * 16 + a) * 16 + b) * 10 + x) * 10 + y.
Proof.
  intros Hpc. unfold calculate_hash_key, clamped_buckets.
  destruct (Z.eqb_spec (pixel_count key) 0) as [E|_]; [contradiction|].
  cbv zeta. change (dims_at 0) with 16. change (dims_at 1) with 16.
  change (dims_at 2) with 16. change (dims_at 3) with 10. change (dims_at 4) with 10.
  match goal with
  | |- context [int_add (int_mul (int_add (int_mul (int_add (int_mul (int_add
         (int_mul (clamp_bucket ?l _) _) (clamp_bucket ?a _)) _) (clamp_bucket ?b _)) _)
         (clamp_bucket ?x _)) _) (clamp_bucket ?y _)] =>
      pose proof (clamp_bucket_range l 16 ltac:(lia));
      pose proof (clamp_bucket_range a 16 ltac:(lia));
      pose proof (clamp_bucket_range b 16 ltac:(lia));
      pose proof (clamp_bucket_range x 10 ltac:(lia));
      pose proof (clamp_bucket_range y 10 ltac:(lia));
      exists (clamp_bucket l 16), (clamp_bucket a 16), (clamp_bucket b 16),
             (clamp_bucket x 10), (clamp_bucket y 10)
  end.
  split; [reflexivity|]. split; [lia|]. apply hash_chain_exact; lia.
Qed.

Lemma key_digits_chain l a b x y :
  0 <= l <= 15 -> 0 <= a <= 15 -> 0 <= b <= 15 -> 0 <= x <= 9 -> 0 <= y <= 9 ->
  key_digits ((((l * 16 + a) * 16 + b) * 10 + x) * 10 + y) = (l, a, b, x, y).
Proof.
  intros Hl Ha Hb Hx Hy. unfold key_digits.
  set (K := (((l * 16 + a) * 16 + b) * 10 + x) * 10 + y).
  assert (E1 : K / 25600 = l).
  { subst K. symmetry. apply (Z.div_unique _ _ _ (a * 1600 + b * 100 + x * 10 + y)); lia. }
  assert (E2 : K / 1600 = l * 16 + a).
  { subst K. symmetry. apply (Z.div_unique _ _ _ (b * 100 + x * 10 + y)); lia. }
  assert (E3 : K / 100 = (l * 16 + a) * 16 + b).
  { subst K. symmetry. apply (Z.div_unique _ _ _ (x * 10 + y)); lia. }
  assert (E4 : K / 10 = ((l * 16 + a) * 16 + b) * 10 + x).
  { subst K. symmetry. apply (Z.div_unique _ _ _ y); lia. }
  assert (E5 : K mod 10 = y).
  { subst K. symmetry.
    apply (Z.mod_unique _ _ (((l * 16 + a) * 16 + b) * 10 + x)); lia. }
  rewrite E1, E2, E3, E4, E5.
  assert (F2 : (l * 16 + a) mod 16 = a)
    by (symmetry; apply (Z.mod_unique _ _ l); lia).
  assert (F3 : ((l * 16 + a) * 16 + b) mod 16 = b)
    by (symmetry; apply (Z.mod_unique _ _ (l * 16 + a)); lia).
  assert (F4 : (((l * 16 + a) * 16 + b) * 10 + x) mod 10 = x)
    by (symmetry; apply (Z.mod_unique _ _ ((l * 16 + a) * 16 + b)); lia).
  rewrite F2, F3, F4. reflexivity.
Qed.

Lemma key_digits_buckets (key : HashKey) :
  pixel_count key <> 0 -> key_digits (calculate_hash_key key) = clamped_buckets key.
Proof.
  intros Hp.
  destruct (calculate_hash_key_buckets key Hp) as (l & a & b & x & y & -> & Hr & ->).
  apply key_digits_chain; lia.
Qed.

End KeyDigits.

(** * Bounds on the tallies *)

Section TallyBounds.

Implicit Types (table : gmap Z (list HashKey)) (queries : list HashKey).

Lemma bucket_length_le table key :
  (length (default [] (table !! key)) <= length (table_records table))%nat.
Proof.
  destruct (table !! key) as [bucket|] eqn:Hb; simpl; [|lia].
  rewrite (Permutation_length (table_records_delete table key bucket Hb)), length_app. lia.
Qed.

Lemma votes_of_query_le table image query :
  votes_of_query table image query <= Z.of_nat (length (table_records table)).
Proof.
  unfold votes_of_query, owned_in_bucket.
  destruct (_ =? _); [lia|].
  pose proof (length_filter (fun record => original_image record = image)
                (default [] (table !! calculate_hash_key query))).
  pose proof (bucket_length_le table (calculate_hash_key query)). lia.
Qed.

Lemma sum_votes_le table image queries :
  foldr Z.add 0 (map (votes_of_query table image) queries)
  <= Z.of_nat (length queries) * Z.of_nat (length (table_records table)).
Proof.
  induction queries as [|q l IH]; simpl length; simpl foldr; [lia|].
  pose proof (votes_of_query_le table image q). lia.
Qed.

(** In a table built by [Hash] the null pointer has no entry in the
    tallies. *)
Lemma vote_nullptr table queries :
  table_inv table -> vote table queries !! nullptr = None.
Proof.
  intros Hinv. destruct (vote table queries !! nullptr) as [c|] eqn:Hc; [|reflexivity].
  destruct (vote_entry_owner table queries nullptr c Hc) as (q & r & _ & _ & Hr & Ho).
  destruct (table !! calculate_hash_key q) as [bucket|] eqn:Hb; simpl in Hr;
    [|inversion Hr].
  pose proof (Hinv _ _ Hb) as Hf. rewrite Forall_forall in Hf.
  destruct (Hf r Hr) as (_ & _ & Hn). contradiction.
Qed.

Lemma index_image_table_inv table seg :
  table_inv table -> table_inv (snd (index_image table seg)).
Proof.
  intros Hinv. unfold index_image.
  destruct (count_pixels (seg_labels seg) (seg_count seg)) as [[|] arr]; [|exact Hinv].
  apply Hash_table_inv. exact Hinv.
Qed.

End TallyBounds.

(** * The address of an image does not matter to what is filed *)

Section AddressIndependence.

Variables (image1 image2 : Mat Vec3b) (labels : Mat Z) (pixel_count_arr : list Z).

Hypothesis Hpixels : forall row col, mat_at image1 row col = mat_at image2 row col.

Lemma array_get_Forall2 (sps1 sps2 : list HashKey) (sp : Z) :
  Forall2 same_stats sps1 sps2 ->
  option_Forall2 same_stats (array_get sps1 sp) (array_get sps2 sp).
Proof.
  intros HF. unfold array_get. destruct (sp <? 0); [constructor|].
  apply Forall2_lookup. exact HF.
Qed.

(** One step of the pass on the same pixels at another address. *)
Lemma Hash_cell_same_pixels (cell : nat * nat) (st1 st2 : HashState) :
  Forall2 same_stats (superpixels st1) (superpixels st2) ->
  match Hash_cell image1 labels pixel_count_arr cell st1,
        Hash_cell image2 labels pixel_count_arr cell st2 with
  | Some st1', Some st2' =>
      Forall2 same_stats (superpixels st1') (superpixels st2') /\
      match Hash_cell_insertion image1 labels pixel_count_arr cell (superpixels st1),
            Hash_cell_insertion image2 labels pixel_count_arr cell (superpixels st2) with
      | Some i1, Some i2 => same_insertion i1 i2
      | None, None => True
      | _, _ => False
      end
  | None, None => True
  | _, _ => False
  end.
Proof.
  intros HF. unfold Hash_cell, Hash_cell_insertion. destruct cell as [row col].
  rewrite Hpixels.
  pose proof (array_get_Forall2 _ _ (mat_at labels row col) HF) as Ho.
  destruct (array_get (superpixels st1) (mat_at labels row col)) as [k1|],
           (array_get (superpixels st2) (mat_at labels row col)) as [k2|];
    inversion Ho as [? ? Hk|]; subst; [|exact I].
  destruct (array_get pixel_count_arr (mat_at labels row col)) as [expected|]; [|exact I].
  pose proof (accumulate_same_stats (address_of image1) (address_of image2)
                (mat_at image2 row col) (Z.of_nat row) (Z.of_nat col) k1 k2 Hk) as Hacc.
  assert (HF' : Forall2 same_stats
                  (array_set (superpixels st1) (mat_at labels row col)
                     (accumulate (address_of image1) (mat_at image2 row col)
                        (Z.of_nat row) (Z.of_nat col) k1))
                  (array_set (superpixels st2) (mat_at labels row col)
                     (accumulate (address_of image2) (mat_at image2 row col)
                        (Z.of_nat row) (Z.of_nat col) k2))).
  { unfold array_set. apply Forall2_insert; assumption. }
  rewrite (calculate_hash_key_same_stats _ _ Hacc).
  destruct Hacc as (Hl & Ha & Hb & Hx & Hy & Hp) eqn:Eacc. rewrite Hp.
  destruct (pixel_count _ =? expected); cbn [andb].
  - destruct (calculate_hash_key _ =? -1); cbn [negb]; cbn [superpixels].
    + split; [exact HF'|exact I].
    + split; [exact HF'|]. split; [reflexivity|]. cbn [snd]. repeat split; assumption.
  - cbn [superpixels]. split; [exact HF'|exact I].
Qed.

(** The pass on the same pixels at another address ends in the same way
    and makes the same insertions, but for the owner of the records. *)
Lemma Hash_loop_same_pixels (cells : list (nat * nat)) : forall st1 st2,
  Forall2 same_stats (superpixels st1) (superpixels st2) ->
  fst (Hash_loop image1 labels pixel_count_arr cells st1)
  = fst (Hash_loop image2 labels pixel_count_arr cells st2) /\
  Forall2 same_insertion
    (Hash_insertions image1 labels pixel_count_arr cells st1)
    (Hash_insertions image2 labels pixel_count_arr cells st2).
Proof.
  induction cells as [|c cells IH]; intros st1 st2 HF; simpl; [split; [reflexivity|constructor]|].
  pose proof (Hash_cell_same_pixels c st1 st2 HF) as Hstep.
  destruct (Hash_cell image1 labels pixel_count_arr c st1) as [st1'|],
           (Hash_cell image2 labels pixel_count_arr c st2) as [st2'|];
    try contradiction; [|split; [reflexivity|constructor]].
  destruct Hstep as [HF' Hins]. destruct (IH st1' st2' HF') as [Hs Hi].
  split; [exact Hs|].
  apply Forall2_app; [|exact Hi].
  destruct (Hash_cell_insertion image1 labels pixel_count_arr c (superpixels st1)) as [i1|],
           (Hash_cell_insertion image2 labels pixel_count_arr c (superpixels st2)) as [i2|];
    try contradiction; [constructor; [exact Hins|constructor]|constructor].
Qed.

End AddressIndependence.

Section Slots.

Implicit Types (seg : Segmented) (pictures : list Segmented).

Lemma inserted_under_same (key : Z) (ins1 ins2 : list (Z * Z * HashKey)) :
  Forall2 same_insertion ins1 ins2 ->
  length (inserted_under key ins1) = length (inserted_under key ins2).
Proof.
  induction 1 as [|i1 i2 l1 l2 [Hk _] _ IH]; [reflexivity|].
  rewrite !inserted_under_cons, Hk.
  destruct (decide (snd (fst i2) = key)); simpl; rewrite ?IH; reflexivity.
Qed.

(** Reading a picture into another object changes neither the way its
    turn ends nor what is filed, but for the owner. *)
Lemma index_at_address (addr : N) seg :
  fst (index_image ∅ (at_address addr seg)) = fst (index_image ∅ seg) /\
  Forall2 same_insertion (index_insertions (at_address addr seg)) (index_insertions seg).
Proof.
  unfold index_image, index_insertions, at_address. cbn [seg_labels seg_count seg_image].
  destruct (count_pixels (seg_labels seg) (seg_count seg)) as [[|] arr];
    [|split; [reflexivity|constructor]].
  unfold Hash.
  destruct (Hash_loop_same_pixels
              (mkMat addr (rows (seg_image seg)) (cols (seg_image seg))
                 (mat_at (seg_image seg)))
              (seg_image seg) (seg_labels seg) arr (fun _ _ => eq_refl)
              (scan (seg_labels seg)) (Hash_init (seg_count seg) ∅) (Hash_init (seg_count seg) ∅))
    as [Hs Hi].
  { apply Forall_Forall2_diag. apply Forall_forall. intros k _. apply same_stats_refl. }
  split; [|exact Hi].
  destruct (Hash_loop _ _ _ _ _) as [s1 t1] in Hs |- *.
  destruct (Hash_loop _ _ _ _ _) as [s2 t2] in Hs |- *.
  exact Hs.
Qed.

End Slots.

(** * The slots of the vector *)

Section SlotTallies.

Implicit Types (seg : Segmented) (pictures : list Segmented) (g : nat -> N).

Lemma length_filter_all {A} (P : A -> Prop) `{!forall x, Decision (P x)} (l : list A) :
  Forall P l -> length (filter P l) = length l.
Proof.
  induction 1 as [|x l Hx _ IH]; [reflexivity|].
  rewrite filter_cons_True by exact Hx. simpl. rewrite IH. reflexivity.
Qed.

Lemma inserted_under_owner (key : Z) (image : mat_ptr) (ins : list (Z * Z * HashKey)) :
  Forall (fun i : Z * Z * HashKey => original_image (snd i) = image) ins ->
  Forall (fun r => original_image r = image) (inserted_under key ins).
Proof.
  intros H. unfold inserted_under. apply Forall_fmap.
  apply Forall_forall. intros i Hi. apply list_elem_of_filter in Hi as [_ Hi].
  rewrite Forall_forall in H. apply (H i Hi).
Qed.

(** The records of a database read into distinct objects: each is owned by
    the object of one of the pictures. *)
Lemma loaded_owners g (key : Z) pictures :
  Forall (fun r => exists k, original_image r = Some (g k))
    (inserted_under key
       (flat_map index_insertions (imap (fun k s => at_address (g k) s) pictures))).
Proof.
  revert g. induction pictures as [|p ps IH]; intros g; [constructor|].
  rewrite imap_cons. cbn [flat_map]. rewrite inserted_under_app. apply Forall_app. split.
  - eapply Forall_impl;
      [apply inserted_under_owner, (index_insertions_owner (at_address (g 0%nat) p))|].
    intros r Hr. exists 0%nat. exact Hr.
  - eapply Forall_impl; [apply (IH (g ∘ S))|].
    intros r [k Hk]. exists (S k). exact Hk.
Qed.

(** What a bucket of the database holds for the object of a picture is
    what indexing the picture alone files under the key. *)
Lemma owned_in_database g (key : Z) pictures :
  (forall i j, g i = g j -> i = j) ->
  forall i seg, pictures !! i = Some seg ->
    length (filter (fun r => original_image r = Some (g i))
              (inserted_under key
                 (flat_map index_insertions (imap (fun k s => at_address (g k) s) pictures))))
    = length (inserted_under key (index_insertions seg)).
Proof.
  revert g. induction pictures as [|p ps IH]; intros g Hinj i seg Hi; [discriminate|].
  rewrite imap_cons. cbn [flat_map]. rewrite inserted_under_app, filter_app, length_app.
  destruct i as [|i]; simpl in Hi.
  - inversion Hi; subst p; clear Hi.
    rewrite length_filter_all
      by (apply inserted_under_owner, (index_insertions_owner (at_address (g 0%nat) seg))).
    rewrite (filter_none _ (inserted_under key (flat_map _ _))).
    + simpl. rewrite Nat.add_0_r. apply inserted_under_same.
      apply (index_at_address (g 0%nat) seg).
    + pose proof (loaded_owners (g ∘ S) key ps) as Ho. rewrite Forall_forall in Ho.
      intros r Hr E. destruct (Ho r Hr) as [k Hk]. rewrite Hk in E.
      inversion E as [E']. apply Hinj in E'. discriminate.
  - rewrite (filter_none _ (inserted_under key (index_insertions _))).
    + simpl. apply (IH (g ∘ S)); [|exact Hi].
      intros a b E. apply Hinj in E. lia.
    + pose proof (inserted_under_owner key _ _
                    (index_insertions_owner (at_address (g 0%nat) p))) as Ho.
      rewrite Forall_forall in Ho. intros r Hr E. rewrite (Ho r Hr) in E.
      inversion E as [E']. apply Hinj in E'. discriminate.
Qed.

Lemma slot_address_inj (base stride : N) (i j : nat) :
  (0 < stride)%N -> slot_address base stride i = slot_address base stride j -> i = j.
Proof.
  unfold slot_address. intros Hs E.
  assert (E' : (stride * N.of_nat i = stride * N.of_nat j)%N) by lia.
  apply N.mul_cancel_l in E'; lia.
Qed.

(** The turn of a picture ends the same way in every object. *)
Lemma indexable_at_address (addr : N) seg : indexable (at_address addr seg) <-> indexable seg.
Proof. unfold indexable. rewrite (proj1 (index_at_address addr seg)). reflexivity. Qed.

Lemma indexable_loaded g pictures :
  Forall indexable (imap (fun k s => at_address (g k) s) pictures) <->
  Forall indexable pictures.
Proof.
  revert g. induction pictures as [|p ps IH]; intros g; [split; constructor|].
  rewrite imap_cons, !Forall_cons, indexable_at_address, (IH (g ∘ S)). reflexivity.
Qed.

(** The tally of an image is the number of its votes as an [int]. *)
Lemma tally_vote_sum (table : gmap Z (list HashKey)) (queries : list HashKey)
    (image : mat_ptr) :
  tally (vote table queries) image
  = wrap_signed 32 (foldr Z.add 0 (map (votes_of_query table image) queries)).
Proof.
  pose proof (lookup_vote table queries image) as H. unfold counted in H.
  unfold tally. rewrite H.
  destruct (decide (foldr Z.add 0 (map (votes_of_query table image) queries) = 0)) as [E|N];
    [rewrite E|]; reflexivity.
Qed.

(** The tally of the picture in a slot, in a database that the loop of
    [main] built. *)
Lemma slot_tally (base stride : N) pictures (table : gmap Z (list HashKey))
    (queries : list HashKey) (i : nat) seg :
  (0 < stride)%N ->
  main_index base stride pictures = (Returned, table) ->
  pictures !! i = Some seg ->
  tally (vote table queries) (Some (slot_address base stride i))
  = wrap_signed 32 (foldr Z.add 0 (map (picture_votes seg) queries)).
Proof.
  intros Hs Hb Hi. unfold main_index, load_database in Hb.
  assert (Hall : Forall indexable
                   (imap (fun k s => at_address (slot_address base stride k) s) pictures)).
  { apply (build_index_returns _ ∅). rewrite Hb. reflexivity. }
  rewrite (build_index_table _ _ Hall) in Hb. inversion Hb; subst table; clear Hb.
  rewrite tally_vote_sum. do 2 f_equal. apply map_ext. intros q.
  unfold votes_of_query, picture_votes, owned_in_bucket.
  destruct (calculate_hash_key q =? sentinel); [reflexivity|]. f_equal.
  rewrite replay_bucket, lookup_empty. simpl.
  apply (owned_in_database (slot_address base stride)); [|exact Hi].
  intros a b. apply slot_address_inj. exact Hs.
Qed.

Lemma main_index_returns (base stride : N) pictures :
  fst (main_index base stride pictures) = Returned <-> Forall indexable pictures.
Proof.
  unfold main_index, load_database. rewrite build_index_returns.
  apply indexable_loaded.
Qed.

End SlotTallies.

(** * Further properties of the pass, the database loop and the queries *)

Section PassProperties.

Variables (input_image : Mat Vec3b) (labels : Mat Z) (pixel_count_arr : list Z)
          (superpixel_count : Z) (table : gmap Z (list HashKey)).

(** X4. For valid labels and any array of expected counts, [Hash] files
    the region [sp] exactly when its expected count lies between 1 and the
    number of its cells.  It is then filed once, at the cell where its
    running count reaches the expected count, and the record filed covers
    the cells of the region up to that cell only: that many pixels, owned
    by the image, with the bounding box of those cells, each side of it on
    one of them.  With any other expected count the region is never
    filed. *)
Theorem Hash_files_region_iff (sp expected : Z) :
  dims_are_int labels ->
  one_per_region pixel_count_arr superpixel_count ->
  labels_in_range labels superpixel_count (scan labels) ->
  array_get pixel_count_arr sp = Some expected ->
  (1 <= expected <= count_cells labels sp (scan labels) ->
   exists done cell rest record,
     scan labels = done ++ cell :: rest /\ label_at labels cell = sp /\
     count_cells labels sp (done ++ [cell]) = expected /\
     insertions_of sp (Hash_insertions input_image labels pixel_count_arr (scan labels)
                         (Hash_init superpixel_count table))
     = [(sp, calculate_hash_key record, record)] /\
     pixel_count record = expected /\
     original_image record = address_of input_image /\
     (forall c, c ∈ done ++ [cell] -> label_at labels c = sp -> in_box record c) /\
     box_attained record (cells_of labels sp (done ++ [cell]))) /\
  (~ (1 <= expected <= count_cells labels sp (scan labels)) ->
   insertions_of sp (Hash_insertions input_image labels pixel_count_arr (scan labels)
                       (Hash_init superpixel_count table)) = []).
Proof.
  intros Hdims Hone Hrange He. split.
  - intros Hexp.
    destruct (region_inserted_at input_image labels pixel_count_arr superpixel_count table
                Hdims Hone Hrange sp expected He Hexp)
      as (done & cell & rest & record & st & E & Hl & Hcnt & _ & _ & Hins & Hr & Hb).
    exists done, cell, rest, record.
    split; [exact E|]. split; [exact Hl|]. split; [exact Hcnt|]. split; [exact Hins|].
    split; [rewrite (inv_count _ _ _ _ _ Hr); exact Hcnt|].
    split; [apply (inv_owner _ _ _ _ _ Hr); lia|].
    split; [|exact Hb].
    intros c Hc Hlc. apply (inv_box _ _ _ _ _ Hr).
    unfold cells_of. apply list_elem_of_filter. auto.
  - apply region_not_inserted; assumption.
Qed.

End PassProperties.

Section TurnProperties.

Variables (table : gmap Z (list HashKey)) (seg : Segmented).

(** X5. One turn of the database loop, for an image whose label matrix has
    [int] dimensions: it returns exactly when every label is a superpixel
    identifier.  It then appends to the table one record for every
    superpixel that has cells and none for the others.  The record of a
    superpixel is filed under its own key, which is not the sentinel, is
    owned by the image, and holds the number of the superpixel's cells,
    the sums of their three channels (as long as 255 times the number of
    pixels fits in [long]) and their exact bounding box; it is the record
    that the query loop builds for that superpixel on the same image. *)
Theorem index_image_files_every_region :
  dims_are_int (seg_labels seg) ->
  0 <= seg_count seg ->
  (fst (index_image table seg) = Returned <->
   labels_in_range (seg_labels seg) (seg_count seg) (scan (seg_labels seg))) /\
  (labels_in_range (seg_labels seg) (seg_count seg) (scan (seg_labels seg)) ->
   exists insertions,
     index_image table seg = (Returned, replay insertions table) /\
     forall sp,
       (count_cells (seg_labels seg) sp (scan (seg_labels seg)) = 0 ->
        insertions_of sp insertions = []) /\
       (0 < count_cells (seg_labels seg) sp (scan (seg_labels seg)) ->
        exists record,
          insertions_of sp insertions = [(sp, calculate_hash_key record, record)] /\
          array_get (snd (build_query (seg_image seg) (seg_labels seg) (seg_count seg))) sp
          = Some record /\
          record ∈ default [] (replay insertions table !! calculate_hash_key record) /\
          calculate_hash_key record <> sentinel /\
          original_image record = address_of (seg_image seg) /\
          pixel_count record = count_cells (seg_labels seg) sp (scan (seg_labels seg)) /\
          (255 * (Z.of_nat (rows (seg_labels seg)) * Z.of_nat (cols (seg_labels seg)))
           <= LONG_MAX ->
           l_tot record
           = channel_sum (seg_image seg) (seg_labels seg) 0 sp (scan (seg_labels seg)) /\
           a_tot record
           = channel_sum (seg_image seg) (seg_labels seg) 1 sp (scan (seg_labels seg)) /\
           b_tot record
           = channel_sum (seg_image seg) (seg_labels seg) 2 sp (scan (seg_labels seg))) /\
          (forall cell, cell ∈ scan (seg_labels seg) ->
                        label_at (seg_labels seg) cell = sp -> in_box record cell) /\
          box_attained record (cells_of (seg_labels seg) sp (scan (seg_labels seg))))).
Proof.
  intros Hdims Hcount. split.
  - split.
    + intros Hret.
      apply (proj1 (count_pixels_counts (seg_labels seg) (seg_count seg) Hdims)).
      unfold index_image in Hret.
      destruct (count_pixels (seg_labels seg) (seg_count seg)) as [[|] arr];
        [reflexivity|discriminate].
    + intros Hrange.
      destruct (index_image_regions table seg Hdims Hcount Hrange) as (ins & -> & _).
      reflexivity.
  - intros Hrange. apply index_image_regions; assumption.
Qed.

End TurnProperties.

Section QueryProperties.

Variables (query_image : Mat Vec3b) (query_labels : Mat Z) (query_superpixel_count : Z).

(** X6. The loop of [main] that builds the query records, for a label
    matrix with [int] dimensions and a count that is not negative: it
    returns exactly when every label is a superpixel identifier, and then
    with one record per superpixel.  The record of a superpixel without
    cells is all zero; that of a superpixel with cells is owned by the
    query image and holds the number of its cells, the sums of their
    channels (as long as 255 times the number of pixels fits in [long])
    and their exact bounding box. *)
Theorem build_query_complete :
  dims_are_int query_labels ->
  0 <= query_superpixel_count ->
  (fst (build_query query_image query_labels query_superpixel_count) = Returned <->
   labels_in_range query_labels query_superpixel_count (scan query_labels)) /\
  (labels_in_range query_labels query_superpixel_count (scan query_labels) ->
   exists query_superpixels,
     build_query query_image query_labels query_superpixel_count
     = (Returned, query_superpixels) /\
     Z.of_nat (length query_superpixels) = query_superpixel_count /\
     forall sp, 0 <= sp < query_superpixel_count ->
       exists q,
         array_get query_superpixels sp = Some q /\
         pixel_count q = count_cells query_labels sp (scan query_labels) /\
         (count_cells query_labels sp (scan query_labels) = 0 -> q = zero_HashKey) /\
         (0 < count_cells query_labels sp (scan query_labels) ->
          original_image q = address_of query_image /\
          (255 * (Z.of_nat (rows query_labels) * Z.of_nat (cols query_labels)) <= LONG_MAX ->
           l_tot q = channel_sum query_image query_labels 0 sp (scan query_labels) /\
           a_tot q = channel_sum query_image query_labels 1 sp (scan query_labels) /\
           b_tot q = channel_sum query_image query_labels 2 sp (scan query_labels)) /\
          (forall cell, cell ∈ scan query_labels ->
                        label_at query_labels cell = sp -> in_box q cell) /\
          box_attained q (cells_of query_labels sp (scan query_labels)))).
Proof.
  intros Hdims Hcount. split.
  - unfold build_query, labels_in_range. rewrite query_loop_returns.
    rewrite calloc_HashKey_length by exact Hcount. reflexivity.
  - intros Hrange.
    destruct (build_query_records query_image query_labels query_superpixel_count
                Hdims Hcount Hrange) as (queries & Hq & Hlen & Hinv & Hbox).
    exists queries. split; [exact Hq|]. split; [exact Hlen|].
    intros sp Hsp. destruct (array_get_in_range queries sp ltac:(lia)) as [q Hget].
    pose proof (Hinv _ _ Hget) as Hr.
    exists q. split; [exact Hget|]. split; [apply (inv_count _ _ _ _ _ Hr)|].
    split; [apply (inv_zero _ _ _ _ _ Hr)|].
    intros Hpos. split; [apply (inv_owner _ _ _ _ _ Hr); exact Hpos|].
    split; [|split].
    + intros Hfit. apply (inv_sums _ _ _ _ _ Hr).
      rewrite scan_length, Nat2Z.inj_mul. exact Hfit.
    + intros cell Hcell Hl. apply (inv_box _ _ _ _ _ Hr).
      unfold cells_of. apply list_elem_of_filter. auto.
    + apply (Hbox _ _ Hget Hpos).
Qed.

End QueryProperties.

(** X7. The key of a record with pixels determines its five clamped
    buckets: they are its digits in the mixed radix 16, 16, 16, 10, 10.
    So two records with pixels get the same key exactly when they fall in
    the same bucket on every axis, and the owner of a record plays no part
    in its key. *)
Theorem key_digits_round_trip :
  (forall key, pixel_count key <> 0 ->
     key_digits (calculate_hash_key key) = clamped_buckets key) /\
  (forall k1 k2, pixel_count k1 <> 0 -> pixel_count k2 <> 0 ->
     (calculate_hash_key k1 = calculate_hash_key k2 <->
      clamped_buckets k1 = clamped_buckets k2)) /\
  (forall k1 k2, same_stats k1 k2 -> calculate_hash_key k1 = calculate_hash_key k2).
Proof.
  split; [exact key_digits_buckets|]. split; [|exact calculate_hash_key_same_stats].
  intros k1 k2 H1 H2. split.
  - intros E. rewrite <- (key_digits_buckets k1 H1), <- (key_digits_buckets k2 H2), E.
    reflexivity.
  - intros E.
    destruct (calculate_hash_key_buckets k1 H1) as (l1 & a1 & b1 & x1 & y1 & E1 & _ & ->).
    destruct (calculate_hash_key_buckets k2 H2) as (l2 & a2 & b2 & x2 & y2 & E2 & _ & ->).
    rewrite E1, E2 in E. inversion E. reflexivity.
Qed.

(** X8. The map of tallies after the voting, for any table: an image has
    an entry exactly when the votes cast for it, one per record of a query
    record's bucket that it owns, are not zero in number, and the entry is
    that number as an [int].  Against an empty table, or with no query
    record, the map stays empty and no match is reported. *)
Theorem vote_entries :
  (forall table queries image,
     vote table queries !! image
     = if decide (foldr Z.add 0 (map (votes_of_query table image) queries) = 0)
       then None
       else Some (wrap_signed 32
                    (foldr Z.add 0 (map (votes_of_query table image) queries)))) /\
  (forall queries, vote ∅ queries = ∅ /\ retrieve ∅ queries = NoMatchesFound) /\
  (forall table, vote table [] = ∅ /\ retrieve table [] = NoMatchesFound).
Proof.
  split; [exact lookup_vote|].
  assert (Hnone : forall table queries,
            vote table queries = ∅ -> retrieve table queries = NoMatchesFound).
  { intros table queries E. unfold retrieve. rewrite E. vm_compute. reflexivity. }
  split.
  - intros queries.
    assert (E : vote ∅ queries = ∅).
    { apply map_eq. intros image. rewrite lookup_empty.
      assert (Hz : foldr Z.add 0 (map (votes_of_query ∅ image) queries) = 0).
      { clear Hnone. induction queries as [|q l IH]; simpl; [reflexivity|].
        rewrite IH. unfold votes_of_query, owned_in_bucket. rewrite lookup_empty.
        destruct (_ =? _); reflexivity. }
      pose proof (lookup_vote ∅ queries image) as H. unfold counted in H.
      rewrite H, Hz. reflexivity. }
    split; [exact E|]. apply Hnone. exact E.
  - intros table. split; [reflexivity|]. apply Hnone. reflexivity.
Qed.

Section DatabaseProperties.

Implicit Types (table : gmap Z (list HashKey)) (database : list Segmented).

(** X9. In the database that the loop of [main] builds, where the image of
    the [i]-th turn is the [i]-th element of the vector [database_images],
    the tally of a picture depends on the picture and the query records
    alone: it is the number, as an [int], of the records that indexing the
    picture files under the keys of the query records, whatever the
    position of the picture, the start of the vector and the other
    pictures.  So if the loop returns on a list of pictures it returns on
    every rearrangement of it, and every picture has the same tally in both
    databases, at the address of the slot it is in.  (The image shown can
    differ all the same: the slots have changed their pictures, and ties go
    to the lower slot.) *)
Theorem database_order_keeps_tallies (base stride : N)
    (pictures pictures' : list Segmented) (table : gmap Z (list HashKey)) :
  (0 < stride)%N ->
  pictures ≡ₚ pictures' ->
  main_index base stride pictures = (Returned, table) ->
  exists table',
    main_index base stride pictures' = (Returned, table') /\
    forall (queries : list HashKey) (i j : nat) (seg : Segmented),
      pictures !! i = Some seg -> pictures' !! j = Some seg ->
      tally (vote table queries) (Some (slot_address base stride i))
      = wrap_signed 32 (foldr Z.add 0 (map (picture_votes seg) queries)) /\
      tally (vote table' queries) (Some (slot_address base stride j))
      = tally (vote table queries) (Some (slot_address base stride i)).
Proof.
  intros Hs Hp Hb.
  assert (Hall : Forall indexable pictures).
  { apply (main_index_returns base stride). rewrite Hb. reflexivity. }
  assert (Hall' : Forall indexable pictures').
  { rewrite Forall_forall in *. intros seg Hin. apply Hall. rewrite Hp. exact Hin. }
  apply (main_index_returns base stride) in Hall'.
  destruct (main_index base stride pictures') as [s table'] eqn:Hb'.
  simpl in Hall'. subst s.
  exists table'. split; [reflexivity|].
  intros queries i j seg Hi Hj.
  rewrite (slot_tally base stride pictures table queries i seg Hs Hb Hi).
  rewrite (slot_tally base stride pictures' table' queries j seg Hs Hb' Hj).
  split; reflexivity.
Qed.

(** X10. The image shown for a query is one of the database images: when
    the table was built by the database loop from an empty table and a
    query shows a best match, the pointer shown is the address of an image
    of the database.  With an empty database nothing is ever shown. *)
Theorem shown_image_is_indexed database table (query : Segmented) (a : N) :
  build_index database ∅ = (Returned, table) ->
  run_query table query = Some (BestMatch a) ->
  exists seg, seg ∈ database /\ address_of (seg_image seg) = Some a.
Proof.
  intros Hb Hq. unfold run_query in Hq.
  destruct (count_pixels (seg_labels query) (seg_count query)) as [[|] arr]; [|discriminate].
  destruct (build_query (seg_image query) (seg_labels query) (seg_count query))
    as [[|] queries]; [|discriminate].
  inversion Hq as [Hr]; clear Hq.
  destruct (retrieve_BestMatch table queries a Hr) as (c & Hc & _ & _).
  destruct (vote_entry_owner table queries (Some a) c Hc) as (q & record & _ & _ & Hin & Ho).
  destruct (build_index_owner database table _ record Hb Hin) as (seg & Hseg & Hown).
  exists seg. split; [exact Hseg|]. rewrite <- Hown. exact Ho.
Qed.

End DatabaseProperties.

Section SelectionProperties.

Variables (table : gmap Z (list HashKey)) (queries : list HashKey).

(** X11. Ties go to the lowest address: the image shown as the best match
    has a positive tally, and every image with the same tally lies at an
    address that is not lower.  This holds for any table. *)
Theorem ties_go_to_lowest_address (a : N) :
  retrieve table queries = BestMatch a ->
  0 < tally (vote table queries) (Some a) /\
  forall b, tally (vote table queries) (Some b) = tally (vote table queries) (Some a) ->
            (a <= b)%N.
Proof.
  intros Hr. destruct (retrieve_BestMatch table queries a Hr) as (c & Hc & Hpos & Hb).
  rewrite (tally_lookup _ _ _ Hc). split; [exact Hpos|].
  intros b Hbt. apply (best_match_first (vote table queries) a c Hb).
  apply tally_positive; assumption.
Qed.

End SelectionProperties.

Section SamePictureProperties.

Variables (table : gmap Z (list HashKey)) (seg query : Segmented).

(** X12. A query that shows the picture of an indexed image finds it.  Let
    [seg] be a database image with valid labels and at least one cell,
    indexed into a table built by [Hash], and let the query have the same
    pixels and the same segmentation, in objects of its own.  If the
    numbers involved fit in [int], the query returns a best match; every
    query record with pixels casts at least one vote for the indexed image;
    so the tally of the indexed image is at least the number of superpixels
    with cells, and the tally of the image shown is at least that.  When
    the table was empty before, the image shown is the indexed image. *)
Theorem query_of_indexed_picture_matches :
  dims_are_int (seg_labels seg) ->
  0 <= seg_count seg ->
  labels_in_range (seg_labels seg) (seg_count seg) (scan (seg_labels seg)) ->
  (0 < rows (seg_labels seg))%nat ->
  (0 < cols (seg_labels seg))%nat ->
  same_picture query seg ->
  table_inv table ->
  Z.of_nat (length (table_records (snd (index_image table seg)))) * seg_count seg
  <= INT_MAX ->
  exists queries a,
    build_query (seg_image query) (seg_labels query) (seg_count query)
    = (Returned, queries) /\
    run_query (snd (index_image table seg)) query = Some (BestMatch a) /\
    (forall q, q ∈ queries -> pixel_count q <> 0 ->
       1 <= votes_of_query (snd (index_image table seg)) (address_of (seg_image seg)) q) /\
    1 <= Z.of_nat (length (occupied queries)) /\
    Z.of_nat (length (occupied queries))
    <= tally (vote (snd (index_image table seg)) queries) (address_of (seg_image seg)) /\
    tally (vote (snd (index_image table seg)) queries) (address_of (seg_image seg))
    <= tally (vote (snd (index_image table seg)) queries) (Some a) /\
    (table = ∅ -> a = mat_addr (seg_image seg)).
Proof.
  intros Hdims Hcount Hrange Hrows Hcols Hsame Hinv Hfit.
  set (table' := snd (index_image table seg)) in *.
  destruct (same_picture_range seg query Hdims Hcount Hrange Hsame) as (Hd' & Hc' & Hr').
  destruct (build_query_records (seg_image query) (seg_labels query) (seg_count query)
              Hd' Hc' Hr') as (queries & Hq & Hlen & _ & _).
  pose proof (same_picture_votes table seg query Hdims Hcount Hrange Hsame queries Hq)
    as Hvotes.
  fold table' in Hvotes.
  pose proof (occupied_nonempty seg query Hdims Hcount Hrange Hsame queries Hq Hrows Hcols)
    as Hocc.
  set (image := address_of (seg_image seg)) in *.
  set (n := foldr Z.add 0 (map (votes_of_query table' image) queries)).
  assert (Hn1 : Z.of_nat (length (occupied queries)) <= n)
    by (apply sum_votes_occupied; exact Hvotes).
  assert (Hn2 : n <= INT_MAX).
  { pose proof (sum_votes_le table' image queries) as Hle. fold n in Hle.
    destruct Hsame as (_ & _ & Hcnt & _). rewrite Hlen, Hcnt in Hle. lia. }
  assert (Hentry : vote table' queries !! image = Some n).
  { pose proof (lookup_vote table' queries image) as Hl. unfold counted in Hl. fold n in Hl.
    rewrite Hl. destruct (decide (n = 0)); [lia|]. f_equal.
    apply wrap_signed_int. unfold is_int, INT_MIN. lia. }
  assert (Hinv' : table_inv table') by (apply index_image_table_inv; exact Hinv).
  assert (Hcq : count_pixels (seg_labels query) (seg_count query)
                = (Returned, snd (count_pixels (seg_labels query) (seg_count query)))).
  { destruct (proj2 (count_pixels_counts (seg_labels query) (seg_count query) Hd') Hr' Hc')
      as (arr & -> & _). reflexivity. }
  destruct (best_match_cases (vote table' queries)) as [[_ Hall]|(Hb & Hpos & Hall)].
  { specialize (Hall image n Hentry). lia. }
  destruct (best_match (vote table' queries)) as [[a|] m] eqn:Hbest; simpl in Hb, Hpos, Hall.
  2:{ pose proof (vote_nullptr table' queries Hinv') as Hnull.
      unfold nullptr in Hnull. congruence. }
  assert (Hret : retrieve table' queries = BestMatch a).
  { unfold retrieve. rewrite Hbest. reflexivity. }
  exists queries, a. split; [exact Hq|]. split; [|split; [exact Hvotes|split; [lia|split; [|split]]]].
  - unfold run_query. rewrite Hcq, Hq, Hret. reflexivity.
  - rewrite (tally_lookup _ _ _ Hentry). exact Hn1.
  - rewrite (tally_lookup _ _ _ Hentry), (tally_lookup _ _ _ Hb).
    apply (Hall image n Hentry).
  - intros Hempty.
    destruct (vote_entry_owner table' queries (Some a) m Hb) as (q & record & _ & _ & Hin & Ho).
    unfold table' in Hin. rewrite (index_image_replay table seg) in Hin. simpl in Hin.
    apply replay_records_elem in Hin as [Hin|(ins & Hin & <-)].
    + rewrite Hempty, lookup_empty in Hin. inversion Hin.
    + pose proof (index_insertions_owner seg) as Hown. rewrite Forall_forall in Hown.
      rewrite (Hown ins Hin) in Ho. inversion Ho. reflexivity.
Qed.

End SamePictureProperties.

(** * The further properties at concrete inputs *)

Section FurtherWitnesses.

Import Scenario Database Vector.

Local Ltac by_computation := vm_compute; repeat split; (reflexivity || discriminate).

Lemma labels_in_range_seg_A :
  labels_in_range (seg_labels seg_A) (seg_count seg_A) (scan (seg_labels seg_A)).
Proof. apply (labels_in_range_labels_A 2). lia. Defined.

Lemma count_pixels_true_witness :
  (fst (count_pixels labels_A 2) = Returned <->
   labels_in_range labels_A 2 (scan labels_A)) /\
  (labels_in_range labels_A 2 (scan labels_A) ->
   0 <= 2 ->
   exists pixel_count_arr,
     count_pixels labels_A 2 = (Returned, pixel_count_arr) /\
     one_per_region pixel_count_arr 2 /\
     counts_are_true labels_A pixel_count_arr /\
     foldr Z.add 0 pixel_count_arr = Z.of_nat (rows labels_A) * Z.of_nat (cols labels_A)).
Proof. apply (count_pixels_true labels_A 2). exact dims_are_int_labels_A. Defined.

Lemma Hash_files_region_iff_witness :
  (1 <= 3 <= count_cells labels_A 0 (scan labels_A) ->
   exists done cell rest record,
     scan labels_A = done ++ cell :: rest /\ label_at labels_A cell = 0 /\
     count_cells labels_A 0 (done ++ [cell]) = 3 /\
     insertions_of 0 (Hash_insertions image_A labels_A counts_short (scan labels_A)
                        (Hash_init 2 ∅))
     = [(0, calculate_hash_key record, record)] /\
     pixel_count record = 3 /\
     original_image record = address_of image_A /\
     (forall c, c ∈ done ++ [cell] -> label_at labels_A c = 0 -> in_box record c) /\
     box_attained record (cells_of labels_A 0 (done ++ [cell]))) /\
  (~ (1 <= 3 <= count_cells labels_A 0 (scan labels_A)) ->
   insertions_of 0 (Hash_insertions image_A labels_A counts_short (scan labels_A)
                      (Hash_init 2 ∅)) = []).
Proof.
  apply (Hash_files_region_iff image_A labels_A counts_short 2 ∅ 0 3).
  - exact dims_are_int_labels_A.
  - by_computation.
  - apply labels_in_range_labels_A. lia.
  - reflexivity.
Defined.

Lemma index_image_files_every_region_witness :
  (fst (index_image ∅ seg_A) = Returned <->
   labels_in_range (seg_labels seg_A) (seg_count seg_A) (scan (seg_labels seg_A))) /\
  (labels_in_range (seg_labels seg_A) (seg_count seg_A) (scan (seg_labels seg_A)) ->
   exists insertions,
     index_image ∅ seg_A = (Returned, replay insertions ∅) /\
     forall sp,
       (count_cells (seg_labels seg_A) sp (scan (seg_labels seg_A)) = 0 ->
        insertions_of sp insertions = []) /\
       (0 < count_cells (seg_labels seg_A) sp (scan (seg_labels seg_A)) ->
        exists record,
          insertions_of sp insertions = [(sp, calculate_hash_key record, record)] /\
          array_get (snd (build_query (seg_image seg_A) (seg_labels seg_A) (seg_count seg_A)))
            sp = Some record /\
          record ∈ default [] (replay insertions ∅ !! calculate_hash_key record) /\
          calculate_hash_key record <> sentinel /\
          original_image record = address_of (seg_image seg_A) /\
          pixel_count record = count_cells (seg_labels seg_A) sp (scan (seg_labels seg_A)) /\
          (255 * (Z.of_nat (rows (seg_labels seg_A)) * Z.of_nat (cols (seg_labels seg_A)))
           <= LONG_MAX ->
           l_tot record
           = channel_sum (seg_image seg_A) (seg_labels seg_A) 0 sp (scan (seg_labels seg_A)) /\
           a_tot record
           = channel_sum (seg_image seg_A) (seg_labels seg_A) 1 sp (scan (seg_labels seg_A)) /\
           b_tot record
           = channel_sum (seg_image seg_A) (seg_labels seg_A) 2 sp (scan (seg_labels seg_A))) /\
          (forall cell, cell ∈ scan (seg_labels seg_A) ->
                        label_at (seg_labels seg_A) cell = sp -> in_box record cell) /\
          box_attained record
            (cells_of (seg_labels seg_A) sp (scan (seg_labels seg_A))))).
Proof.
  apply (index_image_files_every_region ∅ seg_A).
  - exact dims_are_int_labels_A.
  - by_computation.
Defined.

Lemma build_query_complete_witness :
  (fst (build_query query_image query_labels 2) = Returned <->
   labels_in_range query_labels 2 (scan query_labels)) /\
  (labels_in_range query_labels 2 (scan query_labels) ->
   exists query_superpixels,
     build_query query_image query_labels 2 = (Returned, query_superpixels) /\
     Z.of_nat (length query_superpixels) = 2 /\
     forall sp, 0 <= sp < 2 ->
       exists q,
         array_get query_superpixels sp = Some q /\
         pixel_count q = count_cells query_labels sp (scan query_labels) /\
         (count_cells query_labels sp (scan query_labels) = 0 -> q = zero_HashKey) /\
         (0 < count_cells query_labels sp (scan query_labels) ->
          original_image q = address_of query_image /\
          (255 * (Z.of_nat (rows query_labels) * Z.of_nat (cols query_labels)) <= LONG_MAX ->
           l_tot q = channel_sum query_image query_labels 0 sp (scan query_labels) /\
           a_tot q = channel_sum query_image query_labels 1 sp (scan query_labels) /\
           b_tot q = channel_sum query_image query_labels 2 sp (scan query_labels)) /\
          (forall cell, cell ∈ scan query_labels ->
                        label_at query_labels cell = sp -> in_box q cell) /\
          box_attained q (cells_of query_labels sp (scan query_labels)))).
Proof.
  apply (build_query_complete query_image query_labels 2).
  - by_computation.
  - by_computation.
Defined.

Lemma database_order_keeps_tallies_witness :
  exists table',
    main_index base stride [seg_C; seg_A] = (Returned, table') /\
    forall (queries : list HashKey) (i j : nat) (seg : Segmented),
      [seg_A; seg_C] !! i = Some seg -> [seg_C; seg_A] !! j = Some seg ->
      tally (vote table_AC queries) (Some (slot_address base stride i))
      = wrap_signed 32 (foldr Z.add 0 (map (picture_votes seg) queries)) /\
      tally (vote table' queries) (Some (slot_address base stride j))
      = tally (vote table_AC queries) (Some (slot_address base stride i)).
Proof.
  apply (database_order_keeps_tallies base stride [seg_A; seg_C] [seg_C; seg_A] table_AC).
  - reflexivity.
  - apply perm_swap.
  - vm_compute. reflexivity.
Defined.

(** The two pictures tie on the query that shows the first of them, and in
    either order the first element of the vector is shown: the picture of
    [seg_A] when it was read first, that of [seg_C] when that was. *)
Example order_decides_ties :
  run_query table_AC query_A = Some (BestMatch (slot_address base stride 0)) /\
  run_query table_CA query_A = Some (BestMatch (slot_address base stride 0)) /\
  tally (vote table_AC (queries_of query_A)) (Some (slot_address base stride 0))
  = tally (vote table_AC (queries_of query_A)) (Some (slot_address base stride 1)) /\
  mat_at (seg_image seg_A) 0 0 <> mat_at (seg_image seg_C) 0 0.
Proof.
  split; [vm_compute; reflexivity|]. split; [vm_compute; reflexivity|].
  split; [vm_compute; reflexivity|]. vm_compute. discriminate.
Qed.

Lemma shown_image_is_indexed_witness :
  exists seg, seg ∈ [seg_A; seg_B] /\ address_of (seg_image seg) = Some 50%N.
Proof.
  apply (shown_image_is_indexed [seg_A; seg_B] (table_of [seg_A; seg_B]) query_A 50%N).
  - vm_compute. reflexivity.
  - vm_compute. reflexivity.
Defined.

Lemma ties_go_to_lowest_address_witness :
  tally (vote (table_of [seg_A; seg_B]) (queries_of query_A)) (Some 100%N)
  = tally (vote (table_of [seg_A; seg_B]) (queries_of query_A)) (Some 50%N) /\
  0 < tally (vote (table_of [seg_A; seg_B]) (queries_of query_A)) (Some 50%N) /\
  forall b,
    tally (vote (table_of [seg_A; seg_B]) (queries_of query_A)) (Some b)
    = tally (vote (table_of [seg_A; seg_B]) (queries_of query_A)) (Some 50%N) ->
    (50 <= b)%N.
Proof.
  split; [vm_compute; reflexivity|].
  apply (ties_go_to_lowest_address (table_of [seg_A; seg_B]) (queries_of query_A) 50%N).
  vm_compute. reflexivity.
Defined.

Lemma same_picture_query_A : same_picture query_A seg_A.
Proof.
  unfold same_picture. split; [reflexivity|]. split; [reflexivity|].
  split; [reflexivity|]. split; intros row col _ _; reflexivity.
Defined.

Lemma query_of_indexed_picture_matches_witness :
  exists queries a,
    build_query (seg_image query_A) (seg_labels query_A) (seg_count query_A)
    = (Returned, queries) /\
    run_query (snd (index_image ∅ seg_A)) query_A = Some (BestMatch a) /\
    (forall q, q ∈ queries -> pixel_count q <> 0 ->
       1 <= votes_of_query (snd (index_image ∅ seg_A)) (address_of (seg_image seg_A)) q) /\
    1 <= Z.of_nat (length (occupied queries)) /\
    Z.of_nat (length (occupied queries))
    <= tally (vote (snd (index_image ∅ seg_A)) queries) (address_of (seg_image seg_A)) /\
    tally (vote (snd (index_image ∅ seg_A)) queries) (address_of (seg_image seg_A))
    <= tally (vote (snd (index_image ∅ seg_A)) queries) (Some a) /\
    (∅ = (∅ : gmap Z (list HashKey)) -> a = mat_addr (seg_image seg_A)).
Proof.
  apply (query_of_indexed_picture_matches ∅ seg_A query_A).
  - exact dims_are_int_labels_A.
  - by_computation.
  - exact labels_in_range_seg_A.
  - simpl. lia.
  - simpl. lia.
  - exact same_picture_query_A.
  - exact table_inv_empty.
  - by_computation.
Defined.

End FurtherWitnesses.
